(** * nakama-cluster: node metadata and the peer registry

    A shallow embedding of [meta.go] and [peer.go] (package
    [nakamacluster]).

    Conventions of the embedding.
    - A Go [string] is a byte sequence: Rocq's [string].
    - A Go [int] is a 64-bit signed integer: a [Z], with the wrap-around
      of [++] and [--] written out ([wrap_int]).
    - A [*Meta] is an address into a store of [Meta] objects, and a
      [map[string]string] is a reference into a store of maps (or nil):
      the registry and its callers share these objects, so copies made by
      [Clone] are copies of the struct only.
    - A run-time panic (nil dereference, write to a nil map, [panic(err)])
      is the result [None].
    - Operations run one at a time: a step of the model is a whole call of
      a method. The interleavings that the lock juggling inside the
      iterations of the source permits are not modelled. *)

From Stdlib Require Import Ascii.
From stdpp Require Import gmap strings list fin_maps pretty sorting.

#[local] Set Warnings "-clear-no-such-hyp,-register-all".

Open Scope string_scope.
Open Scope list_scope.
Open Scope Z_scope.

(** ** Machine integers *)

Definition max_int : Z := 2 ^ 63 - 1.
Definition min_int : Z := - 2 ^ 63.

(** Two's complement wrap-around of a 64-bit [int]. *)
Definition wrap_int (z : Z) : Z := (z + 2 ^ 63) mod 2 ^ 64 - 2 ^ 63.

(** ** meta.go *)

(** [type MetaStatus int], with its three named values. *)
Definition MetaStatus := Z.
Definition META_STATUS_WAIT_READY : MetaStatus := 0.
Definition META_STATUS_READYED : MetaStatus := 1.
Definition META_STATUS_STOPED : MetaStatus := 2.

(** [type NodeType int], [iota + 1]. *)
Definition NodeType := Z.
Definition NODE_TYPE_NAKAMA : NodeType := 1.
Definition NODE_TYPE_MICROSERVICES : NodeType := 2.

(** Addresses of [Meta] objects and of [map[string]string] objects. *)
Definition ptr := nat.
Definition mapref := nat.

(** [type Meta struct]. [Vars] holds a map reference; [None] is the nil
    map. *)
Record Meta := mkMeta {
  Id : string;
  Name : string;
  Addr : string;
  Type_ : NodeType;  (* the field [Type] *)
  Status : MetaStatus;
  Vars : option mapref
}.

Global Instance Meta_eq_dec : EqDecision Meta.
Proof. solve_decision. Defined.

(** The store: every [Meta] object and every vars map allocated so far. *)
Record Store := mkStore {
  metas : list Meta;
  varmaps : list (gmap string string)
}.

Definition empty_store : Store := mkStore [] [].

(** [&Meta{...}]: a fresh object at the next free address. *)
Definition alloc_meta (m : Meta) (σ : Store) : ptr * Store :=
  (length (metas σ), mkStore (metas σ ++ [m]) (varmaps σ)).

(** [map[string]string{...}] / [make(map[string]string)]. *)
Definition alloc_map (vm : gmap string string) (σ : Store) : mapref * Store :=
  (length (varmaps σ), mkStore (metas σ) (varmaps σ ++ [vm])).

(** [*p] *)
Definition deref (σ : Store) (p : ptr) : option Meta := metas σ !! p.

(** [*p = m] *)
Definition store_meta (p : ptr) (m : Meta) (σ : Store) : Store :=
  mkStore (<[p := m]> (metas σ)) (varmaps σ).

(** [v, ok := vars[k]]: reading the nil map finds nothing. *)
Definition vars_lookup (σ : Store) (vars : option mapref) (k : string)
  : option string :=
  r ← vars; vm ← varmaps σ !! r; vm !! k.

(** [vars[k] = v]: writing to the nil map panics. *)
Definition vars_store (vars : option mapref) (k v : string) (σ : Store)
  : option Store :=
  r ← vars; vm ← varmaps σ !! r;
  Some (mkStore (metas σ) (<[r := <[k := v]> vm]> (varmaps σ))).

(** [func (n Meta) Clone() *Meta { return &n }]: the value receiver is a
    copy of the struct; its address is returned. The [Vars] field of the
    copy is the same map reference. *)
Definition Clone (n : Meta) (σ : Store) : ptr * Store := alloc_meta n σ.

(** [node.Clone()] on a [*Meta]: Go dereferences the pointer to obtain the
    value receiver. *)
Definition Clone_ptr (p : ptr) (σ : Store) : option (ptr * Store) :=
  n ← deref σ p; Some (Clone n σ).

(** [NewNodeMeta] *)
Definition NewNodeMeta (id name addr : string) (nodeType : NodeType)
    (vars : option mapref) (σ : Store) : ptr * Store :=
  alloc_meta {| Id := id; Name := name; Addr := addr; Type_ := nodeType;
                Vars := vars; Status := META_STATUS_WAIT_READY |} σ.

(** Modelled from the spec: [type Config] is declared in a file that is
    not part of the sources at hand; the configuration surface lists
    [Addr], [Port] and [Domain] as the fields of the self endpoint, and
    these are the three that [NewNodeMetaFromConfig] reads. *)
Record Config := mkConfig {
  cfg_Addr : string;
  cfg_Port : Z;
  cfg_Domain : string
}.

(** The environment of [NewNodeMetaFromConfig].
    - [ResolveIPAddr a] is the outcome of [net.ResolveIPAddr("ip", a)]:
      [Some s] is a resolved [*IPAddr] whose [String()] is [s] (and a nil
      error), [None] is a nil [*IPAddr] and an error.
    - [GetPrivateIP] is the outcome of [sockaddr.GetPrivateIP()]:
      [None] is an error. *)
Record NetEnv := mkNetEnv {
  ResolveIPAddr : string → option string;
  GetPrivateIP : option string
}.

(** The [String] method of [*IPAddr], which answers "<nil>" on a nil
    receiver. *)
Definition IPAddr_String (ip : option string) : string :=
  match ip with
  | Some s => s
  | None => "<nil>"
  end.

(** The address chosen by the [if]/[else] of [NewNodeMetaFromConfig];
    [None] is [panic(err)]. Go parses the condition
    [err == nil && A || B] as [(err == nil && A) || B], where [A] is
    the test that [c.Addr] is not the empty string and [B] the test that
    it is not "0.0.0.0". *)
Definition config_addr (env : NetEnv) (c : Config) : option string :=
  let ip := ResolveIPAddr env (cfg_Addr c) in
  let err_is_nil := match ip with Some _ => true | None => false end in
  if err_is_nil && negb (bool_decide (cfg_Addr c = EmptyString))
     || negb (bool_decide (cfg_Addr c = "0.0.0.0"))
  then Some (IPAddr_String ip)
  else GetPrivateIP env.

(** [fmt.Sprintf("%s:%d", addr, port)] *)
Definition host_port (addr : string) (port : Z) : string :=
  addr +:+ ":" +:+ pretty port.

(** [NewNodeMetaFromConfig] *)
Definition NewNodeMetaFromConfig (env : NetEnv) (id name : string)
    (t : NodeType) (vars : option mapref) (c : Config) (σ : Store)
  : option (ptr * Store) :=
  addr ← config_addr env c;
  σ1 ← vars_store vars "domain" (cfg_Domain c) σ;
  Some (NewNodeMeta id name (host_port addr (cfg_Port c)) t vars σ1).

(** ** encoding/json, as meta.go uses it

    [Marshal] and [NewNodeMetaFromJSON] hand a [*Meta] to
    [json.Marshal] and [json.Unmarshal]. The library is modelled by what
    its documentation states for the types of [Meta], between Go values
    and JSON documents: the rendering of a document as text and its
    scanning back are the library's own and are not modelled. *)

Definition byte_of (c : ascii) : Z := Z.of_N (N_of_ascii c).

Definition between (lo hi : Z) (c : ascii) : bool :=
  (lo <=? byte_of c) && (byte_of c <=? hi).

(** The range accepted for the second byte of a UTF-8 sequence and the
    width of the sequence, by its first byte (the tables [first] and
    [acceptRanges] of [unicode/utf8]). *)
Definition second_range (b0 : ascii) : option (Z * Z * nat) :=
  if between 194 223 b0 then Some (128, 191, 2%nat)
  else if between 224 224 b0 then Some (160, 191, 3%nat)
  else if between 225 236 b0 then Some (128, 191, 3%nat)
  else if between 237 237 b0 then Some (128, 159, 3%nat)
  else if between 238 239 b0 then Some (128, 191, 3%nat)
  else if between 240 240 b0 then Some (144, 191, 4%nat)
  else if between 241 243 b0 then Some (128, 191, 4%nat)
  else if between 244 244 b0 then Some (128, 143, 4%nat)
  else None.

(** The width of the rune at the head of the string; [None] where
    [utf8.DecodeRuneInString] answers [RuneError] with width one. *)
Definition rune_width (s : string) : option nat :=
  match s with
  | EmptyString => None
  | String b0 rest =>
      if byte_of b0 <? 128 then Some 1%nat
      else
        match second_range b0, rest with
        | Some (lo, hi, 2%nat), String b1 _ =>
            if between lo hi b1 then Some 2%nat else None
        | Some (lo, hi, 3%nat), String b1 (String b2 _) =>
            if between lo hi b1 && between 128 191 b2
            then Some 3%nat else None
        | Some (lo, hi, 4%nat), String b1 (String b2 (String b3 _)) =>
            if between lo hi b1 && between 128 191 b2 && between 128 191 b3
            then Some 4%nat else None
        | _, _ => None
        end
  end.

Fixpoint string_take (n : nat) (s : string) : string :=
  match n, s with
  | S n, String c rest => String c (string_take n rest)
  | _, _ => EmptyString
  end.

Fixpoint string_drop (n : nat) (s : string) : string :=
  match n, s with
  | S n, String c rest => string_drop n rest
  | _, _ => s
  end.

(** U+FFFD, the replacement rune, in UTF-8. *)
Definition replacement : string :=
  String "239"%char (String "191"%char (String "189"%char EmptyString)).

(** "String values encode as JSON strings coerced to valid UTF-8,
    replacing invalid bytes with the Unicode replacement rune." *)
Fixpoint coerce_utf8 (fuel : nat) (s : string) : string :=
  match fuel, s with
  | S fuel, String _ rest =>
      match rune_width s with
      | Some w => string_take w s +:+ coerce_utf8 fuel (string_drop w s)
      | None => replacement +:+ coerce_utf8 fuel rest
      end
  | _, _ => EmptyString
  end.

Definition ToValidUTF8 (s : string) : string :=
  coerce_utf8 (String.length s) s.

(** [utf8.ValidString] *)
Fixpoint valid_utf8 (fuel : nat) (s : string) : bool :=
  match s, fuel with
  | EmptyString, _ => true
  | _, O => false
  | _, S fuel =>
      match rune_width s with
      | Some w => valid_utf8 fuel (string_drop w s)
      | None => false
      end
  end.

Definition ValidString (s : string) : bool :=
  valid_utf8 (String.length s) s.

(** A JSON document. [JNumber] is an integer literal; [JOther] stands
    for the values no field of [Meta] accepts (booleans, arrays, numbers
    with a fraction or an exponent). *)
Inductive JSON :=
  | JNull
  | JNumber (z : Z)
  | JString (s : string)
  | JObject (members : list (string * JSON))
  | JOther.

(** "The map keys are sorted": the order of the members of a map. *)
Definition key_le (a b : string * string) : Prop :=
  String.leb a.1 b.1 = true.

Global Instance key_le_dec a b : Decision (key_le a b).
Proof. unfold key_le. apply _. Defined.

Definition marshal_string (s : string) : JSON := JString (ToValidUTF8 s).

Definition marshal_map (vm : gmap string string) : JSON :=
  JObject ((λ kv, (ToValidUTF8 kv.1, marshal_string kv.2))
             <$> merge_sort key_le (map_to_list vm)).

(** [Marshal]: [json.Marshal] of a [*Meta], a member for each field
    under the name of its tag; a nil map encodes as null. *)
Definition Marshal (n : ptr) (σ : Store) : option JSON :=
  m ← deref σ n;
  Some (JObject
          [("id", marshal_string (Id m));
           ("name", marshal_string (Name m));
           ("addr", marshal_string (Addr m));
           ("type", JNumber (Type_ m));
           ("status", JNumber (Status m));
           ("vars", match Vars m ≫= λ r, varmaps σ !! r with
                    | Some vm => marshal_map vm
                    | None => JNull
                    end)]).

(** What [json.Unmarshal] has stored so far in the [Meta] it fills; the
    vars are kept by their contents until the Meta is allocated. *)
Record Decoded := mkDecoded {
  d_Id : string;
  d_Name : string;
  d_Addr : string;
  d_Type : NodeType;
  d_Status : MetaStatus;
  d_Vars : option (gmap string string)
}.

(** [var m Meta] *)
Definition zero_Meta : Decoded :=
  mkDecoded EmptyString EmptyString EmptyString 0 0 None.

(** Member names match the tags without regard to the case of ASCII
    letters. *)
Definition fold_case (c : ascii) : ascii :=
  if between 65 90 c then ascii_of_N (N_of_ascii c + 32) else c.

Fixpoint fold_string (s : string) : string :=
  match s with
  | EmptyString => EmptyString
  | String c rest => String (fold_case c) (fold_string rest)
  end.

(** A JSON value into a string: null leaves the value as it is, any
    value but a string is an error. *)
Definition decode_string (old : string) (v : JSON) : option string :=
  match v with
  | JString s => Some s
  | JNull => Some old
  | _ => None
  end.

(** A JSON value into an [int]: a number out of range is an error. *)
Definition decode_int (old : Z) (v : JSON) : option Z :=
  match v with
  | JNumber z => if bool_decide (min_int ≤ z ≤ max_int) then Some z else None
  | JNull => Some old
  | _ => None
  end.

(** The members of an object into a [map[string]string], a later member
    replacing an earlier one of the same key. *)
Fixpoint decode_members (ms : list (string * JSON))
    (acc : gmap string string) : option (gmap string string) :=
  match ms with
  | [] => Some acc
  | (k, v) :: rest =>
      s ← decode_string EmptyString v; decode_members rest (<[k := s]> acc)
  end.

(** A JSON value into a map: null sets the map to nil, an object fills
    the map (a new one when the map is nil). *)
Definition decode_map (old : option (gmap string string)) (v : JSON)
  : option (option (gmap string string)) :=
  match v with
  | JNull => Some None
  | JObject ms => Some <$> decode_members ms (default ∅ old)
  | _ => None
  end.

(** One member of the object into the field it names; a member that
    names no field is skipped. *)
Definition decode_member (d : Decoded) (kv : string * JSON)
  : option Decoded :=
  let '(k, v) := kv in
  let key := fold_string k in
  if bool_decide (key = "id") then
    s ← decode_string (d_Id d) v;
    Some (mkDecoded s (d_Name d) (d_Addr d) (d_Type d) (d_Status d) (d_Vars d))
  else if bool_decide (key = "name") then
    s ← decode_string (d_Name d) v;
    Some (mkDecoded (d_Id d) s (d_Addr d) (d_Type d) (d_Status d) (d_Vars d))
  else if bool_decide (key = "addr") then
    s ← decode_string (d_Addr d) v;
    Some (mkDecoded (d_Id d) (d_Name d) s (d_Type d) (d_Status d) (d_Vars d))
  else if bool_decide (key = "type") then
    z ← decode_int (d_Type d) v;
    Some (mkDecoded (d_Id d) (d_Name d) (d_Addr d) z (d_Status d) (d_Vars d))
  else if bool_decide (key = "status") then
    z ← decode_int (d_Status d) v;
    Some (mkDecoded (d_Id d) (d_Name d) (d_Addr d) (d_Type d) z (d_Vars d))
  else if bool_decide (key = "vars") then
    vm ← decode_map (d_Vars d) v;
    Some (mkDecoded (d_Id d) (d_Name d) (d_Addr d) (d_Type d) (d_Status d) vm)
  else Some d.

Fixpoint decode_object (ms : list (string * JSON)) (d : Decoded)
  : option Decoded :=
  match ms with
  | [] => Some d
  | kv :: rest => d1 ← decode_member d kv; decode_object rest d1
  end.

(** [json.Unmarshal(b, &m)] on a zero [Meta]; [None] is a non-nil
    error. *)
Definition Unmarshal (doc : JSON) : option Decoded :=
  match doc with
  | JNull => Some zero_Meta
  | JObject ms => decode_object ms zero_Meta
  | _ => None
  end.

(** [&m] for the [Meta] that [json.Unmarshal] filled: the Meta and,
    unless it is nil, its vars map become objects of the store. *)
Definition NewNodeMetaFromJSON_alloc (d : Decoded) (σ : Store)
  : ptr * Store :=
  let '(vars, σ1) :=
    match d_Vars d with
    | Some vm => let '(r, σ1) := alloc_map vm σ in (Some r, σ1)
    | None => (None, σ)
    end in
  alloc_meta (mkMeta (d_Id d) (d_Name d) (d_Addr d) (d_Type d)
                     (d_Status d) vars) σ1.

(** [NewNodeMetaFromJSON]: nil on an error, else the address of the
    Meta that was filled. *)
Definition NewNodeMetaFromJSON (b : JSON) (σ : Store) : option ptr * Store :=
  match Unmarshal b with
  | None => (None, σ)
  | Some d => let '(p, σ1) := NewNodeMetaFromJSON_alloc d σ in (Some p, σ1)
  end.

(** The six fields of the Meta at an address, the vars by their
    contents. *)
Definition meta_fields (σ : Store) (p : ptr) : option Decoded :=
  m ← deref σ p;
  Some (mkDecoded (Id m) (Name m) (Addr m) (Type_ m) (Status m)
                  (Vars m ≫= λ r, varmaps σ !! r)).

(** The Meta is a value of the Go type: its two [int]s are in range and
    its vars are nil or a map. *)
Definition go_value (σ : Store) (m : Meta) : Prop :=
  min_int ≤ Type_ m ≤ max_int
  ∧ min_int ≤ Status m ≤ max_int
  ∧ ∀ r, Vars m = Some r → is_Some (varmaps σ !! r).

(** Every string of the Meta is valid UTF-8. *)
Definition utf8_meta (σ : Store) (m : Meta) : Prop :=
  ValidString (Id m) = true
  ∧ ValidString (Name m) = true
  ∧ ValidString (Addr m) = true
  ∧ ∀ r vm k v, Vars m = Some r → varmaps σ !! r = Some vm →
                vm !! k = Some v →
                ValidString k = true ∧ ValidString v = true.

(** ** External collaborators of peer.go *)

(** [strconv.Atoi]: an optional sign followed by one or more decimal
    digits. A syntax error yields the value [0]; a value out of the range
    of [int] yields the nearest bound (both with a non-nil error, which the
    only caller discards). *)
Definition digit_value (c : ascii) : option Z :=
  let n := Z.of_N (N_of_ascii c) in
  if bool_decide (48 ≤ n ≤ 57) then Some (n - 48) else None.

Fixpoint parse_digits (s : string) (acc : Z) : option Z :=
  match s with
  | EmptyString => Some acc
  | String c rest => d ← digit_value c; parse_digits rest (10 * acc + d)
  end.

Definition parse_unsigned (s : string) : option Z :=
  match s with
  | EmptyString => None
  | _ => parse_digits s 0
  end.

Definition clamp_int (z : Z) : Z := Z.max min_int (Z.min max_int z).

(** The value and whether the error is nil. *)
Definition Atoi (s : string) : Z * bool :=
  let signed :=
    match s with
    | String "-"%char rest => Z.opp <$> parse_unsigned rest
    | String "+"%char rest => parse_unsigned rest
    | _ => parse_unsigned s
    end in
  match signed with
  | Some z => (clamp_int z, bool_decide (min_int ≤ z ≤ max_int))
  | None => (0, false)
  end.

(** The consistent-hash ring of [github.com/serialx/hashring], by its
    interface: the registry never looks inside a ring. *)
Class HashRing (R : Type) := {
  NewWithWeights : gmap string Z → R;
  AddWeightedNode : R → string → Z → R;
  RemoveNode : R → string → R;
  GetNode : R → string → option string
}.

(** A reference ring for concrete runs. It keeps the bookkeeping of the
    library (adding a node that is present, or one of weight below one,
    changes nothing; removal drops the node) and answers every key with
    the first node in the order of the ids, where the library would hash
    the key. *)
Record ListRing := mkListRing { ring_weights : gmap string Z }.

Global Instance ListRing_ops : HashRing ListRing := {|
  NewWithWeights w := mkListRing w;
  AddWeightedNode h node weight :=
    if bool_decide (weight ≤ 0) then h
    else match ring_weights h !! node with
         | Some _ => h
         | None => mkListRing (<[node := weight]> (ring_weights h))
         end;
  RemoveNode h node := mkListRing (delete node (ring_weights h));
  GetNode h _ := head (map_to_list (ring_weights h)).*1
|}.

(** [PeerOptions] *)
Record PeerOptions := mkPeerOptions {
  MaxIdle : Z;
  MaxActive : Z;
  MaxConcurrentStreams : Z;
  Reuse : bool;
  MessageQueueSize : Z
}.

(** A [pool.Pool] as [pool.New(addr, pool.Options{...})] builds it: the
    dial address and the four options taken from the peer. A stored pool
    is never the nil interface. *)
Record Pool := mkPool {
  pool_addr : string;
  pool_MaxIdle : Z;
  pool_MaxActive : Z;
  pool_MaxConcurrentStreams : Z;
  pool_Reuse : bool
}.

(** [metadata.MD] *)
Definition MD := gmap string (list string).

(** A [context.Context]: one handed in by a caller, or one derived by
    [context.WithCancel] or [metadata.NewOutgoingContext]. *)
Inductive Context :=
  | CallerCtx (n : nat)
  | WithCancel (parent : Context)
  | NewOutgoingContext (parent : Context) (md : MD).

(** [type streamContext struct]; [cancel] is the cancel function of
    [ctx]. *)
Record streamContext := mkStreamContext { sc_ctx : Context }.

Definition error := string.

(** [api.Envelope], by value. *)
Inductive Payload :=
  | NoPayload
  | Envelope_NakamaRtapi (raw : string)
  | Envelope_Bytes (content : string)
  | Envelope_Error (code : Z) (message : string) (context : gmap string string).

Record Envelope := mkEnvelope {
  env_Id : Z;
  env_Node : string;
  env_Payload : Payload
}.

(** What the rest of the process can observe of a purge. *)
Inductive Effect :=
  | PoolClosed (id : string) (p : Pool)
  | CtxCancelled (id : string) (c : streamContext).

(** One answer of [Recv] on a client stream. *)
Inductive RecvResult :=
  | RecvOk (out : Envelope)
  | RecvErr (e : error).

(** An [api.ApiServer_StreamClient]: the context it was opened with, the
    envelopes [Send] was called with, what the server is still going to
    answer, and whether [CloseSend] was called. *)
Record ClientStream := mkClientStream {
  cs_ctx : Context;
  cs_sent : list Envelope;
  cs_incoming : list RecvResult;
  cs_closeSend : bool
}.

(** A [chan *api.Envelope]: capacity, buffered messages, messages handed
    directly to a waiting receiver, and whether it is closed. *)
Record Chan := mkChan {
  ch_cap : Z;
  ch_buf : list Envelope;
  ch_taken : list Envelope;
  ch_closed : bool
}.

(** The goroutine started by [SendStream], by the variables it captures:
    [clientId], [s] and [ch] ([ctx] is the context of [s]). *)
Record Task := mkTask {
  task_clientId : string;
  task_stream : nat;
  task_chan : nat
}.

(** Streams, channels and goroutines of the process; [warnings] counts
    the calls of [peer.logger.Warn]. *)
Record Net := mkNet {
  streams : list ClientStream;
  chans : list Chan;
  tasks : list Task;
  warnings : nat
}.

Definition empty_net : Net := mkNet [] [] [] 0.

(** ** peer.go *)

(** [type LocalPeer struct]. The three [sync.Map]s are maps from strings;
    a stream is kept by its index in [streams]. The logger and the mutex
    have no counterpart. *)
Record LocalPeer (R : Type) := mkLocalPeer {
  ctx : Context;
  nodes : gmap string ptr;
  nodesByName : gmap string Z;
  rings : gmap string R;
  grpcPool : gmap string Pool;
  grpcStreams : gmap string nat;
  grpcStreamCancelFn : gmap string streamContext;
  options : PeerOptions
}.

Arguments mkLocalPeer {R}.
Arguments ctx {R}.
Arguments nodes {R}.
Arguments nodesByName {R}.
Arguments rings {R}.
Arguments grpcPool {R}.
Arguments grpcStreams {R}.
Arguments grpcStreamCancelFn {R}.
Arguments options {R}.

(** The accumulators of the first loop of [Sync]. *)
Record SyncAcc (R : Type) := mkSyncAcc {
  nodeMap : gmap string bool;
  newNodes : gmap string ptr;
  newRings : gmap string R;
  newNodesByName : gmap string Z
}.

Arguments mkSyncAcc {R}.
Arguments nodeMap {R}.
Arguments newNodes {R}.
Arguments newRings {R}.
Arguments newNodesByName {R}.

(** What the environment answers to one call of [Send] or [SendStream]:
    the error of [pool.New], the error of [p.Get()], the result of
    [client.Call], the result of [client.Stream] (the answers the new
    stream is going to receive, or an error) and the error of
    [stream.Send]. [None] is the nil error. *)
Record RpcEnv := mkRpcEnv {
  rpc_pool_New : option error;
  rpc_pool_Get : option error;
  rpc_Call : Envelope + error;
  rpc_Stream : list RecvResult + error;
  rpc_Send : option error
}.

(** What the scheduler answers at the [select] of the receiving
    goroutine: whether the context is done, whether a receiver is blocked
    on the channel, and which case wins when both are ready. *)
Record SelectEnv := mkSelectEnv {
  sel_ctx_done : bool;
  sel_receiver : bool;
  sel_pick_done : bool
}.

Section Peer.
Context {R : Type} `{HashRing R}.

(** [NewPeer] *)
Definition NewPeer (c : Context) (opts : PeerOptions) : LocalPeer R :=
  {| ctx := WithCancel c; nodes := ∅; nodesByName := ∅; rings := ∅;
     grpcPool := ∅; grpcStreams := ∅; grpcStreamCancelFn := ∅;
     options := opts |}.

(** [Get] *)
Definition Get (id : string) (peer : LocalPeer R) (σ : Store)
  : option ((option ptr * bool) * Store) :=
  match nodes peer !! id with
  | None => Some ((None, false), σ)
  | Some node => '(q, σ1) ← Clone_ptr node σ; Some ((Some q, true), σ1)
  end.

(** [Size] *)
Definition Size (peer : LocalPeer R) : Z := Z.of_nat (size (nodes peer)).

(** [SizeByName]: a missing key reads as [0]. *)
Definition SizeByName (name : string) (peer : LocalPeer R) : Z :=
  default 0 (nodesByName peer !! name).

(** The body of [for _, node := range peer.nodes] in [GetByName], over
    the entries in the order the iteration visits them. *)
Fixpoint GetByName_loop (name : string) (entries : list (string * ptr))
    (acc : list ptr) (σ : Store) : option (list ptr * Store) :=
  match entries with
  | [] => Some (acc, σ)
  | (_, node) :: rest =>
      m ← deref σ node;
      if bool_decide (Name m = name)
      then '(q, σ1) ← Clone_ptr node σ;
           GetByName_loop name rest (acc ++ [q]) σ1
      else GetByName_loop name rest acc σ
  end.

(** [GetByName] *)
Definition GetByName (name : string) (peer : LocalPeer R) (σ : Store)
  : option (list ptr * Store) :=
  if bool_decide (SizeByName name peer < 1) then Some ([], σ)
  else GetByName_loop name (map_to_list (nodes peer)) [] σ.

(** The loop of [All]: [nodes[i] = v.Clone(); i++]. Go panics on an
    index out of range. *)
Fixpoint All_loop (entries : list (string * ptr)) (i : nat)
    (acc : list (option ptr)) (σ : Store)
  : option (list (option ptr) * Store) :=
  match entries with
  | [] => Some (acc, σ)
  | (_, v) :: rest =>
      '(q, σ1) ← Clone_ptr v σ;
      if bool_decide (i < length acc)%nat
      then All_loop rest (S i) (<[i := Some q]> acc) σ1
      else None
  end.

(** [All]: a slice of [Size()] nil pointers, filled in turn. *)
Definition All (peer : LocalPeer R) (σ : Store)
  : option (list (option ptr) * Store) :=
  All_loop (map_to_list (nodes peer)) 0
           (replicate (Z.to_nat (Size peer)) None) σ.

Fixpoint AllToMap_loop (entries : list (string * ptr))
    (acc : gmap string ptr) (σ : Store)
  : option (gmap string ptr * Store) :=
  match entries with
  | [] => Some (acc, σ)
  | (k, v) :: rest =>
      '(q, σ1) ← Clone_ptr v σ; AllToMap_loop rest (<[k := q]> acc) σ1
  end.

(** [AllToMap] *)
Definition AllToMap (peer : LocalPeer R) (σ : Store)
  : option (gmap string ptr * Store) :=
  AllToMap_loop (map_to_list (nodes peer)) ∅ σ.

(** [GetWithHashRing]: the pointer kept in [peer.nodes] is returned as
    it is. *)
Definition GetWithHashRing (name k : string) (peer : LocalPeer R)
  : option ptr * bool :=
  match rings peer !! name with
  | None => (None, false)
  | Some ring =>
      match GetNode ring k with
      | None => (None, false)
      | Some id =>
          match nodes peer !! id with
          | None => (None, false)
          | Some node => (Some node, true)
          end
      end
  end.

(** The weight of a node in [Sync]. *)
Definition node_weight (σ : Store) (m : Meta) : Z :=
  match vars_lookup σ (Vars m) "weight" with
  | Some v => let weight := (Atoi v).1 in
              if bool_decide (weight < 1) then 1 else weight
  | None => 1
  end.

(** One turn of [for _, node := range nodes] in [Sync]. *)
Definition sync_step (σ : Store) (acc : SyncAcc R) (node : ptr)
  : option (SyncAcc R) :=
  m ← deref σ node;
  let weight := node_weight σ m in
  Some {|
    newNodes := <[Id m := node]> (newNodes acc);
    nodeMap := <[Id m := true]> (nodeMap acc);
    newRings :=
      match newRings acc !! Name m with
      | None =>
          <[Name m := NewWithWeights {[Id m := weight]}]> (newRings acc)
      | Some ring =>
          <[Name m := AddWeightedNode ring (Id m) weight]> (newRings acc)
      end;
    newNodesByName :=
      <[Name m := wrap_int (default 0 (newNodesByName acc !! Name m) + 1)]>
        (newNodesByName acc)
  |}.

Fixpoint sync_loop (σ : Store) (l : list ptr) (acc : SyncAcc R)
  : option (SyncAcc R) :=
  match l with
  | [] => Some acc
  | node :: rest => acc1 ← sync_step σ acc node; sync_loop σ rest acc1
  end.

Definition sync_init : SyncAcc R :=
  {| nodeMap := ∅; newNodes := ∅; newRings := ∅; newNodesByName := ∅ |}.

(** The transport maps and the effects of a purge so far. *)
Definition Transport : Type :=
  gmap string Pool * gmap string streamContext * list Effect.

(** The body of [if !nodeMap[k]] in [Sync]. *)
Definition purge (k : string) (t : Transport) : Transport :=
  let '(pools, cancels, eff) := t in
  let '(pools1, eff1) :=
    match pools !! k with
    | Some m => (delete k pools, eff ++ [PoolClosed k m])
    | None => (pools, eff)
    end in
  match cancels !! k with
  | Some m => (pools1, delete k cancels, eff1 ++ [CtxCancelled k m])
  | None => (pools1, cancels, eff1)
  end.

(** [for k := range peer.nodes] in [Sync], over the keys in the order
    the iteration visits them. *)
Fixpoint sync_purge (nm : gmap string bool) (keys : list string)
    (t : Transport) : Transport :=
  match keys with
  | [] => t
  | k :: rest =>
      sync_purge nm rest
        (if negb (default false (nm !! k)) then purge k t else t)
  end.

(** [Sync] *)
Definition Sync (l : list ptr) (peer : LocalPeer R) (σ : Store)
  : option (LocalPeer R * list Effect) :=
  acc ← sync_loop σ l sync_init;
  let '(pools, cancels, eff) :=
    sync_purge (nodeMap acc) (map_to_list (nodes peer)).*1
               (grpcPool peer, grpcStreamCancelFn peer, []) in
  Some ({| ctx := ctx peer;
           nodes := newNodes acc;
           rings := newRings acc;
           nodesByName := newNodesByName acc;
           grpcPool := pools;
           grpcStreams := grpcStreams peer;
           grpcStreamCancelFn := cancels;
           options := options peer |}, eff).

(** [Reset]: both [Range] loops delete and release every entry. *)
Definition Reset (peer : LocalPeer R) : LocalPeer R * list Effect :=
  ({| ctx := ctx peer; nodes := ∅; rings := ∅; nodesByName := ∅;
      grpcPool := ∅; grpcStreams := grpcStreams peer;
      grpcStreamCancelFn := ∅; options := options peer |},
   (uncurry PoolClosed <$> map_to_list (grpcPool peer))
   ++ (uncurry CtxCancelled <$> map_to_list (grpcStreamCancelFn peer))).

(** [Delete] *)
Definition Delete (id : string) (peer : LocalPeer R) (σ : Store)
  : option (LocalPeer R * list Effect) :=
  reg ←
    match nodes peer !! id with
    | Some p =>
        m ← deref σ p;
        let byName1 :=
          <[Name m := wrap_int (default 0 (nodesByName peer !! Name m) - 1)]>
            (nodesByName peer) in
        let rings1 :=
          match rings peer !! Name m with
          | Some ring => <[Name m := RemoveNode ring (Id m)]> (rings peer)
          | None => rings peer
          end in
        let '(byName2, rings2) :=
          if bool_decide (default 0 (byName1 !! Name m) < 1)
          then (delete (Name m) byName1, delete (Name m) rings1)
          else (byName1, rings1) in
        Some (delete (Id m) (nodes peer), byName2, rings2)
    | None => Some (nodes peer, nodesByName peer, rings peer)
    end;
  let '(nodes1, byName, rings1) := reg in
  let '(pools, cancels, eff) :=
    purge id (grpcPool peer, grpcStreamCancelFn peer, []) in
  Some ({| ctx := ctx peer; nodes := nodes1; rings := rings1;
           nodesByName := byName; grpcPool := pools;
           grpcStreams := grpcStreams peer;
           grpcStreamCancelFn := cancels;
           options := options peer |}, eff).

(** [Update] *)
Definition Update (id : string) (status : MetaStatus) (peer : LocalPeer R)
    (σ : Store) : option (LocalPeer R * Store) :=
  match nodes peer !! id with
  | None => Some (peer, σ)
  | Some node =>
      '(newNode, σ1) ← Clone_ptr node σ;
      m ← deref σ1 newNode;
      let σ2 := store_meta newNode
                  {| Id := Id m; Name := Name m; Addr := Addr m;
                     Type_ := Type_ m; Status := status;
                     Vars := Vars m |} σ1 in
      Some ({| ctx := ctx peer;
               nodes := <[id := newNode]> (nodes peer);
               rings := rings peer; nodesByName := nodesByName peer;
               grpcPool := grpcPool peer; grpcStreams := grpcStreams peer;
               grpcStreamCancelFn := grpcStreamCancelFn peer;
               options := options peer |}, σ2)
  end.

(** [makeGrpcPool] *)
Definition makeGrpcPool (env : RpcEnv) (id addr : string) (peer : LocalPeer R)
  : (Pool + error) * LocalPeer R :=
  match grpcPool peer !! id with
  | Some p => (inl p, peer)
  | None =>
      match rpc_pool_New env with
      | Some err => (inr err, peer)
      | None =>
          let pool :=
            {| pool_addr := addr;
               pool_MaxIdle := MaxIdle (options peer);
               pool_MaxActive := MaxActive (options peer);
               pool_MaxConcurrentStreams :=
                 MaxConcurrentStreams (options peer);
               pool_Reuse := Reuse (options peer) |} in
          (inl pool,
           {| ctx := ctx peer; nodes := nodes peer; rings := rings peer;
              nodesByName := nodesByName peer;
              grpcPool := <[id := pool]> (grpcPool peer);
              grpcStreams := grpcStreams peer;
              grpcStreamCancelFn := grpcStreamCancelFn peer;
              options := options peer |})
      end
  end.

(** [Send]. The connection taken from the pool is given back by the
    deferred [conn.Close()], which leaves no trace in the peer. *)
Definition Send (env : RpcEnv) (node : ptr) (inp : Envelope)
    (peer : LocalPeer R) (σ : Store)
  : option ((option Envelope * option error) * LocalPeer R) :=
  m ← deref σ node;
  let '(p, peer1) := makeGrpcPool env (Id m) (Addr m) peer in
  match p with
  | inr err => Some ((None, Some err), peer1)
  | inl _ =>
      match rpc_pool_Get env with
      | Some err => Some ((None, Some err), peer1)
      | None =>
          match rpc_Call env with
          | inl out => Some ((Some out, None), peer1)
          | inr err => Some ((None, Some err), peer1)
          end
      end
  end.

(** [stream.Send(in)] on the stream at index [h]. *)
Definition stream_Send (h : nat) (inp : Envelope) (net : Net) : option Net :=
  s ← streams net !! h;
  Some {| streams :=
            <[h := {| cs_ctx := cs_ctx s; cs_sent := cs_sent s ++ [inp];
                      cs_incoming := cs_incoming s;
                      cs_closeSend := cs_closeSend s |}]> (streams net);
          chans := chans net; tasks := tasks net;
          warnings := warnings net |}.

(** The three results of [SendStream]; [sr_ch = None] is the nil
    channel. *)
Record SendStreamResult := mkSendStreamResult {
  sr_created : bool;
  sr_ch : option nat;
  sr_err : option error
}.

(** [SendStream]. [make(chan *api.Envelope, n)] panics when [n] is
    negative. The goroutine is recorded in [tasks]; it runs by
    [run_task]. *)
Definition SendStream (env : RpcEnv) (c : Context) (clientId : string)
    (node : ptr) (inp : Envelope) (md : MD) (peer : LocalPeer R)
    (σ : Store) (net : Net)
  : option (SendStreamResult * LocalPeer R * Net) :=
  match grpcStreams peer !! clientId with
  | Some stream =>
      net1 ← stream_Send stream inp net;
      Some ({| sr_created := false; sr_ch := None;
               sr_err := rpc_Send env |}, peer, net1)
  | None =>
      m ← deref σ node;
      let '(p, peer1) := makeGrpcPool env (Id m) (Addr m) peer in
      match p with
      | inr err =>
          Some ({| sr_created := false; sr_ch := None;
                   sr_err := Some err |}, peer1, net)
      | inl _ =>
          match rpc_pool_Get env with
          | Some err =>
              Some ({| sr_created := false; sr_ch := None;
                       sr_err := Some err |}, peer1, net)
          | None =>
              let '(c1, cancels) :=
                match grpcStreamCancelFn peer1 !! Id m with
                | Some ctxS => (sc_ctx ctxS, grpcStreamCancelFn peer1)
                | None =>
                    let ctxM := WithCancel c in
                    (ctxM, <[Id m := {| sc_ctx := ctxM |}]>
                             (grpcStreamCancelFn peer1))
                end in
              let peer2 :=
                {| ctx := ctx peer1; nodes := nodes peer1;
                   rings := rings peer1; nodesByName := nodesByName peer1;
                   grpcPool := grpcPool peer1;
                   grpcStreams := grpcStreams peer1;
                   grpcStreamCancelFn := cancels;
                   options := options peer1 |} in
              let c2 := NewOutgoingContext c1 md in
              match rpc_Stream env with
              | inr err =>
                  Some ({| sr_created := false; sr_ch := None;
                           sr_err := Some err |}, peer2, net)
              | inl answers =>
                  if bool_decide (MessageQueueSize (options peer2) < 0)
                  then None
                  else
                    let s := length (streams net) in
                    let ch := length (chans net) in
                    let net1 :=
                      {| streams :=
                           streams net ++
                             [{| cs_ctx := c2; cs_sent := [inp];
                                 cs_incoming := answers;
                                 cs_closeSend := false |}];
                         chans :=
                           chans net ++
                             [{| ch_cap := MessageQueueSize (options peer2);
                                 ch_buf := []; ch_taken := [];
                                 ch_closed := false |}];
                         tasks :=
                           tasks net ++
                             [{| task_clientId := clientId;
                                 task_stream := s; task_chan := ch |}];
                         warnings := warnings net |} in
                    Some ({| sr_created := true; sr_ch := Some ch;
                             sr_err := rpc_Send env |},
                          {| ctx := ctx peer2; nodes := nodes peer2;
                             rings := rings peer2;
                             nodesByName := nodesByName peer2;
                             grpcPool := grpcPool peer2;
                             grpcStreams :=
                               <[clientId := s]> (grpcStreams peer2);
                             grpcStreamCancelFn := grpcStreamCancelFn peer2;
                             options := options peer2 |}, net1)
              end
          end
      end
  end.

(** What the goroutine has done when it reaches the end of its body;
    the deferred function runs next in each case. *)
Inductive TaskExit :=
  | ExitRecvError
  | ExitDelivered
  | ExitCancelled
  | ExitDropped.

(** The [select] of the goroutine: [ch <- out] is ready when a receiver
    waits or the buffer has room, [<-ctx.Done()] when the context is
    done; with both ready either may run; with none ready the [default]
    case runs. *)
Definition task_select (sel : SelectEnv) (out : Envelope) (ch : Chan)
    (s : ClientStream) : TaskExit * Chan * ClientStream :=
  let send_ready :=
    sel_receiver sel || bool_decide (Z.of_nat (length (ch_buf ch)) < ch_cap ch) in
  let send :=
    (ExitDelivered,
     if sel_receiver sel
     then {| ch_cap := ch_cap ch; ch_buf := ch_buf ch;
             ch_taken := ch_taken ch ++ [out]; ch_closed := ch_closed ch |}
     else {| ch_cap := ch_cap ch; ch_buf := ch_buf ch ++ [out];
             ch_taken := ch_taken ch; ch_closed := ch_closed ch |},
     s) in
  let done :=
    (ExitCancelled, ch,
     {| cs_ctx := cs_ctx s; cs_sent := cs_sent s;
        cs_incoming := cs_incoming s; cs_closeSend := true |}) in
  match send_ready, sel_ctx_done sel with
  | true, true => if sel_pick_done sel then done else send
  | true, false => send
  | false, true => done
  | false, false => (ExitDropped, ch, s)
  end.

(** The goroutine of [SendStream], run from [s.Recv()] to the end of the
    deferred function: one [Recv], at most one offer to [ch], then
    [close(ch)] and [peer.grpcStreams.Delete(clientId)]. The result is
    [None] while [Recv] has nothing to return. The goroutine is the one
    at index [i] of [tasks]. *)
Definition run_task (sel : SelectEnv) (i : nat) (peer : LocalPeer R)
    (net : Net) : option (TaskExit * LocalPeer R * Net) :=
  t ← tasks net !! i;
  s ← streams net !! task_stream t;
  ch ← chans net !! task_chan t;
  match cs_incoming s with
  | [] => None
  | r :: rest =>
      let s1 := {| cs_ctx := cs_ctx s; cs_sent := cs_sent s;
                   cs_incoming := rest; cs_closeSend := cs_closeSend s |} in
      let '(exit, ch1, s2, warn) :=
        match r with
        | RecvErr _ => (ExitRecvError, ch, s1, 1%nat)
        | RecvOk out => (task_select sel out ch s1, 0%nat)
        end in
      let ch2 := {| ch_cap := ch_cap ch1; ch_buf := ch_buf ch1;
                    ch_taken := ch_taken ch1; ch_closed := true |} in
      Some (exit,
            {| ctx := ctx peer; nodes := nodes peer; rings := rings peer;
               nodesByName := nodesByName peer; grpcPool := grpcPool peer;
               grpcStreams := delete (task_clientId t) (grpcStreams peer);
               grpcStreamCancelFn := grpcStreamCancelFn peer;
               options := options peer |},
            {| streams := <[task_stream t := s2]> (streams net);
               chans := <[task_chan t := ch2]> (chans net);
               tasks := delete i (tasks net);
               warnings := (warnings net + warn)%nat |})
  end.
End Peer.

(** ** Runs of the peer *)

(** The whole process: the store, the peer, the streams and channels,
    and the effects of the purges so far. *)
Record State (R : Type) := mkState {
  st_store : Store;
  st_peer : LocalPeer R;
  st_net : Net;
  st_effects : list Effect
}.

Arguments mkState {R}.
Arguments st_store {R}.
Arguments st_peer {R}.
Arguments st_net {R}.
Arguments st_effects {R}.

(** The calls that change the state, each with the answers of its
    environment. [OpNewMeta] and [OpNewVars] are the caller building a
    Meta or a vars map; a caller does not write to an object afterwards. *)
Inductive Op :=
  | OpNewMeta (m : Meta)
  | OpNewVars (vm : gmap string string)
  | OpGet (id : string)
  | OpGetByName (name : string)
  | OpAll
  | OpAllToMap
  | OpSync (l : list ptr)
  | OpDelete (id : string)
  | OpUpdate (id : string) (status : MetaStatus)
  | OpReset
  | OpSend (env : RpcEnv) (node : ptr) (inp : Envelope)
  | OpSendStream (env : RpcEnv) (c : Context) (clientId : string)
      (node : ptr) (inp : Envelope) (md : MD)
  | OpTask (sel : SelectEnv) (i : nat).

Section Runs.
Context {R : Type} `{HashRing R}.

Definition init_state (c : Context) (opts : PeerOptions) : State R :=
  mkState empty_store (NewPeer c opts) empty_net [].

(** One call; [None] when it panics or, for a goroutine, cannot run. *)
Definition exec (op : Op) (s : State R) : option (State R) :=
  let σ := st_store s in
  let peer := st_peer s in
  let keep σ1 := Some (mkState σ1 peer (st_net s) (st_effects s)) in
  match op with
  | OpNewMeta m => keep (alloc_meta m σ).2
  | OpNewVars vm => keep (alloc_map vm σ).2
  | OpGet id => r ← Get id peer σ; keep r.2
  | OpGetByName name => r ← GetByName name peer σ; keep r.2
  | OpAll => r ← All peer σ; keep r.2
  | OpAllToMap => r ← AllToMap peer σ; keep r.2
  | OpSync l =>
      r ← Sync l peer σ;
      Some (mkState σ r.1 (st_net s) (st_effects s ++ r.2))
  | OpDelete id =>
      r ← Delete id peer σ;
      Some (mkState σ r.1 (st_net s) (st_effects s ++ r.2))
  | OpUpdate id status =>
      r ← Update id status peer σ;
      Some (mkState r.2 r.1 (st_net s) (st_effects s))
  | OpReset =>
      let r := Reset peer in
      Some (mkState σ r.1 (st_net s) (st_effects s ++ r.2))
  | OpSend env node inp =>
      r ← Send env node inp peer σ;
      Some (mkState σ r.2 (st_net s) (st_effects s))
  | OpSendStream env c clientId node inp md =>
      r ← SendStream env c clientId node inp md peer σ (st_net s);
      Some (mkState σ r.1.2 r.2 (st_effects s))
  | OpTask sel i =>
      r ← run_task sel i peer (st_net s);
      Some (mkState σ r.1.2 r.2 (st_effects s))
  end.

Fixpoint run (ops : list Op) (s : State R) : option (State R) :=
  match ops with
  | [] => Some s
  | op :: rest => s1 ← exec op s; run rest s1
  end.

(** The states a fresh peer reaches by calls that [allowed] lets through. *)
Inductive reachable_by (allowed : Op → State R → Prop) : State R → Prop :=
  | reachable_init c opts : reachable_by allowed (init_state c opts)
  | reachable_step s op s1 :
      reachable_by allowed s → allowed op s → exec op s = Some s1 →
      reachable_by allowed s1.

(** Every call of the run is allowed where it is made, and returns. *)
Fixpoint run_allowed (allowed : Op → State R → Prop) (ops : list Op)
    (s : State R) : Prop :=
  match ops with
  | [] => True
  | op :: rest =>
      allowed op s
      ∧ match exec op s with
        | Some s1 => run_allowed allowed rest s1
        | None => False
        end
  end.

(** The ids of the Metas a list of pointers leads to. *)
Definition ids_of (σ : Store) (l : list ptr) : list string :=
  omap (λ p, Id <$> deref σ p) l.

(** Every pointer of the list leads to a Meta. *)
Definition all_valid (σ : Store) (l : list ptr) : Prop :=
  Forall (λ p, is_Some (deref σ p)) l.

(** The last pointer of the list whose Meta has the id. *)
Fixpoint last_with_id (σ : Store) (id : string) (l : list ptr)
  : option ptr :=
  match l with
  | [] => None
  | p :: rest =>
      match last_with_id σ id rest with
      | Some q => Some q
      | None =>
          if bool_decide (Id <$> deref σ p = Some id) then Some p else None
      end
  end.

(** Any call of the peer, with any argument. *)
Definition any_op (op : Op) (s : State R) : Prop := True.

(** [Send] and [SendStream] only to a Meta whose id is in the primary
    index when the call is made; any other call. *)
Definition send_to_registered (op : Op) (s : State R) : Prop :=
  match op with
  | OpSend _ node _ | OpSendStream _ _ _ node _ _ =>
      ∃ m, deref (st_store s) node = Some m
           ∧ is_Some (nodes (st_peer s) !! Id m)
  | _ => True
  end.

(** [Sync], [Delete], [Update] and [Reset] (and the caller building the
    Metas it passes to [Sync]). A slice holds at most [max_int]
    elements. *)
Definition registry_op (op : Op) (s : State R) : Prop :=
  match op with
  | OpNewMeta _ | OpNewVars _ | OpDelete _ | OpUpdate _ _ | OpReset => True
  | OpSync l => Z.of_nat (length l) ≤ max_int
  | _ => False
  end.

(** The same, with the lists given to [Sync] free of duplicate ids. *)
Definition registry_op_nodup (op : Op) (s : State R) : Prop :=
  registry_op op s ∧
  match op with
  | OpSync l => NoDup (ids_of (st_store s) l)
  | _ => True
  end.

(** The same conditions as computations, for concrete runs. *)
Definition any_opb (op : Op) (s : State R) : bool := true.

Definition send_to_registeredb (op : Op) (s : State R) : bool :=
  match op with
  | OpSend _ node _ | OpSendStream _ _ _ node _ _ =>
      match deref (st_store s) node with
      | Some m =>
          match nodes (st_peer s) !! Id m with
          | Some _ => true
          | None => false
          end
      | None => false
      end
  | _ => true
  end.

Definition registry_opb (op : Op) (s : State R) : bool :=
  match op with
  | OpNewMeta _ | OpNewVars _ | OpDelete _ | OpUpdate _ _ | OpReset => true
  | OpSync l => bool_decide (Z.of_nat (length l) ≤ max_int)
  | _ => false
  end.

Definition registry_op_nodupb (op : Op) (s : State R) : bool :=
  registry_opb op s
  && match op with
     | OpSync l => bool_decide (NoDup (ids_of (st_store s) l))
     | _ => true
     end.

Fixpoint run_allowedb (allowedb : Op → State R → bool) (ops : list Op)
    (s : State R) : bool :=
  match ops with
  | [] => true
  | op :: rest =>
      allowedb op s
      && match exec op s with
         | Some s1 => run_allowedb allowedb rest s1
         | None => false
         end
  end.

(** Every key of the map is the id of the Meta it leads to. *)
Definition keys_ok (σ : Store) (ns : gmap string ptr) : Prop :=
  ∀ k p, ns !! k = Some p → ∃ m, deref σ p = Some m ∧ Id m = k.

(** The primary index is keyed by the ids of its Metas. *)
Definition coherent (σ : Store) (peer : LocalPeer R) : Prop :=
  keys_ok σ (nodes peer).

(** Every id with a channel pool or a stream context is in the primary
    index. *)
Definition transport_registered (peer : LocalPeer R) : Prop :=
  ∀ k, is_Some (grpcPool peer !! k)
       ∨ is_Some (grpcStreamCancelFn peer !! k) →
       is_Some (nodes peer !! k).

(** The second store holds every object of the first, unchanged. *)
Definition store_ext (σ σ1 : Store) : Prop :=
  ∀ p m, deref σ p = Some m → deref σ1 p = Some m.

(** The sum of the counts of the name index. *)
Definition sum_counts (byName : gmap string Z) : Z :=
  map_fold (λ _ c acc, c + acc) 0 byName.

(** The service name of every node of the primary index. *)
Definition node_names (σ : Store) (ns : gmap string ptr)
  : gmap string string :=
  omap (λ p, Name <$> deref σ p) ns.

(** How many nodes carry the name. *)
Definition count_name (names : gmap string string) (n : string) : nat :=
  size (filter (λ kv, kv.2 = n) names).

(** The name index counts the nodes of each name, and has no entry for
    a name that no node carries. *)
Definition counts_ok (names : gmap string string) (byName : gmap string Z)
  : Prop :=
  ∀ n, byName !! n
       = (if decide (count_name names n = 0%nat) then None
          else Some (Z.of_nat (count_name names n))).

(** The invariant of the registry. *)
Definition registry_ok (σ : Store) (peer : LocalPeer R) : Prop :=
  coherent σ peer
  ∧ counts_ok (node_names σ (nodes peer)) (nodesByName peer)
  ∧ dom (rings peer) = dom (nodesByName peer)
  ∧ Z.of_nat (size (nodes peer)) ≤ max_int.

(** What a reader of the registry sees of the node [id]: the fields of
    the stored Meta and the contents of its vars map. *)
Definition view (σ : Store) (p : ptr)
  : option (Meta * option (gmap string string)) :=
  m ← deref σ p; Some (m, r ← Vars m; varmaps σ !! r).

Definition stored_view (σ : Store) (peer : LocalPeer R) (id : string)
  : option (Meta * option (gmap string string)) :=
  p ← nodes peer !! id; view σ p.

(** [p.Status = status], a caller writing through a pointer it holds. *)
Definition set_Status (p : ptr) (status : MetaStatus) (σ : Store)
  : option Store :=
  m ← deref σ p;
  Some (store_meta p {| Id := Id m; Name := Name m; Addr := Addr m;
                        Type_ := Type_ m; Status := status;
                        Vars := Vars m |} σ).

(** [p.Vars[k] = v] *)
Definition set_Var (p : ptr) (k v : string) (σ : Store) : option Store :=
  m ← deref σ p; vars_store (Vars m) k v σ.

(** The service names of the Metas a list of pointers leads to. *)
Definition names_of (σ : Store) (l : list ptr) : list string :=
  omap (λ p, Name <$> deref σ p) l.

(** How often the name occurs in the list. *)
Definition occurrences (name : string) (l : list string) : nat :=
  length (filter (λ n, n = name) l).

(** Any call, the lists given to [Sync] being free of duplicate ids (and
    no longer than a slice can be). *)
Definition nodup_syncs (op : Op) (s : State R) : Prop :=
  match op with
  | OpSync l =>
      Z.of_nat (length l) ≤ max_int ∧ NoDup (ids_of (st_store s) l)
  | _ => True
  end.

Definition nodup_syncsb (op : Op) (s : State R) : bool :=
  match op with
  | OpSync l =>
      bool_decide (Z.of_nat (length l) ≤ max_int)
      && bool_decide (NoDup (ids_of (st_store s) l))
  | _ => true
  end.

(** The buffer of the channel is within its capacity. *)
Definition chan_ok (ch : Chan) : Prop :=
  0 ≤ ch_cap ch ∧ Z.of_nat (length (ch_buf ch)) ≤ ch_cap ch.

(** The goroutine holds a stream and an open channel. *)
Definition task_ok (net : Net) (t : Task) : Prop :=
  ∃ s ch, streams net !! task_stream t = Some s
          ∧ chans net !! task_chan t = Some ch
          ∧ ch_closed ch = false.

(** The channels and the goroutines of the process. *)
Definition net_ok (net : Net) : Prop :=
  Forall chan_ok (chans net)
  ∧ Forall (task_ok net) (tasks net)
  ∧ NoDup (task_chan <$> tasks net).
End Runs.

(** ** Further conditions on the states of a run *)

(** [q] is a copy of [p] made between the two stores: a new object that
    holds what [p] held. *)
Definition copy_of (σ σ1 : Store) (p q : ptr) : Prop :=
  deref σ q = None ∧ deref σ1 q = deref σ p.

Section Conditions.
Context {R : Type} `{HashRing R}.

(** Every registered client stream is a stream of the process. *)
Definition client_streams_ok (peer : LocalPeer R) (net : Net) : Prop :=
  ∀ clientId h, grpcStreams peer !! clientId = Some h →
                is_Some (streams net !! h).

(** What the call has added to the effects of the run. *)
Definition new_effects (s s1 : State R) : list Effect :=
  drop (length (st_effects s)) (st_effects s1).
End Conditions.


(** ** A small cluster, for concrete runs *)

Module Scenario.

Definition opts : PeerOptions := mkPeerOptions 2 4 8 true 16.

Definition ping : Envelope := mkEnvelope 1 "n0" (Envelope_Bytes "ping").
Definition pong1 : Envelope := mkEnvelope 2 "a" (Envelope_Bytes "one").
Definition pong2 : Envelope := mkEnvelope 3 "a" (Envelope_Bytes "two").

(** Every call succeeds; a new stream is going to receive two answers. *)
Definition net_up : RpcEnv :=
  mkRpcEnv None None (inl pong1) (inl [RecvOk pong1; RecvOk pong2]) None.

(** The peer cannot be dialled. *)
Definition net_down : RpcEnv :=
  mkRpcEnv (Some "dial error") None (inr "unavailable")
           (inr "unavailable") None.

(** Nobody waits on the channel and the context is live. *)
Definition idle : SelectEnv := mkSelectEnv false false false.

Definition meta_a : Meta :=
  mkMeta "a" "svc" "10.0.0.1:7350" NODE_TYPE_NAKAMA META_STATUS_READYED
         (Some 0%nat).
Definition meta_b : Meta :=
  mkMeta "b" "svc" "10.0.0.2:7350" NODE_TYPE_NAKAMA META_STATUS_READYED
         None.
Definition meta_x : Meta :=
  mkMeta "x" "other" "10.0.0.9:7350" NODE_TYPE_MICROSERVICES
         META_STATUS_WAIT_READY None.

Definition start : State ListRing := init_state (CallerCtx 0) opts.

(** The state after the calls, or the start when one of them panics. *)
Definition after (ops : list Op) : State ListRing :=
  default start (run ops start).

(** The caller builds the vars of [a], then [a], [b] and [x]: the Metas
    at the addresses 0, 1 and 2. *)
Definition build : list Op :=
  [OpNewVars {[ "weight" := "2" ]}; OpNewMeta meta_a; OpNewMeta meta_b;
   OpNewMeta meta_x].

(** [a] and [b] are registered. *)
Definition registered : list Op := build ++ [OpSync [0; 1]%nat].

Definition peer_r : LocalPeer ListRing := st_peer (after registered).
Definition store_r : Store := st_store (after registered).

(** What the registry shows of [a]. *)
Definition seen (σ : Store)
  : option (Meta * option (gmap string string)) :=
  stored_view σ peer_r "a".

(** A caller holding the pointer [q] in the store [σ]: the Meta it
    reads, what the registry shows of [a] once the caller has written
    the status [META_STATUS_STOPED] through [q], and what it shows once
    the caller has written the entry weight = 9 of the vars instead. *)
Definition probe (q : ptr) (σ : Store)
  : option Meta * option (Meta * option (gmap string string))
    * option (Meta * option (gmap string string)) :=
  (deref σ q,
   set_Status q META_STATUS_STOPED σ ≫= seen,
   set_Var q "weight" "9" σ ≫= seen).

(** [a] and [b] are registered and a stream is open to [a]. *)
Definition streaming : list Op :=
  registered ++ [OpSendStream net_up (CallerCtx 1) "c1" 0%nat ping ∅].

Definition peer_s : LocalPeer ListRing := st_peer (after streaming).
Definition store_s : Store := st_store (after streaming).
Definition net_s : Net := st_net (after streaming).

(** [Send] to [x], which is not registered. *)
Definition stray_send : list Op := build ++ [OpSend net_up 2%nat ping].

(** A Meta whose id is the single byte 255, which is not UTF-8. *)
Definition meta_raw : Meta :=
  mkMeta (String "255"%char EmptyString) "svc" "10.0.0.3:7350"
         NODE_TYPE_NAKAMA META_STATUS_READYED None.

(** [Sync] of a list that names [a] twice. *)
Definition twice : list Op := build ++ [OpSync [0; 0]%nat].

End Scenario.

(* ================================================================== *)
(** * Properties *)
(* ================================================================== *)

(** ** Store *)

Lemma deref_alloc_meta m σ :
  deref (alloc_meta m σ).2 (alloc_meta m σ).1 = Some m.
Proof.
  unfold deref, alloc_meta; simpl.
  rewrite lookup_app_r; [|lia]. by rewrite Nat.sub_diag.
Qed.

Lemma deref_alloc_meta_old m σ p n :
  deref σ p = Some n → deref (alloc_meta m σ).2 p = Some n.
Proof.
  unfold deref, alloc_meta; simpl. intros Hp.
  rewrite lookup_app_l; [done|]. by eapply lookup_lt_Some.
Qed.

Lemma alloc_meta_fresh m σ : deref σ (alloc_meta m σ).1 = None.
Proof. unfold deref, alloc_meta; simpl. by apply lookup_ge_None. Qed.

Lemma varmaps_alloc_meta m σ : varmaps (alloc_meta m σ).2 = varmaps σ.
Proof. done. Qed.

(** ** Node metadata *)

(** C10. A Meta built by [NewNodeMeta] carries the arguments in its
    fields and the status [META_STATUS_WAIT_READY], which is [0], whatever
    the arguments are; [NewNodeMetaFromConfig] returns exactly when an
    address is found and [vars] is a map, and then its Meta has that
    status too. *)
Theorem NewNodeMeta_status_wait_ready
    (id name addr : string) (t : NodeType) (vars : option mapref)
    (σ : Store) (env : NetEnv) (c : Config) :
  META_STATUS_WAIT_READY = 0
  ∧ deref (NewNodeMeta id name addr t vars σ).2
          (NewNodeMeta id name addr t vars σ).1
    = Some (mkMeta id name addr t META_STATUS_WAIT_READY vars)
  ∧ (is_Some (NewNodeMetaFromConfig env id name t vars c σ)
     ↔ is_Some (config_addr env c)
       ∧ ∃ r, vars = Some r ∧ is_Some (varmaps σ !! r))
  ∧ match NewNodeMetaFromConfig env id name t vars c σ with
    | Some (p, σ1) =>
        ∃ m, deref σ1 p = Some m ∧ Status m = META_STATUS_WAIT_READY
             ∧ Id m = id ∧ Name m = name ∧ Type_ m = t ∧ Vars m = vars
    | None => True
    end.
Proof.
  split; [done|]. split; [apply deref_alloc_meta|]. split.
  - unfold NewNodeMetaFromConfig, vars_store.
    destruct (config_addr env c) as [a|]; simpl.
    + destruct vars as [r|]; simpl.
      * destruct (varmaps σ !! r) as [vm|] eqn:Hr; simpl.
        -- split; [|by eauto]. intros _. split; [by eauto|].
           exists r. split; [done|]. by rewrite Hr.
        -- split; [by intros [? ?]|]. intros [_ (r' & [= <-] & Hs)].
           rewrite Hr in Hs. by destruct Hs.
      * split; [by intros [? ?]|]. by intros [_ (r' & ? & _)].
    + split; [by intros [? ?]|]. by intros [[? ?] _].
  - unfold NewNodeMetaFromConfig.
    destruct (config_addr env c) as [a|]; simpl; [|done].
    destruct (vars_store vars "domain" (cfg_Domain c) σ) as [σ1|];
      simpl; [|done].
    eexists. split; [apply deref_alloc_meta|]. done.
Qed.

(** C6, on the code. The address test of [NewNodeMetaFromConfig] takes
    the private IP only when the resolution of [c.Addr] fails and
    [c.Addr] is "0.0.0.0". With the empty address the outcome of the
    resolution is used, whatever it is, and the private IP is not looked
    at; with "0.0.0.0" resolved, "0.0.0.0" itself is used. *)
Theorem NewNodeMetaFromConfig_addr_selection
    (env : NetEnv) (c : Config) (port : Z) (domain : string) :
  config_addr env c
  = (if bool_decide (ResolveIPAddr env (cfg_Addr c) = None
                     ∧ cfg_Addr c = "0.0.0.0")
     then GetPrivateIP env
     else Some (IPAddr_String (ResolveIPAddr env (cfg_Addr c))))
  ∧ config_addr env (mkConfig EmptyString port domain)
    = Some (IPAddr_String (ResolveIPAddr env EmptyString))
  ∧ config_addr (mkNetEnv (λ a, Some a) (Some "10.0.0.5"))
                (mkConfig "0.0.0.0" port domain)
    = Some "0.0.0.0"
  ∧ (let env0 := mkNetEnv (λ a, Some a) (Some "10.0.0.5") in
     let '(r, σ0) := alloc_map ∅ empty_store in
     (λ x, Addr <$> deref x.2 x.1) <$>
       NewNodeMetaFromConfig env0 "n1" "nakama" NODE_TYPE_NAKAMA (Some r)
         (mkConfig EmptyString 7350 "d") σ0)
    = Some (Some ":7350").
Proof.
  split; [|split; [|split]].
  - unfold config_addr.
    destruct (ResolveIPAddr env (cfg_Addr c)) as [ip|] eqn:Hip; simpl;
      destruct (decide (cfg_Addr c = EmptyString)) as [He|He];
      destruct (decide (cfg_Addr c = "0.0.0.0")) as [Hz|Hz];
      try congruence;
      repeat (first [ rewrite (bool_decide_eq_true_2 _ He)
                    | rewrite (bool_decide_eq_false_2 _ He)
                    | rewrite (bool_decide_eq_true_2 _ Hz)
                    | rewrite (bool_decide_eq_false_2 _ Hz) ]);
      simpl; try done;
      first [ rewrite bool_decide_eq_true_2; [done|by split]
            | rewrite bool_decide_eq_false_2; [done|by intros [? ?]] ].
  - unfold config_addr; simpl.
    by destruct (ResolveIPAddr env EmptyString).
  - done.
  - vm_compute. reflexivity.
Qed.

(** ** Sync *)

Section SyncFacts.
Context {R : Type} `{HashRing R}.

Lemma sync_step_valid σ (acc : SyncAcc R) p :
  is_Some (deref σ p) → is_Some (sync_step σ acc p).
Proof. intros [m Hm]. unfold sync_step. rewrite Hm. simpl. by eexists. Qed.

Lemma sync_loop_valid σ l (acc : SyncAcc R) :
  all_valid σ l → is_Some (sync_loop σ l acc).
Proof.
  intros Hl. revert acc.
  induction Hl as [|p l Hp _ IH]; intros acc; simpl; [by eexists|].
  destruct (sync_step_valid σ acc p Hp) as [acc1 ->]. simpl. apply IH.
Qed.

Lemma sync_step_inv σ (acc acc1 : SyncAcc R) p :
  sync_step σ acc p = Some acc1 →
  ∃ m, deref σ p = Some m
       ∧ newNodes acc1 = <[Id m := p]> (newNodes acc)
       ∧ nodeMap acc1 = <[Id m := true]> (nodeMap acc)
       ∧ newNodesByName acc1
         = <[Name m := wrap_int (default 0 (newNodesByName acc !! Name m) + 1)]>
             (newNodesByName acc)
       ∧ dom (newRings acc1) = {[Name m]} ∪ dom (newRings acc).
Proof.
  unfold sync_step. destruct (deref σ p) as [m|]; simpl; [|done].
  intros [= <-]. exists m. simpl. repeat split; try done.
  destruct (newRings acc !! Name m); by rewrite dom_insert_L.
Qed.

Lemma last_with_id_Some σ id l q :
  last_with_id σ id l = Some q → q ∈ l ∧ Id <$> deref σ q = Some id.
Proof.
  induction l as [|p l IH]; simpl; [done|].
  destruct (last_with_id σ id l) as [q'|].
  - intros [= <-]. destruct IH as [? ?]; [done|]. split; [by right|done].
  - case_bool_decide; [|done]. intros [= <-]. split; [by left|done].
Qed.

Lemma last_with_id_is_Some σ id l :
  is_Some (last_with_id σ id l) ↔ id ∈ ids_of σ l.
Proof.
  unfold ids_of. induction l as [|p l IH]; simpl.
  - split; [by intros [? ?]|]. by intros ?%elem_of_nil.
  - destruct (last_with_id σ id l) as [q|] eqn:Hl.
    + split; [|by eauto]. intros _.
      assert (id ∈ omap (λ p, Id <$> deref σ p) l) by (apply IH; eauto).
      destruct (Id <$> deref σ p); [by right|done].
    + destruct (deref σ p) as [m|]; simpl.
      * case_bool_decide as Hid.
        -- injection Hid as ->. split; [|by eauto]. intros _. by left.
        -- split; [by intros [? ?]|].
           intros [->|Hin]%elem_of_cons; [done|].
           apply IH in Hin. by destruct Hin.
      * exact IH.
Qed.

Lemma sync_loop_newNodes σ l (acc acc1 : SyncAcc R) id :
  sync_loop σ l acc = Some acc1 →
  newNodes acc1 !! id
  = match last_with_id σ id l with
    | Some q => Some q
    | None => newNodes acc !! id
    end.
Proof.
  revert acc. induction l as [|p l IH]; intros acc; simpl.
  - by intros [= <-].
  - destruct (sync_step σ acc p) as [acc0|] eqn:Hstep; simpl; [|done].
    intros Hloop. rewrite (IH _ Hloop).
    destruct (last_with_id σ id l); [done|].
    apply sync_step_inv in Hstep as (m & Hm & -> & _).
    rewrite Hm. simpl. case_bool_decide as Hid.
    + injection Hid as ->. by rewrite lookup_insert_eq.
    + rewrite lookup_insert_ne; [done|congruence].
Qed.

Lemma sync_loop_nodeMap σ l (acc acc1 : SyncAcc R) :
  sync_loop σ l acc = Some acc1 →
  nodeMap acc = (λ _, true) <$> newNodes acc →
  nodeMap acc1 = (λ _, true) <$> newNodes acc1.
Proof.
  revert acc. induction l as [|p l IH]; intros acc; simpl.
  - by intros [= <-].
  - destruct (sync_step σ acc p) as [acc0|] eqn:Hstep; simpl; [|done].
    intros Hloop Hacc. apply (IH _ Hloop).
    apply sync_step_inv in Hstep as (m & _ & -> & -> & _).
    by rewrite fmap_insert, Hacc.
Qed.

Lemma sync_init_nodeMap :
  nodeMap (sync_init (R := R))
  = (λ _, true) <$> newNodes (sync_init (R := R)).
Proof. simpl. by rewrite fmap_empty. Qed.

(** Where [!nodeMap[k]] is false, the key is in the new primary index. *)
Lemma nodeMap_true (acc : SyncAcc R) k :
  nodeMap acc = (λ _, true) <$> newNodes acc →
  default false (nodeMap acc !! k) = bool_decide (is_Some (newNodes acc !! k)).
Proof.
  intros ->. rewrite lookup_fmap.
  by destruct (newNodes acc !! k).
Qed.

Lemma Sync_inv l (peer peer1 : LocalPeer R) σ eff :
  Sync l peer σ = Some (peer1, eff) →
  ∃ acc,
    sync_loop σ l sync_init = Some acc
    ∧ nodes peer1 = newNodes acc
    ∧ nodesByName peer1 = newNodesByName acc
    ∧ rings peer1 = newRings acc
    ∧ grpcStreams peer1 = grpcStreams peer
    ∧ options peer1 = options peer
    ∧ ctx peer1 = ctx peer
    ∧ (grpcPool peer1, grpcStreamCancelFn peer1, eff)
      = sync_purge (nodeMap acc) (map_to_list (nodes peer)).*1
          (grpcPool peer, grpcStreamCancelFn peer, []).
Proof.
  unfold Sync. destruct (sync_loop σ l sync_init) as [acc|]; simpl; [|done].
  destruct (sync_purge _ _ _) as [[pools cancels] eff0] eqn:Hp.
  intros [= <- <-]. exists acc. by rewrite Hp.
Qed.

Lemma Sync_valid l (peer : LocalPeer R) σ :
  all_valid σ l → is_Some (Sync l peer σ).
Proof.
  intros Hl. unfold Sync.
  destruct (sync_loop_valid σ l sync_init Hl) as [acc ->]. simpl.
  destruct (sync_purge _ _ _) as [[pools cancels] eff0]. by eexists.
Qed.

End SyncFacts.

(** ** Purge *)

Section PurgeFacts.
Context {R : Type} `{HashRing R}.

Lemma purge_pools k (t : Transport) k' :
  (purge k t).1.1 !! k' = if decide (k = k') then None else t.1.1 !! k'.
Proof.
  destruct t as [[pools cancels] eff]. unfold purge.
  destruct (pools !! k) as [m|] eqn:Hk;
    destruct (cancels !! k); simpl;
    rewrite ?lookup_delete; by case_decide; simplify_eq.
Qed.

Lemma purge_cancels k (t : Transport) k' :
  (purge k t).1.2 !! k' = if decide (k = k') then None else t.1.2 !! k'.
Proof.
  destruct t as [[pools cancels] eff]. unfold purge.
  destruct (pools !! k) as [m|];
    destruct (cancels !! k) eqn:Hk; simpl;
    rewrite ?lookup_delete; by case_decide; simplify_eq.
Qed.

Lemma purge_absent k (t : Transport) :
  t.1.1 !! k = None → t.1.2 !! k = None → purge k t = t.
Proof.
  destruct t as [[pools cancels] eff]. simpl. intros Hp Hc.
  unfold purge. by rewrite Hp, Hc.
Qed.

Lemma purge_idempotent k (t : Transport) : purge k (purge k t) = purge k t.
Proof.
  apply purge_absent.
  - rewrite purge_pools. by rewrite decide_True.
  - rewrite purge_cancels. by rewrite decide_True.
Qed.

Lemma sync_purge_pools nm keys (t : Transport) k :
  (sync_purge nm keys t).1.1 !! k
  = if bool_decide (k ∈ keys) && negb (default false (nm !! k))
    then None else t.1.1 !! k.
Proof.
  revert t. induction keys as [|k0 keys IH]; intros t; simpl.
  - done.
  - rewrite IH. destruct (decide (k = k0)) as [->|Hne].
    + rewrite (bool_decide_eq_true_2 (k0 ∈ k0 :: keys)); [|by left].
      destruct (default false (nm !! k0)); simpl.
      * by rewrite andb_false_r.
      * rewrite purge_pools, decide_True; [|done].
        by destruct (bool_decide (k0 ∈ keys)).
    + assert (bool_decide (k ∈ k0 :: keys) = bool_decide (k ∈ keys)) as ->.
      { apply bool_decide_ext. rewrite elem_of_cons.
        split; [by intros [?|?]|by right]. }
      destruct (_ && _); [done|].
      destruct (negb _); [|done].
      rewrite purge_pools. by rewrite decide_False.
Qed.

Lemma sync_purge_cancels nm keys (t : Transport) k :
  (sync_purge nm keys t).1.2 !! k
  = if bool_decide (k ∈ keys) && negb (default false (nm !! k))
    then None else t.1.2 !! k.
Proof.
  revert t. induction keys as [|k0 keys IH]; intros t; simpl.
  - done.
  - rewrite IH. destruct (decide (k = k0)) as [->|Hne].
    + rewrite (bool_decide_eq_true_2 (k0 ∈ k0 :: keys)); [|by left].
      destruct (default false (nm !! k0)); simpl.
      * by rewrite andb_false_r.
      * rewrite purge_cancels, decide_True; [|done].
        by destruct (bool_decide (k0 ∈ keys)).
    + assert (bool_decide (k ∈ k0 :: keys) = bool_decide (k ∈ keys)) as ->.
      { apply bool_decide_ext. rewrite elem_of_cons.
        split; [by intros [?|?]|by right]. }
      destruct (_ && _); [done|].
      destruct (negb _); [|done].
      rewrite purge_cancels. by rewrite decide_False.
Qed.

Lemma sync_purge_noop nm keys (t : Transport) :
  (∀ k, k ∈ keys → default false (nm !! k) = true) →
  sync_purge nm keys t = t.
Proof.
  revert t. induction keys as [|k0 keys IH]; intros t Hk; simpl; [done|].
  rewrite (Hk k0); [|by left]. simpl. apply IH.
  intros k Hin. apply Hk. by right.
Qed.

Lemma elem_of_keys (ns : gmap string ptr) k :
  k ∈ (map_to_list ns).*1 ↔ is_Some (ns !! k).
Proof.
  rewrite list_elem_of_fmap. split.
  - intros ([k' p] & -> & Hin). apply elem_of_map_to_list in Hin. by eexists.
  - intros [p Hp]. exists (k, p). split; [done|].
    by apply elem_of_map_to_list.
Qed.

(** After [Sync], the transport entries are those of before, less the
    ones whose id was in the primary index and is not in the list. *)
Lemma Sync_transport l (peer peer1 : LocalPeer R) σ eff k :
  Sync l peer σ = Some (peer1, eff) →
  let gone := bool_decide (is_Some (nodes peer !! k))
              && negb (bool_decide (k ∈ ids_of σ l)) in
  grpcPool peer1 !! k = (if gone then None else grpcPool peer !! k)
  ∧ grpcStreamCancelFn peer1 !! k
    = (if gone then None else grpcStreamCancelFn peer !! k).
Proof.
  intros (acc & Hacc & Hn & _ & _ & _ & _ & _ & Hp)%Sync_inv.
  assert (Hnm := sync_loop_nodeMap _ _ _ _ Hacc sync_init_nodeMap).
  assert (bool_decide (k ∈ (map_to_list (nodes peer)).*1)
          = bool_decide (is_Some (nodes peer !! k))) as Hkeys.
  { apply bool_decide_ext, elem_of_keys. }
  assert (default false (nodeMap acc !! k) = bool_decide (k ∈ ids_of σ l))
    as Hmap.
  { rewrite (nodeMap_true _ _ Hnm). apply bool_decide_ext.
    rewrite (sync_loop_newNodes _ _ _ _ k Hacc).
    rewrite <- last_with_id_is_Some.
    destruct (last_with_id σ k l); [done|].
    simpl. by rewrite lookup_empty. }
  simpl. split.
  - change (grpcPool peer1)
      with (grpcPool peer1, grpcStreamCancelFn peer1, eff).1.1.
    by rewrite Hp, sync_purge_pools, Hkeys, Hmap.
  - change (grpcStreamCancelFn peer1)
      with (grpcPool peer1, grpcStreamCancelFn peer1, eff).1.2.
    by rewrite Hp, sync_purge_cancels, Hkeys, Hmap.
Qed.

Lemma Delete_inv id (peer peer1 : LocalPeer R) σ eff :
  Delete id peer σ = Some (peer1, eff) →
  (grpcPool peer1, grpcStreamCancelFn peer1, eff)
  = purge id (grpcPool peer, grpcStreamCancelFn peer, [])
  ∧ grpcStreams peer1 = grpcStreams peer
  ∧ options peer1 = options peer
  ∧ ctx peer1 = ctx peer
  ∧ match nodes peer !! id with
    | None =>
        nodes peer1 = nodes peer ∧ nodesByName peer1 = nodesByName peer
        ∧ rings peer1 = rings peer
    | Some p =>
        ∃ m, deref σ p = Some m
             ∧ nodes peer1 = delete (Id m) (nodes peer)
             ∧ let c := wrap_int (default 0 (nodesByName peer !! Name m) - 1) in
               nodesByName peer1
               = (if bool_decide (c < 1)
                  then delete (Name m) (nodesByName peer)
                  else <[Name m := c]> (nodesByName peer))
               ∧ dom (rings peer1)
                 = (if bool_decide (c < 1)
                    then dom (rings peer) ∖ {[Name m]}
                    else dom (rings peer))
      end.
Proof.
  unfold Delete.
  destruct (purge id _) as [[pools cancels] eff0] eqn:Hp.
  destruct (nodes peer !! id) as [p|] eqn:Hid; simpl.
  - destruct (deref σ p) as [m|] eqn:Hm; simpl; [|done].
    rewrite lookup_insert_eq. simpl.
    case_bool_decide as Hc; simpl; intros [= <- <-]; simpl;
      (split_and!; try done); exists m;
      rewrite ?(bool_decide_eq_true_2 _ Hc), ?(bool_decide_eq_false_2 _ Hc);
      (split_and!; try done).
    + by rewrite delete_insert_eq.
    + rewrite dom_delete_L. destruct (rings peer !! Name m) eqn:Hr.
      * rewrite dom_insert_L. set_solver.
      * done.
    + destruct (rings peer !! Name m) as [ring|] eqn:Hr; [|done].
      rewrite dom_insert_L. apply elem_of_dom_2 in Hr. set_solver.
  - intros [= <- <-]. simpl. done.
Qed.

Lemma Delete_transport id (peer peer1 : LocalPeer R) σ eff k :
  Delete id peer σ = Some (peer1, eff) →
  grpcPool peer1 !! k = (if decide (id = k) then None else grpcPool peer !! k)
  ∧ grpcStreamCancelFn peer1 !! k
    = (if decide (id = k) then None else grpcStreamCancelFn peer !! k).
Proof.
  intros [Hp _]%Delete_inv. split.
  - change (grpcPool peer1)
      with (grpcPool peer1, grpcStreamCancelFn peer1, eff).1.1.
    by rewrite Hp, purge_pools.
  - change (grpcStreamCancelFn peer1)
      with (grpcPool peer1, grpcStreamCancelFn peer1, eff).1.2.
    by rewrite Hp, purge_cancels.
Qed.

Lemma Delete_valid id (peer : LocalPeer R) σ :
  (∀ p, nodes peer !! id = Some p → is_Some (deref σ p)) →
  is_Some (Delete id peer σ).
Proof.
  intros Hv. unfold Delete.
  destruct (purge id _) as [[pools cancels] eff0].
  destruct (nodes peer !! id) as [p|]; simpl.
  - destruct (Hv p eq_refl) as [m ->]. simpl.
    destruct (bool_decide _); by eexists.
  - by eexists.
Qed.
End PurgeFacts.

(** ** Removal of transport entries *)

Section Removal.
Context {R : Type} `{HashRing R}.

Lemma Sync_twice l (peer peer1 : LocalPeer R) σ eff :
  Sync l peer σ = Some (peer1, eff) → Sync l peer1 σ = Some (peer1, []).
Proof.
  intros (acc & Hacc & Hn & Hb & Hr & Hs & Ho & Hc & _)%Sync_inv.
  assert (Hnm := sync_loop_nodeMap _ _ _ _ Hacc sync_init_nodeMap).
  unfold Sync. rewrite Hacc. simpl.
  rewrite sync_purge_noop.
  - destruct peer1; simpl in *. by subst.
  - intros k [p Hk]%elem_of_keys. rewrite (nodeMap_true _ _ Hnm).
    rewrite Hn in Hk. rewrite Hk. done.
Qed.

(** C4, as the code has it. After [Delete id] no channel pool and no
    stream context is left for [id], and a second [Delete id] finds
    nothing to release; after a [Sync] whose list does not hold [id] the
    same is true provided [id] was in the primary index before the call
    (or had no transport entry then), and a second [Sync] of the same
    list changes nothing; the purge of one id is idempotent. *)
Theorem purge_on_removal (id : string) (l : list ptr) (peer : LocalPeer R)
    (σ : Store) :
  (∀ p, nodes peer !! id = Some p → is_Some (deref σ p)) →
  all_valid σ l →
  (∃ peer1 eff1 peer2,
      Delete id peer σ = Some (peer1, eff1)
      ∧ grpcPool peer1 !! id = None
      ∧ grpcStreamCancelFn peer1 !! id = None
      ∧ Delete id peer1 σ = Some (peer2, [])
      ∧ grpcPool peer2 = grpcPool peer1
      ∧ grpcStreamCancelFn peer2 = grpcStreamCancelFn peer1)
  ∧ (∃ peer1 eff1,
      Sync l peer σ = Some (peer1, eff1)
      ∧ Sync l peer1 σ = Some (peer1, [])
      ∧ (id ∉ ids_of σ l →
         is_Some (nodes peer !! id)
         ∨ (grpcPool peer !! id = None
            ∧ grpcStreamCancelFn peer !! id = None) →
         grpcPool peer1 !! id = None
         ∧ grpcStreamCancelFn peer1 !! id = None))
  ∧ (∀ t : Transport, purge id (purge id t) = purge id t).
Proof.
  intros Hv Hl. split_and!.
  - destruct (Delete_valid id peer σ Hv) as [[peer1 eff1] HD].
    destruct (Delete_inv _ _ _ _ _ HD) as (Hp & _ & _ & _ & Hreg).
    destruct (Delete_transport _ _ _ _ _ id HD) as [Hp1 Hc1].
    rewrite decide_True in Hp1 by done. rewrite decide_True in Hc1 by done.
    assert (∀ p, nodes peer1 !! id = Some p → is_Some (deref σ p)) as Hv1.
    { intros p Hp'. destruct (nodes peer !! id) as [p0|] eqn:Hid.
      - destruct Hreg as (m & Hm & Hn & _). rewrite Hn in Hp'.
        apply lookup_delete_Some in Hp' as [_ Hp']. apply Hv.
        congruence.
      - destruct Hreg as (Hn & _). rewrite Hn in Hp'. congruence. }
    destruct (Delete_valid id peer1 σ Hv1) as [[peer2 eff2] HD2].
    destruct (Delete_inv _ _ _ _ _ HD2) as (Hp2 & _).
    rewrite purge_absent in Hp2 by done.
    injection Hp2 as Hpa Hpb ->.
    by exists peer1, eff1, peer2.
  - destruct (Sync_valid l peer σ Hl) as [[peer1 eff1] HS].
    exists peer1, eff1. split; [done|]. split; [by eapply Sync_twice|].
    intros Hid Hin.
    destruct (Sync_transport _ _ _ _ _ id HS) as [Hp Hc].
    rewrite Hp, Hc.
    rewrite (bool_decide_eq_false_2 _ Hid). simpl.
    destruct Hin as [Hin|[-> ->]].
    + by rewrite (bool_decide_eq_true_2 _ Hin).
    + by destruct (bool_decide (is_Some (nodes peer !! id))).
  - intros t. apply purge_idempotent.
Qed.
End Removal.

(** ** The store under the calls of the peer *)

Section StoreFacts.
Context {R : Type} `{HashRing R}.

Lemma store_ext_refl σ : store_ext σ σ.
Proof. by intros p m. Qed.

Lemma store_ext_trans σ1 σ2 σ3 :
  store_ext σ1 σ2 → store_ext σ2 σ3 → store_ext σ1 σ3.
Proof. intros H12 H23 p m Hp. by apply H23, H12. Qed.

Lemma store_ext_alloc_meta m σ : store_ext σ (alloc_meta m σ).2.
Proof. intros p n. apply deref_alloc_meta_old. Qed.

Lemma store_ext_alloc_map vm σ : store_ext σ (alloc_map vm σ).2.
Proof. by intros p n. Qed.

Lemma Clone_ptr_inv p σ q σ1 :
  Clone_ptr p σ = Some (q, σ1) →
  ∃ n, deref σ p = Some n ∧ deref σ q = None ∧ deref σ1 q = Some n
       ∧ store_ext σ σ1 ∧ varmaps σ1 = varmaps σ.
Proof.
  unfold Clone_ptr, Clone. destruct (deref σ p) as [n|]; simpl; [|done].
  intros [= <- <-]. exists n. split_and!; try done.
  - apply (alloc_meta_fresh n).
  - apply (deref_alloc_meta n).
  - apply (store_ext_alloc_meta n).
Qed.

Lemma GetByName_loop_ext name entries acc σ r σ1 :
  GetByName_loop name entries acc σ = Some (r, σ1) → store_ext σ σ1.
Proof.
  revert acc σ. induction entries as [|[k v] entries IH]; intros acc σ; simpl.
  - intros [= _ <-]. apply store_ext_refl.
  - destruct (deref σ v) as [m|]; simpl; [|done].
    case_bool_decide.
    + destruct (Clone_ptr v σ) as [[q σ0]|] eqn:Hc; simpl; [|done].
      intros Hl. apply Clone_ptr_inv in Hc as (_ & _ & _ & _ & Hext & _).
      eapply store_ext_trans; [done|]. by eapply IH.
    + apply IH.
Qed.

Lemma All_loop_ext entries i acc σ r σ1 :
  All_loop entries i acc σ = Some (r, σ1) → store_ext σ σ1.
Proof.
  revert i acc σ.
  induction entries as [|[k v] entries IH]; intros i acc σ; simpl.
  - intros [= _ <-]. apply store_ext_refl.
  - destruct (Clone_ptr v σ) as [[q σ0]|] eqn:Hc; simpl; [|done].
    case_bool_decide; [|done].
    intros Hl. apply Clone_ptr_inv in Hc as (_ & _ & _ & _ & Hext & _).
    eapply store_ext_trans; [done|]. by eapply IH.
Qed.

Lemma AllToMap_loop_ext entries acc σ r σ1 :
  AllToMap_loop entries acc σ = Some (r, σ1) → store_ext σ σ1.
Proof.
  revert acc σ. induction entries as [|[k v] entries IH]; intros acc σ; simpl.
  - intros [= _ <-]. apply store_ext_refl.
  - destruct (Clone_ptr v σ) as [[q σ0]|] eqn:Hc; simpl; [|done].
    intros Hl. apply Clone_ptr_inv in Hc as (_ & _ & _ & _ & Hext & _).
    eapply store_ext_trans; [done|]. by eapply IH.
Qed.

Lemma Get_ext id (peer : LocalPeer R) σ r σ1 :
  Get id peer σ = Some (r, σ1) → store_ext σ σ1.
Proof.
  unfold Get. destruct (nodes peer !! id) as [p|].
  - destruct (Clone_ptr p σ) as [[q σ0]|] eqn:Hc; simpl; [|done].
    intros [= _ <-]. by apply Clone_ptr_inv in Hc as (_ & _ & _ & _ & ? & _).
  - intros [= _ <-]. apply store_ext_refl.
Qed.

Lemma GetByName_ext name (peer : LocalPeer R) σ r σ1 :
  GetByName name peer σ = Some (r, σ1) → store_ext σ σ1.
Proof.
  unfold GetByName. case_bool_decide.
  - intros [= _ <-]. apply store_ext_refl.
  - apply GetByName_loop_ext.
Qed.

Lemma Update_inv id status (peer peer1 : LocalPeer R) σ σ1 :
  Update id status peer σ = Some (peer1, σ1) →
  store_ext σ σ1
  ∧ nodesByName peer1 = nodesByName peer ∧ rings peer1 = rings peer
  ∧ grpcPool peer1 = grpcPool peer ∧ grpcStreams peer1 = grpcStreams peer
  ∧ grpcStreamCancelFn peer1 = grpcStreamCancelFn peer
  ∧ match nodes peer !! id with
    | None => nodes peer1 = nodes peer
    | Some p =>
        ∃ m q, deref σ p = Some m ∧ deref σ q = None
               ∧ nodes peer1 = <[id := q]> (nodes peer)
               ∧ deref σ1 q
                 = Some (mkMeta (Id m) (Name m) (Addr m) (Type_ m) status
                                (Vars m))
    end.
Proof.
  unfold Update. destruct (nodes peer !! id) as [p|].
  - destruct (Clone_ptr p σ) as [[q σ0]|] eqn:Hc; simpl; [|done].
    apply Clone_ptr_inv in Hc as (n & Hp & Hq & Hq0 & Hext & _).
    rewrite Hq0. simpl. intros [= <- <-]. simpl. split_and!; try done.
    + intros p' m' Hp'. unfold deref, store_meta. simpl.
      rewrite list_lookup_insert_ne; [by apply Hext|]. congruence.
    + exists n, q. split_and!; try done.
      unfold deref, store_meta. simpl.
      apply list_lookup_insert_eq. by eapply lookup_lt_Some.
  - intros [= <- <-]. split_and!; try done. apply store_ext_refl.
Qed.
End StoreFacts.

(** ** Transport entries and the primary index *)

Section TransportFacts.
Context {R : Type} `{HashRing R}.

Lemma makeGrpcPool_inv env id addr (peer peer1 : LocalPeer R) r :
  makeGrpcPool env id addr peer = (r, peer1) →
  nodes peer1 = nodes peer
  ∧ nodesByName peer1 = nodesByName peer
  ∧ rings peer1 = rings peer
  ∧ grpcStreams peer1 = grpcStreams peer
  ∧ grpcStreamCancelFn peer1 = grpcStreamCancelFn peer
  ∧ options peer1 = options peer
  ∧ (∀ k, is_Some (grpcPool peer1 !! k) →
          k = id ∨ is_Some (grpcPool peer !! k))
  ∧ match r with
    | inl p => grpcPool peer1 !! id = Some p
    | inr e => rpc_pool_New env = Some e ∧ peer1 = peer
    end.
Proof.
  unfold makeGrpcPool. destruct (grpcPool peer !! id) as [p|] eqn:Hp.
  - intros [= <- <-]. split_and!; try done. by right.
  - destruct (rpc_pool_New env) as [e|]; intros [= <- <-]; simpl.
    + split_and!; try done. by right.
    + split_and!; try done.
      * intros k. destruct (decide (k = id)) as [->|Hne]; [by left|].
        rewrite lookup_insert_ne by done. by right.
      * by rewrite lookup_insert_eq.
Qed.

Lemma Send_inv env node inp (peer peer1 : LocalPeer R) σ r :
  Send env node inp peer σ = Some (r, peer1) →
  ∃ m, deref σ node = Some m
       ∧ nodes peer1 = nodes peer
       ∧ grpcStreamCancelFn peer1 = grpcStreamCancelFn peer
       ∧ (∀ k, is_Some (grpcPool peer1 !! k) →
               k = Id m ∨ is_Some (grpcPool peer !! k)).
Proof.
  unfold Send. destruct (deref σ node) as [m|]; simpl; [|done].
  destruct (makeGrpcPool env (Id m) (Addr m) peer) as [p peer0] eqn:Hmk.
  apply makeGrpcPool_inv in Hmk as (Hn & _ & _ & _ & Hc & _ & Hk & _).
  intros Hr. exists m.
  assert (peer1 = peer0) as ->.
  { destruct p; [destruct (rpc_pool_Get env); [|destruct (rpc_Call env)]|];
      by injection Hr. }
  done.
Qed.

(** Closes a branch of [SendStream] in which the stream contexts are
    those of before or have gained the entry of the node. *)
Local Ltac finish_send_stream Hcancel :=
  intros [= _ <- _]; simpl; (split_and!; [done|done|]);
  let k := fresh "k" in
  let Hs := fresh "Hs" in
  intros k Hs;
  first [ by apply (Hcancel _ k (or_introl eq_refl))
        | by apply (Hcancel _ k (or_intror eq_refl)) ].

Lemma SendStream_inv env c clientId node inp md (peer peer1 : LocalPeer R)
    σ net net1 r :
  SendStream env c clientId node inp md peer σ net = Some (r, peer1, net1) →
  nodes peer1 = nodes peer
  ∧ (∀ k, is_Some (grpcPool peer1 !! k) →
          is_Some (grpcPool peer !! k)
          ∨ ∃ m, deref σ node = Some m ∧ k = Id m)
  ∧ (∀ k, is_Some (grpcStreamCancelFn peer1 !! k) →
          is_Some (grpcStreamCancelFn peer !! k)
          ∨ ∃ m, deref σ node = Some m ∧ k = Id m).
Proof.
  unfold SendStream. destruct (grpcStreams peer !! clientId) as [h|].
  { destruct (stream_Send h inp net); simpl; [|done].
    intros [= _ <- _]. split_and!; [done| |]; by left. }
  destruct (deref σ node) as [m|]; simpl; [|done].
  destruct (makeGrpcPool env (Id m) (Addr m) peer) as [p peer0] eqn:Hmk.
  apply makeGrpcPool_inv in Hmk as (Hn & _ & _ & _ & Hc & _ & Hk & _).
  assert (Hpool : ∀ k, is_Some (grpcPool peer0 !! k) →
            is_Some (grpcPool peer !! k)
            ∨ ∃ m0, Some m = Some m0 ∧ k = Id m0).
  { intros k [->|?]%Hk; [right; by exists m|by left]. }
  assert (Hcancel : ∀ cs k,
            cs = grpcStreamCancelFn peer0
            ∨ cs = <[Id m := {| sc_ctx := WithCancel c |}]>
                     (grpcStreamCancelFn peer0) →
            is_Some (cs !! k) →
            is_Some (grpcStreamCancelFn peer !! k)
            ∨ ∃ m0, Some m = Some m0 ∧ k = Id m0).
  { intros cs k [->| ->] Hs.
    - left. by rewrite <- Hc.
    - destruct (decide (k = Id m)) as [->|Hne]; [right; by exists m|].
      rewrite lookup_insert_ne in Hs by done. left. by rewrite <- Hc. }
  destruct p as [p|e]; [|finish_send_stream Hcancel].
  destruct (rpc_pool_Get env) as [e|]; [finish_send_stream Hcancel|].
  destruct (grpcStreamCancelFn peer0 !! Id m) as [ctxS|] eqn:Hctx;
    destruct (rpc_Stream env) as [answers|e1];
    try (case_bool_decide; [done|]); finish_send_stream Hcancel.
Qed.

Lemma run_task_inv sel i (peer peer1 : LocalPeer R) net net1 exit :
  run_task sel i peer net = Some (exit, peer1, net1) →
  nodes peer1 = nodes peer
  ∧ nodesByName peer1 = nodesByName peer
  ∧ rings peer1 = rings peer
  ∧ grpcPool peer1 = grpcPool peer
  ∧ grpcStreamCancelFn peer1 = grpcStreamCancelFn peer.
Proof.
  unfold run_task.
  destruct (tasks net !! i) as [t|]; simpl; [|done].
  destruct (streams net !! task_stream t) as [s|]; simpl; [|done].
  destruct (chans net !! task_chan t) as [ch|]; simpl; [|done].
  destruct (cs_incoming s) as [|r rest]; [done|].
  destruct r as [out|e]; [destruct (task_select _ _ _ _) as [[? ?] ?]|];
    by intros [= _ <- _].
Qed.

Lemma coherent_ext σ σ1 (peer : LocalPeer R) :
  store_ext σ σ1 → coherent σ peer → coherent σ1 peer.
Proof.
  intros Hext Hco k p Hk. destruct (Hco k p Hk) as (m & Hm & Hid).
  exists m. split; [by apply Hext|done].
Qed.

Lemma coherent_nodes σ (peer peer1 : LocalPeer R) :
  nodes peer1 = nodes peer → coherent σ peer → coherent σ peer1.
Proof. intros Hn Hco k p. rewrite Hn. apply Hco. Qed.

Lemma transport_registered_same (peer peer1 : LocalPeer R) :
  nodes peer1 = nodes peer → grpcPool peer1 = grpcPool peer →
  grpcStreamCancelFn peer1 = grpcStreamCancelFn peer →
  transport_registered peer → transport_registered peer1.
Proof. intros Hn Hp Hc Htr k. rewrite Hn, Hp, Hc. apply Htr. Qed.

Lemma Sync_coherent l (peer peer1 : LocalPeer R) σ eff :
  Sync l peer σ = Some (peer1, eff) → coherent σ peer1.
Proof.
  intros (acc & Hacc & Hn & _)%Sync_inv k p Hk.
  rewrite Hn, (sync_loop_newNodes _ _ _ _ k Hacc) in Hk.
  destruct (last_with_id σ k l) as [q|] eqn:Hlast; [|done].
  injection Hk as ->. apply last_with_id_Some in Hlast as [_ Hid].
  destruct (deref σ p) as [m|]; [|done]. injection Hid as <-. by exists m.
Qed.

Lemma Sync_nodes l (peer peer1 : LocalPeer R) σ eff k :
  Sync l peer σ = Some (peer1, eff) →
  is_Some (nodes peer1 !! k) ↔ k ∈ ids_of σ l.
Proof.
  intros (acc & Hacc & Hn & _)%Sync_inv.
  rewrite Hn, (sync_loop_newNodes _ _ _ _ k Hacc).
  rewrite <- last_with_id_is_Some.
  destruct (last_with_id σ k l); [done|]. simpl. by rewrite lookup_empty.
Qed.

(** One call keeps the two invariants, when [Send] and [SendStream]
    address registered ids. *)
Lemma registered_step op (s s1 : State R) :
  send_to_registered op s → exec op s = Some s1 →
  coherent (st_store s) (st_peer s) ∧ transport_registered (st_peer s) →
  coherent (st_store s1) (st_peer s1) ∧ transport_registered (st_peer s1).
Proof.
  intros Hop Hex [Hco Htr]. destruct s as [σ peer net effs].
  destruct op; simpl in *.
  - injection Hex as <-. simpl. split; [|done].
    eapply coherent_ext; [apply store_ext_alloc_meta|done].
  - injection Hex as <-. simpl. split; [|done].
    eapply coherent_ext; [apply store_ext_alloc_map|done].
  - destruct (Get id peer σ) as [[r σ1]|] eqn:Hg; simpl in Hex; [|done].
    injection Hex as <-. simpl. split; [|done].
    eapply coherent_ext; [by eapply Get_ext|done].
  - destruct (GetByName name peer σ) as [[r σ1]|] eqn:Hg;
      simpl in Hex; [|done].
    injection Hex as <-. simpl. split; [|done].
    eapply coherent_ext; [by eapply GetByName_ext|done].
  - destruct (All peer σ) as [[r σ1]|] eqn:Hg; simpl in Hex; [|done].
    injection Hex as <-. simpl. split; [|done].
    eapply coherent_ext; [by eapply All_loop_ext|done].
  - destruct (AllToMap peer σ) as [[r σ1]|] eqn:Hg; simpl in Hex; [|done].
    injection Hex as <-. simpl. split; [|done].
    eapply coherent_ext; [by eapply AllToMap_loop_ext|done].
  - destruct (Sync l peer σ) as [[peer1 eff]|] eqn:HS; simpl in Hex; [|done].
    injection Hex as <-. simpl. split; [by eapply Sync_coherent|].
    intros k Hk. apply (Sync_nodes _ _ _ _ _ k HS).
    destruct (Sync_transport _ _ _ _ _ k HS) as [Hp Hc].
    rewrite Hp, Hc in Hk. clear Hp Hc.
    destruct (bool_decide (k ∈ ids_of σ l)) eqn:Hin;
      [by apply bool_decide_eq_true in Hin|].
    simpl in Hk. rewrite andb_true_r in Hk.
    assert (is_Some (nodes peer !! k)) as Hreg.
    { apply Htr. case_bool_decide; [|done]. by destruct Hk as [[? ?]|[? ?]]. }
    rewrite (bool_decide_eq_true_2 _ Hreg) in Hk.
    by destruct Hk as [[? ?]|[? ?]].
  - destruct (Delete id peer σ) as [[peer1 eff]|] eqn:HD;
      simpl in Hex; [|done].
    injection Hex as <-. simpl.
    destruct (Delete_inv _ _ _ _ _ HD) as (Hp & _ & _ & _ & Hreg).
    assert (nodes peer1 = delete id (nodes peer)) as Hn.
    { destruct (nodes peer !! id) as [p|] eqn:Hid.
      - destruct Hreg as (m & Hm & Hn & _).
        destruct (Hco _ _ Hid) as (m' & Hm' & Hid').
        rewrite Hm in Hm'. injection Hm' as <-. by rewrite Hn, Hid'.
      - destruct Hreg as [Hn _]. rewrite Hn. symmetry.
        by apply delete_id. }
    split.
    + intros k p. rewrite Hn. intros [_ Hk]%lookup_delete_Some.
      by apply Hco.
    + intros k Hk. rewrite Hn.
      destruct (Delete_transport _ _ _ _ _ k HD) as [Hp1 Hc1].
      rewrite Hp1, Hc1 in Hk.
      destruct (decide (id = k)) as [->|Hne].
      * by destruct Hk as [[? ?]|[? ?]].
      * rewrite lookup_delete_ne by done. by apply Htr.
  - destruct (Update id status peer σ) as [[peer1 σ1]|] eqn:HU;
      simpl in Hex; [|done].
    injection Hex as <-. simpl.
    destruct (Update_inv _ _ _ _ _ _ HU)
      as (Hext & _ & _ & Hp & _ & Hc & Hreg).
    destruct (nodes peer !! id) as [p|] eqn:Hid.
    + destruct Hreg as (m & q & Hm & Hq & Hn & Hq1).
      destruct (Hco _ _ Hid) as (m' & Hm' & Hid').
      rewrite Hm in Hm'. injection Hm' as <-. split.
      * intros k p'. rewrite Hn.
        destruct (decide (k = id)) as [->|Hne].
        -- rewrite lookup_insert_eq. intros [= <-]. by eexists.
        -- rewrite lookup_insert_ne by done. intros Hk.
           destruct (Hco _ _ Hk) as (m1 & Hm1 & Hid1).
           exists m1. split; [by apply Hext|done].
      * intros k. rewrite Hn, Hp, Hc. intros Hk%Htr.
        destruct (decide (k = id)) as [->|Hne].
        -- by rewrite lookup_insert_eq.
        -- by rewrite lookup_insert_ne.
    + split.
      * eapply coherent_ext; [done|]. by eapply coherent_nodes.
      * by eapply transport_registered_same.
  - injection Hex as <-. simpl. split.
    + by intros k p.
    + intros k. simpl. rewrite !lookup_empty.
      by intros [[? ?]|[? ?]].
  - destruct (Send env node inp peer σ) as [[r peer1]|] eqn:HS;
      simpl in Hex; [|done].
    injection Hex as <-. simpl.
    destruct (Send_inv _ _ _ _ _ _ _ HS) as (m & Hm & Hn & Hc & Hk).
    destruct Hop as (m' & Hm' & Hreg).
    rewrite Hm in Hm'. injection Hm' as <-.
    split; [by eapply coherent_nodes|].
    intros k. rewrite Hn, Hc. intros [[->|Hp]%Hk|Hcs]; [done| |].
    * apply Htr. by left.
    * apply Htr. by right.
  - destruct (SendStream env c clientId node inp md peer σ net)
      as [[[r peer1] net1]|] eqn:HS; simpl in Hex; [|done].
    injection Hex as <-. simpl.
    destruct (SendStream_inv _ _ _ _ _ _ _ _ _ _ _ _ HS) as (Hn & Hp & Hc).
    destruct Hop as (m' & Hm' & Hreg).
    split; [by eapply coherent_nodes|].
    intros k. rewrite Hn.
    intros [[Hk|(m & Hm & ->)]%Hp|[Hk|(m & Hm & ->)]%Hc].
    * apply Htr. by left.
    * congruence.
    * apply Htr. by right.
    * congruence.
  - destruct (run_task sel i peer net) as [[[ex peer1] net1]|] eqn:HT;
      simpl in Hex; [|done].
    injection Hex as <-. simpl.
    destruct (run_task_inv _ _ _ _ _ _ _ HT) as (Hn & _ & _ & Hp & Hc).
    split; [by eapply coherent_nodes|by eapply transport_registered_same].
Qed.

(** C3, as the code has it. In every state reached by calls of the peer
    in which [Send] and [SendStream] are given a Meta whose id is in
    the primary index at the time of the call, every id with a channel
    pool or a stream context is in the primary index. *)
Theorem transport_in_registry (s : State R) :
  reachable_by send_to_registered s →
  transport_registered (st_peer s)
  ∧ ∀ k, k ∈ dom (grpcPool (st_peer s))
         ∨ k ∈ dom (grpcStreamCancelFn (st_peer s)) →
         k ∈ dom (nodes (st_peer s)).
Proof.
  intros Hr.
  assert (coherent (st_store s) (st_peer s)
          ∧ transport_registered (st_peer s)) as [_ Htr].
  { induction Hr as [c opts|s op s1 _ IH Hop Hex].
    - split; [by intros k p|].
      intros k. simpl. rewrite !lookup_empty. by intros [[? ?]|[? ?]].
    - by eapply registered_step. }
  split; [done|]. intros k. rewrite !elem_of_dom. apply Htr.
Qed.
End TransportFacts.

(** ** The name index *)

Section Counting.

Lemma sum_counts_empty : sum_counts ∅ = 0.
Proof. apply map_fold_empty. Qed.

Lemma sum_counts_delete (byName : gmap string Z) n c :
  byName !! n = Some c → sum_counts byName = c + sum_counts (delete n byName).
Proof.
  intros Hn. unfold sum_counts.
  apply (map_fold_delete_L (λ _ c acc, c + acc)); [|done].
  intros. lia.
Qed.

Lemma sum_counts_insert (byName : gmap string Z) n c :
  sum_counts (<[n := c]> byName) = c + sum_counts (delete n byName).
Proof.
  rewrite (sum_counts_delete (<[n := c]> byName) n c)
    by apply lookup_insert_eq.
  by rewrite delete_insert_eq.
Qed.

Lemma count_name_empty n : count_name ∅ n = 0%nat.
Proof. unfold count_name. by rewrite map_filter_empty, map_size_empty. Qed.

Lemma count_name_insert names k n0 n :
  names !! k = None →
  count_name (<[k := n0]> names) n
  = (count_name names n + (if decide (n0 = n) then 1 else 0))%nat.
Proof.
  intros Hk. unfold count_name. rewrite map_filter_insert. simpl.
  destruct (decide (n0 = n)) as [->|Hne].
  - rewrite map_size_insert_None; [lia|].
    apply map_lookup_filter_None. by left.
  - rewrite delete_id by done. lia.
Qed.

Lemma count_name_delete names k n0 n :
  names !! k = Some n0 →
  count_name names n
  = (count_name (delete k names) n + (if decide (n0 = n) then 1 else 0))%nat.
Proof.
  intros Hk.
  rewrite <- (insert_delete_id names k n0 Hk) at 1.
  apply count_name_insert, lookup_delete_eq.
Qed.

Lemma count_name_le_size names n : (count_name names n ≤ size names)%nat.
Proof.
  unfold count_name. apply map_subseteq_size, map_filter_subseteq.
Qed.

Lemma counts_ok_empty : counts_ok ∅ ∅.
Proof. intros n. by rewrite count_name_empty, lookup_empty. Qed.

(** The counts after one more node of name [n0] is entered under a new
    key. *)
Lemma counts_ok_insert names byName k n0 :
  names !! k = None → counts_ok names byName →
  counts_ok (<[k := n0]> names)
            (<[n0 := default 0 (byName !! n0) + 1]> byName).
Proof.
  intros Hk Hok n. rewrite (count_name_insert _ _ _ _ Hk).
  destruct (decide (n0 = n)) as [->|Hne].
  - rewrite lookup_insert_eq, decide_False by lia.
    f_equal. rewrite (Hok n). case_decide as Hz; simpl; lia.
  - rewrite lookup_insert_ne by done. rewrite (Hok n).
    by rewrite Nat.add_0_r.
Qed.

(** The counts after a node of name [n0] is taken out. *)
Lemma counts_ok_delete names byName k n0 :
  names !! k = Some n0 → counts_ok names byName →
  let c := default 0 (byName !! n0) - 1 in
  1 ≤ default 0 (byName !! n0)
  ∧ counts_ok (delete k names)
              (if bool_decide (c < 1) then delete n0 byName
               else <[n0 := c]> byName).
Proof.
  intros Hk Hok. simpl.
  assert (Hn0 := Hok n0). rewrite (count_name_delete _ _ _ n0 Hk) in Hn0.
  destruct (decide (n0 = n0)) as [_|]; [|done].
  rewrite decide_False in Hn0 by lia.
  rewrite Hn0. simpl. split; [lia|]. intros n.
  assert (Hn := Hok n). rewrite (count_name_delete _ _ _ n Hk) in Hn.
  destruct (decide (n0 = n)) as [->|Hne].
  - case_bool_decide as Hc.
    + rewrite lookup_delete_eq, decide_True; [done|lia].
    + rewrite lookup_insert_eq, decide_False by lia. f_equal. lia.
  - rewrite Nat.add_0_r in Hn.
    case_bool_decide; [rewrite lookup_delete_ne by done
                      |rewrite lookup_insert_ne by done]; done.
Qed.

(** Invariant 2 of the testable properties follows from the counts
    being right name by name. *)
Lemma sum_counts_size names byName :
  counts_ok names byName → sum_counts byName = Z.of_nat (size names).
Proof.
  revert byName. induction names as [|k n0 names Hk IH] using map_ind;
    intros byName Hok.
  - assert (byName = ∅) as ->; [|by rewrite sum_counts_empty].
    apply map_eq. intros n. by rewrite (Hok n), count_name_empty, lookup_empty.
  - destruct (counts_ok_delete (<[k := n0]> names) byName k n0)
      as [Hpos Hok']; [apply lookup_insert_eq|done|].
    rewrite delete_insert_eq, delete_id in Hok' by done.
    apply IH in Hok'. rewrite map_size_insert_None by done.
    destruct (byName !! n0) as [c|] eqn:Hc; simpl in *; [|lia].
    rewrite (sum_counts_delete _ _ _ Hc).
    case_bool_decide.
    + lia.
    + rewrite sum_counts_insert in Hok'. lia.
Qed.

Lemma counts_ok_pos names byName n c :
  counts_ok names byName → byName !! n = Some c →
  1 ≤ c ≤ Z.of_nat (size names).
Proof.
  intros Hok. rewrite (Hok n). case_decide; [done|].
  intros [= <-]. pose proof (count_name_le_size names n). lia.
Qed.
End Counting.

(** ** The registry invariant *)

Section RegistryFacts.
Context {R : Type} `{HashRing R}.

Lemma wrap_int_id z : min_int ≤ z ≤ max_int → wrap_int z = z.
Proof.
  unfold wrap_int, min_int, max_int. intros Hz.
  rewrite Z.mod_small; lia.
Qed.

Lemma node_names_lookup σ (ns : gmap string ptr) k :
  node_names σ ns !! k = ns !! k ≫= λ p, Name <$> deref σ p.
Proof. apply lookup_omap. Qed.

Lemma node_names_insert σ (ns : gmap string ptr) k p m :
  deref σ p = Some m →
  node_names σ (<[k := p]> ns) = <[k := Name m]> (node_names σ ns).
Proof. intros Hm. apply omap_insert_Some. by rewrite Hm. Qed.

Lemma node_names_delete σ (ns : gmap string ptr) k :
  node_names σ (delete k ns) = delete k (node_names σ ns).
Proof. apply omap_delete. Qed.

Lemma node_names_size σ (ns : gmap string ptr) :
  keys_ok σ ns → size (node_names σ ns) = size ns.
Proof.
  intros Hv. rewrite <- !size_dom. f_equal. apply set_eq. intros k.
  rewrite !elem_of_dom, node_names_lookup.
  destruct (ns !! k) as [p|] eqn:Hk; simpl.
  - destruct (Hv _ _ Hk) as (m & -> & _). simpl. split; by eauto.
  - done.
Qed.

Lemma node_names_ext σ σ1 (ns : gmap string ptr) :
  keys_ok σ ns → store_ext σ σ1 → node_names σ1 ns = node_names σ ns.
Proof.
  intros Hv Hext. apply map_eq. intros k. rewrite !node_names_lookup.
  destruct (ns !! k) as [p|] eqn:Hk; simpl; [|done].
  destruct (Hv _ _ Hk) as (m & Hm & _). by rewrite Hm, (Hext _ _ Hm).
Qed.

(** The first loop of [Sync] on a list without duplicate ids. *)
Lemma sync_loop_registry σ l (acc acc1 : SyncAcc R) :
  sync_loop σ l acc = Some acc1 →
  NoDup (ids_of σ l) →
  (∀ id, id ∈ ids_of σ l → newNodes acc !! id = None) →
  Z.of_nat (size (newNodes acc) + length l) ≤ max_int →
  keys_ok σ (newNodes acc) →
  counts_ok (node_names σ (newNodes acc)) (newNodesByName acc) →
  dom (newRings acc) = dom (newNodesByName acc) →
  keys_ok σ (newNodes acc1)
  ∧ counts_ok (node_names σ (newNodes acc1)) (newNodesByName acc1)
  ∧ dom (newRings acc1) = dom (newNodesByName acc1)
  ∧ size (newNodes acc1) = (size (newNodes acc) + length l)%nat.
Proof.
  revert acc. induction l as [|p l IH]; intros acc; simpl.
  - intros [= <-] _ _ _ Hk Hc Hd. split_and!; try done; lia.
  - destruct (sync_step σ acc p) as [acc0|] eqn:Hstep; simpl; [|done].
    apply sync_step_inv in Hstep as (m & Hm & Hn & _ & Hb & Hr).
    unfold ids_of. simpl. rewrite Hm. simpl. fold (ids_of σ l).
    intros Hloop [Hnin Hnd]%NoDup_cons Hfresh Hsize Hk Hc Hd.
    assert (newNodes acc !! Id m = None) as Hnew by (apply Hfresh; by left).
    assert (size (newNodes acc0) = S (size (newNodes acc))) as Hsz.
    { rewrite Hn. by apply map_size_insert_None. }
    assert (default 0 (newNodesByName acc !! Name m)
            ≤ Z.of_nat (size (newNodes acc))) as Hle.
    { destruct (newNodesByName acc !! Name m) as [c|] eqn:Hcn; simpl; [|lia].
      apply (counts_ok_pos _ _ _ _ Hc) in Hcn.
      rewrite node_names_size in Hcn by done. lia. }
    assert (0 ≤ default 0 (newNodesByName acc !! Name m)) as Hge.
    { destruct (newNodesByName acc !! Name m) as [c|] eqn:Hcn; simpl; [|lia].
      apply (counts_ok_pos _ _ _ _ Hc) in Hcn. lia. }
    rewrite wrap_int_id in Hb
      by (unfold min_int, max_int in *; lia).
    destruct (IH acc0 Hloop Hnd) as (Hk1 & Hc1 & Hd1 & Hs1).
    + intros id Hin. rewrite Hn, lookup_insert_ne; [|congruence].
      apply Hfresh. by right.
    + lia.
    + intros k q. rewrite Hn.
      destruct (decide (k = Id m)) as [->|Hne].
      * rewrite lookup_insert_eq. intros [= <-]. by exists m.
      * rewrite lookup_insert_ne by done. apply Hk.
    + rewrite Hn, Hb, (node_names_insert _ _ _ _ _ Hm).
      apply counts_ok_insert; [|done].
      by rewrite node_names_lookup, Hnew.
    + by rewrite Hr, Hb, dom_insert_L, Hd.
    + split_and!; try done. lia.
Qed.

Lemma Sync_registry_ok l (peer peer1 : LocalPeer R) σ eff :
  Sync l peer σ = Some (peer1, eff) →
  NoDup (ids_of σ l) → Z.of_nat (length l) ≤ max_int →
  registry_ok σ peer1.
Proof.
  intros (acc & Hacc & Hn & Hb & Hr & _)%Sync_inv Hnd Hlen.
  assert (size (newNodes (sync_init (R := R))) = 0%nat) as Hz
    by apply map_size_empty.
  destruct (sync_loop_registry _ _ _ _ Hacc Hnd)
    as (Hk & Hc & Hd & Hs).
  - done.
  - rewrite Hz. lia.
  - by intros k p.
  - unfold node_names. simpl. rewrite omap_empty. apply counts_ok_empty.
  - done.
  - unfold registry_ok, coherent. rewrite Hn, Hb, Hr. split_and!; try done.
    rewrite Hs, Hz. lia.
Qed.

Lemma Delete_registry_ok id (peer peer1 : LocalPeer R) σ eff :
  Delete id peer σ = Some (peer1, eff) →
  registry_ok σ peer → registry_ok σ peer1.
Proof.
  intros (_ & _ & _ & _ & Hreg)%Delete_inv (Hco & Hc & Hd & Hs).
  destruct (nodes peer !! id) as [p|] eqn:Hid.
  - destruct Hreg as (m & Hm & Hn & Hb & Hr).
    destruct (Hco _ _ Hid) as (m' & Hm' & Hid').
    rewrite Hm in Hm'. injection Hm' as <-.
    assert (node_names σ (nodes peer) !! id = Some (Name m)) as Hname.
    { by rewrite node_names_lookup, Hid; simpl; rewrite Hm. }
    destruct (counts_ok_delete _ _ _ _ Hname Hc) as [Hpos Hc1].
    assert (default 0 (nodesByName peer !! Name m)
            ≤ Z.of_nat (size (nodes peer))) as Hle.
    { destruct (nodesByName peer !! Name m) as [c|] eqn:Hcn; simpl; [|lia].
      apply (counts_ok_pos _ _ _ _ Hc) in Hcn.
      rewrite node_names_size in Hcn by done. lia. }
    rewrite wrap_int_id in Hb, Hr
      by (unfold min_int, max_int in *; lia).
    rewrite Hid' in *.
    split_and!.
    + intros k q. rewrite Hn. intros [_ Hk]%lookup_delete_Some.
      by apply Hco.
    + by rewrite Hn, Hb, node_names_delete.
    + rewrite Hr, Hb. case_bool_decide.
      * by rewrite dom_delete_L, Hd.
      * rewrite dom_insert_L, Hd.
        assert (Name m ∈ dom (nodesByName peer)); [|set_solver].
        apply elem_of_dom. destruct (nodesByName peer !! Name m); [done|].
        simpl in Hpos. lia.
    + rewrite Hn. pose proof (map_size_delete id (nodes peer)) as Hsz.
      rewrite Hid in Hsz. lia.
  - destruct Hreg as (Hn & Hb & Hr).
    unfold registry_ok, coherent. by rewrite Hn, Hb, Hr.
Qed.

Lemma Update_registry_ok id status (peer peer1 : LocalPeer R) σ σ1 :
  Update id status peer σ = Some (peer1, σ1) →
  registry_ok σ peer → registry_ok σ1 peer1.
Proof.
  intros (Hext & Hb & Hr & _ & _ & _ & Hreg)%Update_inv (Hco & Hc & Hd & Hs).
  destruct (nodes peer !! id) as [p|] eqn:Hid.
  - destruct Hreg as (m & q & Hm & Hq & Hn & Hq1).
    destruct (Hco _ _ Hid) as (m' & Hm' & Hid').
    rewrite Hm in Hm'. injection Hm' as <-.
    assert (coherent σ1 peer1) as Hco1.
    { intros k p'. rewrite Hn.
      destruct (decide (k = id)) as [->|Hne].
      - rewrite lookup_insert_eq. intros [= <-]. by eexists.
      - rewrite lookup_insert_ne by done. intros Hk.
        destruct (Hco _ _ Hk) as (m1 & Hm1 & Hid1).
        exists m1. split; [by apply Hext|done]. }
    assert (node_names σ1 (nodes peer1) = node_names σ (nodes peer)) as Hnn.
    { apply map_eq. intros k. rewrite !node_names_lookup, Hn.
      destruct (decide (k = id)) as [->|Hne].
      - rewrite lookup_insert_eq, Hid. simpl. by rewrite Hq1, Hm.
      - rewrite lookup_insert_ne by done.
        destruct (nodes peer !! k) as [p'|] eqn:Hk; simpl; [|done].
        destruct (Hco _ _ Hk) as (m1 & Hm1 & _).
        by rewrite Hm1, (Hext _ _ Hm1). }
    split_and!; try done.
    + by rewrite Hnn, Hb.
    + by rewrite Hr, Hb.
    + rewrite Hn, map_size_insert_Some; [done|by eexists].
  - split_and!.
    + eapply coherent_ext; [done|]. by eapply coherent_nodes.
    + rewrite Hreg, Hb. by rewrite (node_names_ext σ σ1).
    + by rewrite Hr, Hb.
    + by rewrite Hreg.
Qed.

Lemma registry_ok_ext σ σ1 (peer : LocalPeer R) :
  store_ext σ σ1 → registry_ok σ peer → registry_ok σ1 peer.
Proof.
  intros Hext (Hco & Hc & Hd & Hs). split_and!; try done.
  - by eapply coherent_ext.
  - by rewrite (node_names_ext σ σ1).
Qed.

Lemma registry_ok_empty σ (peer : LocalPeer R) :
  nodes peer = ∅ → nodesByName peer = ∅ → rings peer = ∅ →
  registry_ok σ peer.
Proof.
  intros Hn Hb Hr. unfold registry_ok, coherent. rewrite Hn, Hb, Hr.
  split_and!.
  - by intros k p.
  - unfold node_names. rewrite omap_empty. apply counts_ok_empty.
  - by rewrite !dom_empty_L.
  - rewrite map_size_empty. unfold max_int. lia.
Qed.

Lemma registry_step op (s s1 : State R) :
  registry_op_nodup op s → exec op s = Some s1 →
  registry_ok (st_store s) (st_peer s) →
  registry_ok (st_store s1) (st_peer s1).
Proof.
  intros [Hop Hnd] Hex Hok. destruct s as [σ peer net effs].
  destruct op; simpl in *; try done.
  - injection Hex as <-. simpl.
    eapply registry_ok_ext; [apply store_ext_alloc_meta|done].
  - injection Hex as <-. simpl.
    eapply registry_ok_ext; [apply store_ext_alloc_map|done].
  - destruct (Sync l peer σ) as [[peer1 eff]|] eqn:HS; simpl in Hex; [|done].
    injection Hex as <-. simpl. by eapply Sync_registry_ok.
  - destruct (Delete id peer σ) as [[peer1 eff]|] eqn:HD;
      simpl in Hex; [|done].
    injection Hex as <-. simpl. by eapply Delete_registry_ok.
  - destruct (Update id status peer σ) as [[peer1 σ1]|] eqn:HU;
      simpl in Hex; [|done].
    injection Hex as <-. simpl. by eapply Update_registry_ok.
  - injection Hex as <-. simpl. by apply registry_ok_empty.
Qed.

Lemma reachable_registry_ok (s : State R) :
  reachable_by registry_op_nodup s →
  registry_ok (st_store s) (st_peer s).
Proof.
  induction 1 as [c opts|s op s1 _ IH Hop Hex].
  - by apply registry_ok_empty.
  - by eapply registry_step.
Qed.

(** C5, as the code has it. In every state reached by [Sync], [Delete],
    [Update] and [Reset], the lists given to [Sync] being free of
    duplicate ids, the counts of the name index add up to the number of
    entries of the primary index, no count is below one, and the names
    with a ring are the names with a count; [Delete] of a node lowers
    the count of its name by one and, when that was the last node of
    the name, leaves neither a count nor a ring for it. *)
Theorem name_index_counts (s : State R) :
  reachable_by registry_op_nodup s →
  sum_counts (nodesByName (st_peer s)) = Size (st_peer s)
  ∧ (∀ n c, nodesByName (st_peer s) !! n = Some c → 1 ≤ c)
  ∧ dom (rings (st_peer s)) = dom (nodesByName (st_peer s))
  ∧ (∀ id p m,
       nodes (st_peer s) !! id = Some p → deref (st_store s) p = Some m →
       ∃ peer1 eff,
         Delete id (st_peer s) (st_store s) = Some (peer1, eff)
         ∧ nodes peer1 !! id = None
         ∧ SizeByName (Name m) peer1 = SizeByName (Name m) (st_peer s) - 1
         ∧ (SizeByName (Name m) (st_peer s) = 1 →
            nodesByName peer1 !! Name m = None
            ∧ rings peer1 !! Name m = None)).
Proof.
  intros Hreach. pose proof (reachable_registry_ok s Hreach) as Hok.
  destruct Hok as (Hco & Hc & Hd & Hs). split_and!.
  - rewrite (sum_counts_size _ _ Hc). unfold Size.
    by rewrite node_names_size.
  - intros n c Hn. by apply (counts_ok_pos _ _ _ _ Hc) in Hn as [? _].
  - done.
  - intros id p m Hid Hm.
    destruct (Delete_valid id (st_peer s) (st_store s)) as [[peer1 eff] HD].
    { intros p'. rewrite Hid. intros [= <-]. by eexists. }
    assert (registry_ok (st_store s) peer1) as (_ & _ & Hd1 & _).
    { eapply Delete_registry_ok; [done|]. by split_and!. }
    destruct (Delete_inv _ _ _ _ _ HD) as (_ & _ & _ & _ & Hreg).
    rewrite Hid in Hreg. destruct Hreg as (m' & Hm' & Hn & Hb & _).
    rewrite Hm in Hm'. injection Hm' as <-.
    destruct (Hco _ _ Hid) as (m' & Hm' & Hid').
    rewrite Hm in Hm'. injection Hm' as <-.
    assert (node_names (st_store s) (nodes (st_peer s)) !! id
            = Some (Name m)) as Hname.
    { by rewrite node_names_lookup, Hid; simpl; rewrite Hm. }
    destruct (counts_ok_delete _ _ _ _ Hname Hc) as [Hpos _].
    assert (default 0 (nodesByName (st_peer s) !! Name m)
            ≤ Z.of_nat (size (nodes (st_peer s)))) as Hle.
    { destruct (nodesByName (st_peer s) !! Name m) as [c|] eqn:Hcn;
        simpl; [|lia].
      apply (counts_ok_pos _ _ _ _ Hc) in Hcn.
      rewrite node_names_size in Hcn by done. lia. }
    rewrite wrap_int_id in Hb by (unfold min_int, max_int in *; lia).
    exists peer1, eff. split_and!; try done.
    + by rewrite Hn, Hid', lookup_delete_eq.
    + unfold SizeByName. rewrite Hb. case_bool_decide.
      * rewrite lookup_delete_eq. simpl. lia.
      * by rewrite lookup_insert_eq.
    + unfold SizeByName. intros Hone.
      assert (nodesByName peer1 !! Name m = None) as Hnone.
      { rewrite Hb, Hone. simpl. apply lookup_delete_eq. }
      split; [done|]. apply not_elem_of_dom. rewrite Hd1.
      by apply not_elem_of_dom.
Qed.
End RegistryFacts.

(** ** Streams *)

Section StreamFacts.
Context {R : Type} `{HashRing R}.

Lemma stream_Send_inv h inp net s :
  streams net !! h = Some s →
  ∃ net1,
    stream_Send h inp net = Some net1
    ∧ streams net1 !! h
      = Some (mkClientStream (cs_ctx s) (cs_sent s ++ [inp])
                             (cs_incoming s) (cs_closeSend s))
    ∧ (∀ h', h' ≠ h → streams net1 !! h' = streams net !! h')
    ∧ chans net1 = chans net ∧ tasks net1 = tasks net.
Proof.
  intros Hs. unfold stream_Send. rewrite Hs. simpl. eexists.
  split; [done|]. simpl. split_and!; try done.
  - apply list_lookup_insert_eq. by eapply lookup_lt_Some.
  - intros h' Hne. by apply list_lookup_insert_ne.
Qed.

(** C7, as the code has it. With a stream registered under [clientId],
    [SendStream] hands the envelope to that stream and returns
    [created = false], no channel and the error of the send, leaving the
    peer as it is. With none registered and the Meta at hand: when the
    pool, the connection and the server stream are obtained (and
    [MessageQueueSize] is not negative), it registers a new stream under
    [clientId] and returns [created = true] with a new open channel of
    capacity [MessageQueueSize]; when one of the three fails, it returns
    [created = false], no channel and an error, and registers nothing. *)
Theorem SendStream_created env c clientId node inp md
    (peer : LocalPeer R) σ net :
  (∀ h s,
      grpcStreams peer !! clientId = Some h → streams net !! h = Some s →
      ∃ net1,
        SendStream env c clientId node inp md peer σ net
        = Some (mkSendStreamResult false None (rpc_Send env), peer, net1)
        ∧ streams net1 !! h
          = Some (mkClientStream (cs_ctx s) (cs_sent s ++ [inp])
                                 (cs_incoming s) (cs_closeSend s))
        ∧ chans net1 = chans net ∧ tasks net1 = tasks net)
  ∧ (∀ m answers,
      grpcStreams peer !! clientId = None → deref σ node = Some m →
      (grpcPool peer !! Id m = None → rpc_pool_New env = None) →
      rpc_pool_Get env = None → rpc_Stream env = inl answers →
      0 ≤ MessageQueueSize (options peer) →
      ∃ peer1 net1 s ch,
        SendStream env c clientId node inp md peer σ net
        = Some (mkSendStreamResult true (Some ch) (rpc_Send env),
                peer1, net1)
        ∧ grpcStreams peer1 !! clientId = Some s
        ∧ streams net !! s = None
        ∧ (∃ c1, streams net1 !! s
                 = Some (mkClientStream c1 [inp] answers false))
        ∧ chans net !! ch = None
        ∧ chans net1 !! ch
          = Some (mkChan (MessageQueueSize (options peer)) [] [] false)
        ∧ tasks net1 = tasks net ++ [mkTask clientId s ch])
  ∧ (∀ m,
      grpcStreams peer !! clientId = None → deref σ node = Some m →
      (grpcPool peer !! Id m = None ∧ is_Some (rpc_pool_New env))
      ∨ is_Some (rpc_pool_Get env)
      ∨ (∃ e, rpc_Stream env = inr e) →
      ∃ peer1 e,
        SendStream env c clientId node inp md peer σ net
        = Some (mkSendStreamResult false None (Some e), peer1, net)
        ∧ grpcStreams peer1 = grpcStreams peer).
Proof.
  split_and!.
  - intros h s Hh Hs.
    destruct (stream_Send_inv h inp net s Hs) as (net1 & HS & Hl & _ & Hc & Ht).
    exists net1. unfold SendStream. rewrite Hh, HS. done.
  - intros m answers Hnone Hm Hnew Hget Hstream Hq.
    unfold SendStream. rewrite Hnone, Hm. simpl.
    destruct (makeGrpcPool env (Id m) (Addr m) peer) as [p peer0] eqn:Hmk.
    pose proof Hmk as Hmk'.
    apply makeGrpcPool_inv in Hmk' as (_ & _ & _ & Hs0 & _ & Ho & _ & Hp).
    destruct p as [p|e].
    + rewrite Hget, Hstream, Ho.
      rewrite bool_decide_eq_false_2 by lia.
      destruct (grpcStreamCancelFn peer0 !! Id m) as [ctxS|];
        eexists _, _, (length (streams net)), (length (chans net));
        (split; [reflexivity|]); simpl;
        rewrite lookup_insert_eq, !lookup_app_r, !Nat.sub_diag by lia;
        (split_and!; try done; try (by apply lookup_ge_None); by eexists).
    + destruct Hp as [He ->].
      destruct (grpcPool peer !! Id m) eqn:Hpool.
      * unfold makeGrpcPool in Hmk. by rewrite Hpool in Hmk.
      * rewrite Hnew in He by done. done.
  - intros m Hnone Hm Hfail.
    unfold SendStream. rewrite Hnone, Hm. simpl.
    destruct (makeGrpcPool env (Id m) (Addr m) peer) as [p peer0] eqn:Hmk.
    pose proof Hmk as Hmk'.
    apply makeGrpcPool_inv in Hmk' as (_ & _ & _ & Hs0 & _ & _ & _ & Hp).
    destruct p as [p|e]; [|by exists peer0, e].
    destruct (rpc_pool_Get env) as [e|] eqn:Hget; [by exists peer0, e|].
    destruct Hfail as [[Hpool [e He]]|[[e He]|[e He]]].
    + unfold makeGrpcPool in Hmk. rewrite Hpool, He in Hmk. done.
    + done.
    + rewrite He.
      destruct (grpcStreamCancelFn peer0 !! Id m) as [ctxS|];
        by eexists _, e.
Qed.

(** The goroutine never receives twice: whenever it runs, it takes the
    first pending answer and nothing more, closes the channel and takes
    the stream out of the registry. *)
Lemma run_task_once sel i (peer : LocalPeer R) net :
  match run_task sel i peer net with
  | Some (exit, peer1, net1) =>
      ∃ t s ch r rest,
        tasks net !! i = Some t
        ∧ streams net !! task_stream t = Some s
        ∧ chans net !! task_chan t = Some ch
        ∧ cs_incoming s = r :: rest
        ∧ (∃ s1, streams net1 !! task_stream t = Some s1
                 ∧ cs_incoming s1 = rest)
        ∧ (∃ ch1, chans net1 !! task_chan t = Some ch1
                  ∧ ch_closed ch1 = true)
        ∧ grpcStreams peer1 !! task_clientId t = None
        ∧ tasks net1 = delete i (tasks net)
        ∧ (exit = ExitRecvError ↔ ∃ e, r = RecvErr e)
  | None =>
      ∀ t s ch, tasks net !! i = Some t →
                streams net !! task_stream t = Some s →
                chans net !! task_chan t = Some ch →
                cs_incoming s = []
  end.
Proof.
  unfold run_task.
  destruct (tasks net !! i) as [t|] eqn:Ht; simpl;
    [|by intros; simplify_eq].
  destruct (streams net !! task_stream t) as [s|] eqn:Hs; simpl;
    [|by intros; simplify_eq].
  destruct (chans net !! task_chan t) as [ch|] eqn:Hc; simpl;
    [|by intros; simplify_eq].
  destruct (cs_incoming s) as [|r rest] eqn:Hin;
    [by intros; simplify_eq|].
  assert (task_stream t < length (streams net))%nat as Hlt
    by (by eapply lookup_lt_Some).
  assert (task_chan t < length (chans net))%nat as Hlc
    by (by eapply lookup_lt_Some).
  destruct r as [out|e].
  - unfold task_select.
    destruct (sel_receiver sel || _), (sel_ctx_done sel),
      (sel_pick_done sel), (sel_receiver sel); simpl;
      exists t, s, ch, (RecvOk out), rest;
      (split_and!; try done;
       [ eexists; split; [by apply list_lookup_insert_eq|done]
       | eexists; split; [by apply list_lookup_insert_eq|done]
       | apply lookup_delete_eq
       | split; [done|by intros [? ?]] ]).
  - exists t, s, ch, (RecvErr e), rest.
    split_and!; try done.
    + eexists. split; [by apply list_lookup_insert_eq|done].
    + eexists. split; [by apply list_lookup_insert_eq|done].
    + apply lookup_delete_eq.
    + split; [by eauto|done].
Qed.
End StreamFacts.


(** Decides a closed goal by evaluation. *)
Ltac by_evaluation :=
  match goal with
  | |- ?P => apply (bool_decide_unpack P); vm_compute; exact I
  end.

(** ** JSON *)

Section JsonFacts.

Lemma rune_width_bounds s w :
  rune_width s = Some w → (1 ≤ w ≤ String.length s)%nat.
Proof.
  destruct s as [|b0 rest]; simpl; [done|].
  destruct (byte_of b0 <? 128); [intros [= <-]; lia|].
  destruct (second_range b0) as [[[lo hi] [|[|[|[|[|n]]]]]]|]; try done.
  - destruct rest as [|b1 rest]; [done|].
    destruct (between lo hi b1); [|done]. intros [= <-]. simpl. lia.
  - destruct rest as [|b1 [|b2 rest]]; try done.
    destruct (_ && _); [|done]. intros [= <-]. simpl. lia.
  - destruct rest as [|b1 [|b2 [|b3 rest]]]; try done.
    destruct (_ && _); [|done]. intros [= <-]. simpl. lia.
Qed.

Lemma string_take_drop n s : string_take n s +:+ string_drop n s = s.
Proof.
  revert s. induction n as [|n IH]; intros [|c rest]; simpl; try done.
  change (String c (string_take n rest +:+ string_drop n rest)
          = String c rest).
  by rewrite IH.
Qed.

Lemma string_drop_length n s :
  String.length (string_drop n s) = (String.length s - n)%nat.
Proof.
  revert s. induction n as [|n IH]; intros [|c rest]; simpl; try done.
Qed.

Lemma coerce_utf8_valid fuel s :
  (String.length s ≤ fuel)%nat → valid_utf8 fuel s = true →
  coerce_utf8 fuel s = s.
Proof.
  revert s. induction fuel as [|fuel IH]; intros [|c rest];
    cbn [coerce_utf8 valid_utf8 String.length]; try done; try lia.
  intros Hlen.
  destruct (rune_width (String c rest)) as [w|] eqn:Hw; [|done].
  intros Hvalid. pose proof (rune_width_bounds _ _ Hw) as [Hw1 Hw2].
  rewrite IH; [apply string_take_drop| |done].
  rewrite string_drop_length. cbn [String.length] in *. lia.
Qed.

(** The coercion of [json.Marshal] leaves a valid string as it is. *)
Lemma ToValidUTF8_valid s : ValidString s = true → ToValidUTF8 s = s.
Proof. intros Hs. by apply coerce_utf8_valid. Qed.

Lemma decode_members_strings (l : list (string * string)) acc :
  decode_members ((λ kv, (kv.1, JString kv.2)) <$> l) acc
  = Some (foldl (λ a kv, <[kv.1 := kv.2]> a) acc l).
Proof.
  revert acc. induction l as [|[k v] l IH]; intros acc; simpl; [done|].
  apply IH.
Qed.

Lemma foldl_insert_lookup (l : list (string * string))
    (acc : gmap string string) k :
  NoDup l.*1 →
  foldl (λ a kv, <[kv.1 := kv.2]> a) acc l !! k
  = match (list_to_map l : gmap string string) !! k with
    | Some v => Some v
    | None => acc !! k
    end.
Proof.
  revert acc. induction l as [|[k0 v0] l IH]; intros acc; simpl.
  - intros _. by rewrite lookup_empty.
  - intros [Hnin Hnd]%NoDup_cons. rewrite (IH _ Hnd).
    destruct (decide (k = k0)) as [->|Hne].
    + rewrite !lookup_insert_eq.
      by rewrite (not_elem_of_list_to_map_1 _ _ Hnin).
    + rewrite !lookup_insert_ne by done. done.
Qed.

Lemma foldl_insert_list_to_map (l : list (string * string)) :
  NoDup l.*1 →
  foldl (λ a kv, <[kv.1 := kv.2]> a) (∅ : gmap string string) l
  = list_to_map l.
Proof.
  intros Hnd. apply map_eq. intros k.
  rewrite (foldl_insert_lookup _ _ _ Hnd), lookup_empty.
  by destruct (list_to_map l !! k).
Qed.

(** The members that [json.Marshal] writes for a map of valid strings
    decode to the map. *)
Lemma decode_marshal_map (vm : gmap string string) :
  (∀ k v, vm !! k = Some v → ValidString k = true ∧ ValidString v = true) →
  decode_map None (marshal_map vm) = Some (Some vm).
Proof.
  intros Hvalid. unfold marshal_map, decode_map. simpl.
  pose proof (merge_sort_Permutation key_le (map_to_list vm)) as Hperm.
  assert ((λ kv : string * string, (ToValidUTF8 kv.1, marshal_string kv.2))
            <$> merge_sort key_le (map_to_list vm)
          = (λ kv, (kv.1, JString kv.2))
              <$> merge_sort key_le (map_to_list vm)) as ->.
  { apply list_fmap_ext. intros i [k v] Hi. simpl.
    assert ((k, v) ∈ map_to_list vm) as Hin.
    { rewrite <- Hperm. by eapply list_elem_of_lookup_2. }
    apply elem_of_map_to_list in Hin.
    destruct (Hvalid _ _ Hin) as [Hk Hv]. unfold marshal_string.
    by rewrite !ToValidUTF8_valid. }
  rewrite decode_members_strings. simpl. do 2 f_equal.
  rewrite foldl_insert_list_to_map.
  - rewrite <- (list_to_map_to_list vm) at 2.
    apply list_to_map_proper; [|done].
    rewrite Hperm. apply NoDup_fst_map_to_list.
  - rewrite Hperm. apply NoDup_fst_map_to_list.
Qed.

Lemma decode_object_fields id name addr t st vdoc vars :
  min_int ≤ t ≤ max_int → min_int ≤ st ≤ max_int →
  decode_map None vdoc = Some vars →
  decode_object
    [("id", JString id); ("name", JString name); ("addr", JString addr);
     ("type", JNumber t); ("status", JNumber st); ("vars", vdoc)]
    zero_Meta
  = Some (mkDecoded id name addr t st vars).
Proof.
  intros Ht Hs Hdec. simpl.
  rewrite (bool_decide_eq_true_2 _ Ht), (bool_decide_eq_true_2 _ Hs).
  simpl. by rewrite Hdec.
Qed.

Lemma meta_fields_new d σ :
  let '(q, σ1) := NewNodeMetaFromJSON_alloc d σ in
  meta_fields σ1 q = Some d.
Proof.
  unfold NewNodeMetaFromJSON_alloc, meta_fields, deref.
  destruct d as [id name addr t st [vm|]]; simpl.
  - rewrite lookup_app_r by lia. rewrite Nat.sub_diag. simpl.
    rewrite lookup_app_r by lia. by rewrite Nat.sub_diag.
  - rewrite lookup_app_r by lia. by rewrite Nat.sub_diag.
Qed.

(** C9, as the code has it. For every Meta whose strings (id, name,
    addr and the keys and values of vars) are valid UTF-8, [Marshal]
    returns a document, [NewNodeMetaFromJSON] of that document returns a
    Meta, and that Meta equals the first one on every field. *)
Theorem Marshal_round_trip (σ : Store) (p : ptr) (m : Meta) :
  deref σ p = Some m → go_value σ m → utf8_meta σ m →
  ∃ doc q σ1,
    Marshal p σ = Some doc
    ∧ NewNodeMetaFromJSON doc σ = (Some q, σ1)
    ∧ meta_fields σ1 q = meta_fields σ p.
Proof.
  intros Hm (Ht & Hs & Hr) (Hid & Hname & Haddr & Hvars).
  assert (decode_map None
            match Vars m ≫= λ r, varmaps σ !! r with
            | Some vm => marshal_map vm
            | None => JNull
            end
          = Some (Vars m ≫= λ r, varmaps σ !! r)) as Hdec.
  { destruct (Vars m) as [r|] eqn:Hv; simpl; [|done].
    destruct (Hr r eq_refl) as [vm Hvm]. rewrite Hvm.
    apply decode_marshal_map. intros k v. by apply (Hvars r vm). }
  pose (d := mkDecoded (Id m) (Name m) (Addr m) (Type_ m) (Status m)
                       (Vars m ≫= λ r, varmaps σ !! r)).
  pose proof (meta_fields_new d σ) as Hnew.
  destruct (NewNodeMetaFromJSON_alloc d σ) as [q σ1] eqn:Halloc.
  eexists _, q, σ1. split_and!.
  - unfold Marshal. rewrite Hm. reflexivity.
  - unfold NewNodeMetaFromJSON, Unmarshal, marshal_string.
    rewrite !ToValidUTF8_valid by done.
    rewrite (decode_object_fields _ _ _ _ _ _ _ Ht Hs Hdec).
    fold d. by rewrite Halloc.
  - rewrite Hnew. unfold meta_fields. by rewrite Hm.
Qed.
End JsonFacts.

(** C9 as stated fails: the id of the Meta is the byte 255, which is not
    UTF-8; the document carries U+FFFD in its place, and so does the
    Meta that is read back. *)
Lemma Marshal_replaces_invalid_bytes :
  let σ := (alloc_meta Scenario.meta_raw empty_store).2 in
  deref σ 0%nat = Some Scenario.meta_raw
  ∧ (doc ← Marshal 0%nat σ;
     let '(q, σ1) := NewNodeMetaFromJSON doc σ in
     q ≫= meta_fields σ1)
    = Some (mkDecoded replacement "svc" "10.0.0.3:7350" NODE_TYPE_NAKAMA
              META_STATUS_READYED None)
  ∧ meta_fields σ 0%nat
    = Some (mkDecoded (String "255"%char EmptyString) "svc" "10.0.0.3:7350"
              NODE_TYPE_NAKAMA META_STATUS_READYED None)
  ∧ replacement ≠ String "255"%char EmptyString.
Proof. cbv zeta. split_and!; try (vm_compute; reflexivity). discriminate. Qed.

(** C9 on the small cluster: the Meta [a], with its vars. *)
Lemma Marshal_round_trip_witness :
  deref Scenario.store_r 0%nat = Some Scenario.meta_a
  ∧ go_value Scenario.store_r Scenario.meta_a
  ∧ utf8_meta Scenario.store_r Scenario.meta_a
  ∧ ∃ doc q σ1,
      Marshal 0%nat Scenario.store_r = Some doc
      ∧ NewNodeMetaFromJSON doc Scenario.store_r = (Some q, σ1)
      ∧ meta_fields σ1 q = meta_fields Scenario.store_r 0%nat.
Proof.
  assert (deref Scenario.store_r 0%nat = Some Scenario.meta_a) as Hm
    by (vm_compute; reflexivity).
  assert (varmaps Scenario.store_r !! 0%nat
          = Some ({[ "weight" := "2" ]} : gmap string string)) as Hvm
    by (vm_compute; reflexivity).
  assert (go_value Scenario.store_r Scenario.meta_a) as Hgo.
  { unfold go_value. split; [by_evaluation|]. split; [by_evaluation|].
    intros r Hr. assert (r = 0%nat) as ->
      by (vm_compute in Hr; congruence).
    eexists. exact Hvm. }
  assert (utf8_meta Scenario.store_r Scenario.meta_a) as Hutf.
  { unfold utf8_meta.
    split; [vm_compute; reflexivity|].
    split; [vm_compute; reflexivity|].
    split; [vm_compute; reflexivity|].
    intros r vm k v Hr. assert (r = 0%nat) as ->
      by (vm_compute in Hr; congruence).
    intros Hvm'. assert (vm = {[ "weight" := "2" ]}) as ->
      by (change (varmaps Scenario.store_r !! 0%nat = Some vm) in Hvm';
          congruence).
    intros [<- <-]%lookup_singleton_Some.
    split; vm_compute; reflexivity. }
  split; [exact Hm|]. split; [exact Hgo|]. split; [exact Hutf|].
  exact (Marshal_round_trip Scenario.store_r 0%nat Scenario.meta_a
           Hm Hgo Hutf).
Defined.

(** ** Runs *)

Section RunFacts.
Context {R : Type} `{HashRing R}.

Lemma run_allowed_run allowed ops (s : State R) :
  run_allowed allowed ops s → run ops s = Some (default s (run ops s)).
Proof.
  revert s. induction ops as [|op ops IH]; intros s; simpl; [done|].
  intros [_ Hrest]. destruct (exec op s) as [s1|]; simpl; [|done].
  rewrite (IH s1 Hrest). done.
Qed.

Lemma reachable_run allowed ops (s s1 : State R) :
  reachable_by allowed s → run_allowed allowed ops s →
  run ops s = Some s1 → reachable_by allowed s1.
Proof.
  revert s. induction ops as [|op ops IH]; intros s Hs; simpl.
  - by intros _ [= <-].
  - intros [Hop Hrest]. destruct (exec op s) as [s0|] eqn:Hex; simpl; [|done].
    apply IH; [|done]. by eapply reachable_step.
Qed.

Lemma run_allowedb_sound (allowed : Op → State R → Prop) allowedb ops s :
  (∀ op s, allowedb op s = true → allowed op s) →
  run_allowedb allowedb ops s = true → run_allowed allowed ops s.
Proof.
  intros Hsound. revert s. induction ops as [|op ops IH]; intros s; simpl.
  - done.
  - intros [Hop Hrest]%andb_true_iff. split; [by apply Hsound|].
    destruct (exec op s) as [s1|]; [by apply IH|done].
Qed.

Lemma any_opb_sound op (s : State R) : any_opb op s = true → any_op op s.
Proof. done. Qed.

Lemma send_to_registeredb_sound op (s : State R) :
  send_to_registeredb op s = true → send_to_registered op s.
Proof.
  destruct op; simpl; try done.
  - destruct (deref (st_store s) node) as [m|]; [|done].
    destruct (nodes (st_peer s) !! Id m) eqn:Hn; [|done].
    intros _. exists m. by rewrite Hn.
  - destruct (deref (st_store s) node) as [m|]; [|done].
    destruct (nodes (st_peer s) !! Id m) eqn:Hn; [|done].
    intros _. exists m. by rewrite Hn.
Qed.

Lemma registry_opb_sound op (s : State R) :
  registry_opb op s = true → registry_op op s.
Proof.
  destruct op; simpl; try done.
  intros Hb. by apply bool_decide_eq_true in Hb.
Qed.

Lemma registry_op_nodupb_sound op (s : State R) :
  registry_op_nodupb op s = true → registry_op_nodup op s.
Proof.
  unfold registry_op_nodupb, registry_op_nodup.
  intros [Hop Hnd]%andb_true_iff. split; [by apply registry_opb_sound|].
  destruct op; try done. by apply bool_decide_eq_true in Hnd.
Qed.
End RunFacts.

Lemma reachable_after allowed ops :
  run_allowed allowed ops Scenario.start →
  reachable_by allowed (Scenario.after ops).
Proof.
  intros Hrun. eapply reachable_run; [apply reachable_init|done|].
  by eapply run_allowed_run.
Qed.

(** ** What the reads return *)

Section ReadFacts.
Context {R : Type} `{HashRing R}.

(** [Get] returns the address of a new struct that holds the fields of
    the stored Meta, the [Vars] reference among them. *)
Lemma Get_returns_clone id (peer : LocalPeer R) σ q found σ1 :
  Get id peer σ = Some ((Some q, found), σ1) →
  ∃ p n, nodes peer !! id = Some p ∧ deref σ p = Some n
         ∧ deref σ q = None ∧ deref σ1 q = Some n
         ∧ varmaps σ1 = varmaps σ ∧ store_ext σ σ1.
Proof.
  unfold Get. destruct (nodes peer !! id) as [p|]; [|done].
  destruct (Clone_ptr p σ) as [[q' σ']|] eqn:Hc; simpl; [|done].
  intros [= <- _ <-].
  apply Clone_ptr_inv in Hc as (n & Hp & Hq & Hq1 & Hext & Hv).
  by exists p, n.
Qed.

(** [GetWithHashRing] returns an address that the primary index holds. *)
Lemma GetWithHashRing_returns_stored name k (peer : LocalPeer R) q found :
  GetWithHashRing name k peer = (Some q, found) →
  ∃ id, nodes peer !! id = Some q.
Proof.
  unfold GetWithHashRing. destruct (rings peer !! name) as [ring|]; [|done].
  destruct (GetNode ring k) as [id|]; [|done].
  destruct (nodes peer !! id) as [node|] eqn:Hn; [|done].
  intros [= <- _]. by exists id.
Qed.

(** A write to the status through a stored address shows in what the
    registry holds under that id. *)
Lemma set_Status_stored id (peer : LocalPeer R) σ p n status :
  nodes peer !! id = Some p → deref σ p = Some n →
  ∃ σ1, set_Status p status σ = Some σ1
        ∧ (Status ∘ fst <$> stored_view σ1 peer id) = Some status.
Proof.
  intros Hp Hn. unfold set_Status. rewrite Hn. simpl. eexists.
  split; [done|]. unfold stored_view, view. rewrite Hp. simpl.
  unfold deref, store_meta. simpl.
  rewrite list_lookup_insert_eq by (by eapply lookup_lt_Some). done.
Qed.
End ReadFacts.

(** ** The claims on the small cluster *)

(** C1, on the code. [a] and [b] are registered, [a] with a vars map,
    and the registry keeps [a] at the address 0. [Get], [GetByName],
    [All] and [AllToMap] return for [a] a pointer to a new struct, at the
    address 3, whose [Vars] is the stored map itself: a write to the
    status through that pointer leaves what the registry shows of [a]
    as it was, a write to an entry of its vars shows in the registry.
    [GetWithHashRing] returns the stored pointer, and a write to the
    status through it shows in the registry as well. *)
Theorem reads_share_storage :
  let weight (w : string) : option (gmap string string) :=
    Some {[ "weight" := w ]} in
  let stopped := mkMeta "a" "svc" "10.0.0.1:7350" NODE_TYPE_NAKAMA
                        META_STATUS_STOPED (Some 0%nat) in
  let through_clone :=
    (Some Scenario.meta_a, Some (Scenario.meta_a, weight "2"),
     Some (Scenario.meta_a, weight "9")) in
  nodes Scenario.peer_r !! "a" = Some 0%nat
  ∧ Scenario.seen Scenario.store_r = Some (Scenario.meta_a, weight "2")
  ∧ (r ← Get "a" Scenario.peer_r Scenario.store_r;
     Some (r.1, Scenario.probe 3%nat r.2))
    = Some ((Some 3%nat, true), through_clone)
  ∧ (r ← GetByName "svc" Scenario.peer_r Scenario.store_r;
     Some (r.1, Scenario.probe 3%nat r.2))
    = Some ([3; 4]%nat, through_clone)
  ∧ (r ← All Scenario.peer_r Scenario.store_r;
     Some (r.1, Scenario.probe 3%nat r.2))
    = Some ([Some 3; Some 4]%nat, through_clone)
  ∧ (r ← AllToMap Scenario.peer_r Scenario.store_r;
     Some (r.1 !! "a", Scenario.probe 3%nat r.2))
    = Some (Some 3%nat, through_clone)
  ∧ GetWithHashRing "svc" "k" Scenario.peer_r = (Some 0%nat, true)
  ∧ Scenario.probe 0%nat Scenario.store_r
    = (Some Scenario.meta_a, Some (stopped, weight "2"),
       Some (Scenario.meta_a, weight "9")).
Proof. cbv zeta. split_and!; vm_compute; reflexivity. Qed.


(** C3 as stated fails: [Send] to the Meta [x], which was never
    registered, leaves a channel pool for [x]. *)
Lemma transport_outside_registry :
  let s := Scenario.after Scenario.stray_send in
  reachable_by any_op s
  ∧ is_Some (grpcPool (st_peer s) !! "x")
  ∧ nodes (st_peer s) !! "x" = None
  ∧ ¬ transport_registered (st_peer s).
Proof.
  cbv zeta.
  assert (is_Some (grpcPool (st_peer (Scenario.after Scenario.stray_send))
                     !! "x")) as Hpool.
  { vm_compute. by eexists. }
  assert (nodes (st_peer (Scenario.after Scenario.stray_send)) !! "x"
          = None) as Hnode.
  { vm_compute. reflexivity. }
  split_and!.
  - apply reachable_after.
    apply (run_allowedb_sound _ any_opb); [apply any_opb_sound|].
    vm_compute. reflexivity.
  - exact Hpool.
  - exact Hnode.
  - intros Htr. destruct (Htr "x") as [p Hp]; [left; exact Hpool|].
    rewrite Hnode in Hp. discriminate Hp.
Qed.

(** C3 on the small cluster: a stream to the registered [a], then
    [Delete] of [b]. *)
Lemma transport_in_registry_witness :
  let s := Scenario.after (Scenario.streaming ++ [OpDelete "b"]) in
  reachable_by send_to_registered s
  ∧ is_Some (grpcPool (st_peer s) !! "a")
  ∧ transport_registered (st_peer s)
  ∧ ∀ k, k ∈ dom (grpcPool (st_peer s))
         ∨ k ∈ dom (grpcStreamCancelFn (st_peer s)) →
         k ∈ dom (nodes (st_peer s)).
Proof.
  cbv zeta.
  assert (reachable_by send_to_registered
            (Scenario.after (Scenario.streaming ++ [OpDelete "b"])))
    as Hreach.
  { apply reachable_after.
    apply (run_allowedb_sound _ send_to_registeredb);
      [apply send_to_registeredb_sound|].
    vm_compute. reflexivity. }
  split; [exact Hreach|]. split; [vm_compute; by eexists|].
  exact (transport_in_registry _ Hreach).
Defined.

(** C4 as stated fails: the pool that [Send] made for [x], which is not
    in the primary index, is still there after a [Sync] whose list does
    not name [x]. *)
Lemma Sync_leaves_stray_pool :
  let s := Scenario.after Scenario.stray_send in
  let r := Sync [0; 1]%nat (st_peer s) (st_store s) in
  reachable_by any_op s
  ∧ ("x" ∉ ids_of (st_store s) [0; 1]%nat)
  ∧ fmap (M := option) (λ r, grpcPool r.1 !! "x") r
    = Some (Some (mkPool "10.0.0.9:7350" 2 4 8 true)).
Proof.
  cbv zeta. split_and!.
  - apply reachable_after.
    apply (run_allowedb_sound _ any_opb); [apply any_opb_sound|].
    vm_compute. reflexivity.
  - by_evaluation.
  - vm_compute. reflexivity.
Qed.

(** C4 on the small cluster: [a] is registered and has a pool and a
    stream context; it is deleted, or left out of a [Sync]. *)
Lemma purge_on_removal_witness :
  let peer := Scenario.peer_s in
  let σ := Scenario.store_s in
  is_Some (grpcPool peer !! "a")
  ∧ is_Some (grpcStreamCancelFn peer !! "a")
  ∧ (∃ peer1 eff1 peer2,
        Delete "a" peer σ = Some (peer1, eff1)
        ∧ grpcPool peer1 !! "a" = None
        ∧ grpcStreamCancelFn peer1 !! "a" = None
        ∧ Delete "a" peer1 σ = Some (peer2, [])
        ∧ grpcPool peer2 = grpcPool peer1
        ∧ grpcStreamCancelFn peer2 = grpcStreamCancelFn peer1)
  ∧ (∃ peer1 eff1,
        Sync [1]%nat peer σ = Some (peer1, eff1)
        ∧ Sync [1]%nat peer1 σ = Some (peer1, [])
        ∧ grpcPool peer1 !! "a" = None
        ∧ grpcStreamCancelFn peer1 !! "a" = None)
  ∧ (∀ t : Transport, purge "a" (purge "a" t) = purge "a" t).
Proof.
  cbv zeta.
  assert (∀ p, nodes Scenario.peer_s !! "a" = Some p →
               is_Some (deref Scenario.store_s p)) as Hv.
  { intros p Hp. vm_compute in Hp. injection Hp as <-.
    vm_compute. by eexists. }
  assert (all_valid Scenario.store_s [1]%nat) as Hl.
  { repeat constructor. vm_compute. by eexists. }
  destruct (purge_on_removal "a" [1]%nat Scenario.peer_s Scenario.store_s
              Hv Hl) as (HD & (peer1 & eff1 & HS & HS2 & Himp) & Hidem).
  split; [vm_compute; by eexists|].
  split; [vm_compute; by eexists|].
  split; [exact HD|]. split; [|exact Hidem].
  exists peer1, eff1. split; [exact HS|]. split; [exact HS2|].
  apply Himp.
  - by_evaluation.
  - left. vm_compute. by eexists.
Defined.

(** C5 as stated fails: after [Sync] of a list that names [a] twice the
    primary index has one entry and the count of its name is two. *)
Lemma Sync_counts_duplicates :
  let s := Scenario.after Scenario.twice in
  reachable_by registry_op s
  ∧ sum_counts (nodesByName (st_peer s)) = 2
  ∧ Size (st_peer s) = 1
  ∧ sum_counts (nodesByName (st_peer s)) ≠ Size (st_peer s).
Proof.
  cbv zeta.
  assert (sum_counts (nodesByName (st_peer (Scenario.after Scenario.twice)))
          = 2) as Hsum by (vm_compute; reflexivity).
  assert (Size (st_peer (Scenario.after Scenario.twice)) = 1) as Hsize
    by (vm_compute; reflexivity).
  split_and!.
  - apply reachable_after.
    apply (run_allowedb_sound _ registry_opb); [apply registry_opb_sound|].
    vm_compute. reflexivity.
  - exact Hsum.
  - exact Hsize.
  - rewrite Hsum, Hsize. lia.
Qed.

(** C5 on the small cluster: [a] and [b] are registered, [a] is deleted
    and [b] updated; deleting [b] then empties the name index. *)
Lemma name_index_counts_witness :
  let s := Scenario.after
             (Scenario.registered
                ++ [OpDelete "a"; OpUpdate "b" META_STATUS_STOPED]) in
  reachable_by registry_op_nodup s
  ∧ Size (st_peer s) = 1
  ∧ sum_counts (nodesByName (st_peer s)) = Size (st_peer s)
  ∧ (∀ n c, nodesByName (st_peer s) !! n = Some c → 1 ≤ c)
  ∧ dom (rings (st_peer s)) = dom (nodesByName (st_peer s))
  ∧ (∀ id p m,
       nodes (st_peer s) !! id = Some p → deref (st_store s) p = Some m →
       ∃ peer1 eff,
         Delete id (st_peer s) (st_store s) = Some (peer1, eff)
         ∧ nodes peer1 !! id = None
         ∧ SizeByName (Name m) peer1 = SizeByName (Name m) (st_peer s) - 1
         ∧ (SizeByName (Name m) (st_peer s) = 1 →
            nodesByName peer1 !! Name m = None
            ∧ rings peer1 !! Name m = None)).
Proof.
  cbv zeta.
  assert (reachable_by registry_op_nodup
            (Scenario.after
               (Scenario.registered
                  ++ [OpDelete "a"; OpUpdate "b" META_STATUS_STOPED])))
    as Hreach.
  { apply reachable_after.
    apply (run_allowedb_sound _ registry_op_nodupb);
      [apply registry_op_nodupb_sound|].
    vm_compute. reflexivity. }
  split; [exact Hreach|]. split; [vm_compute; reflexivity|].
  exact (name_index_counts _ Hreach).
Defined.

(** C7 as stated fails: no stream is registered under the client id and
    the peer cannot be dialled; [SendStream] returns [created = false]
    and registers nothing. *)
Lemma SendStream_dial_error :
  grpcStreams Scenario.peer_r !! "c1" = None
  ∧ SendStream Scenario.net_down (CallerCtx 1) "c1" 0%nat Scenario.ping ∅
      Scenario.peer_r Scenario.store_r empty_net
    = Some (mkSendStreamResult false None (Some "dial error"),
            Scenario.peer_r, empty_net).
Proof. split; vm_compute; reflexivity. Qed.

(** C7 on the small cluster: the first call under a client id opens the
    stream, the second one uses it. *)
Lemma SendStream_created_witness :
  (∃ peer1 net1 s ch,
      SendStream Scenario.net_up (CallerCtx 1) "c1" 0%nat Scenario.ping ∅
        Scenario.peer_r Scenario.store_r empty_net
      = Some (mkSendStreamResult true (Some ch) None, peer1, net1)
      ∧ grpcStreams peer1 !! "c1" = Some s
      ∧ streams empty_net !! s = None
      ∧ (∃ c1, streams net1 !! s
               = Some (mkClientStream c1 [Scenario.ping]
                         [RecvOk Scenario.pong1; RecvOk Scenario.pong2]
                         false))
      ∧ chans empty_net !! ch = None
      ∧ chans net1 !! ch = Some (mkChan 16 [] [] false)
      ∧ tasks net1 = tasks empty_net ++ [mkTask "c1" s ch])
  ∧ (∃ net1,
      SendStream Scenario.net_up (CallerCtx 1) "c1" 0%nat Scenario.pong1 ∅
        Scenario.peer_s Scenario.store_s Scenario.net_s
      = Some (mkSendStreamResult false None None, Scenario.peer_s, net1)
      ∧ fmap (M := option) cs_sent (streams net1 !! 0%nat)
        = Some [Scenario.ping; Scenario.pong1]
      ∧ chans net1 = chans Scenario.net_s
      ∧ tasks net1 = tasks Scenario.net_s)
  ∧ (∃ peer1 e,
      SendStream Scenario.net_down (CallerCtx 1) "c1" 0%nat Scenario.ping ∅
        Scenario.peer_r Scenario.store_r empty_net
      = Some (mkSendStreamResult false None (Some e), peer1, empty_net)
      ∧ grpcStreams peer1 = grpcStreams Scenario.peer_r).
Proof.
  split_and!.
  - destruct (SendStream_created Scenario.net_up (CallerCtx 1) "c1" 0%nat
                Scenario.ping ∅ Scenario.peer_r Scenario.store_r empty_net)
      as (_ & Hnew & _).
    apply (Hnew Scenario.meta_a
             [RecvOk Scenario.pong1; RecvOk Scenario.pong2]).
    + vm_compute. reflexivity.
    + vm_compute. reflexivity.
    + intros _. reflexivity.
    + reflexivity.
    + reflexivity.
    + vm_compute. discriminate.
  - destruct (SendStream_created Scenario.net_up (CallerCtx 1) "c1" 0%nat
                Scenario.pong1 ∅ Scenario.peer_s Scenario.store_s
                Scenario.net_s) as (Hold & _ & _).
    destruct (Hold 0%nat
                (mkClientStream
                   (NewOutgoingContext (WithCancel (CallerCtx 1)) ∅)
                   [Scenario.ping]
                   [RecvOk Scenario.pong1; RecvOk Scenario.pong2] false))
      as (net1 & HS & Hs & Hc & Ht).
    + vm_compute. reflexivity.
    + vm_compute. reflexivity.
    + exists net1. split; [exact HS|]. split; [|by split].
      rewrite Hs. reflexivity.
  - destruct (SendStream_created Scenario.net_down (CallerCtx 1) "c1" 0%nat
                Scenario.ping ∅ Scenario.peer_r Scenario.store_r empty_net)
      as (_ & _ & Hfail).
    apply (Hfail Scenario.meta_a).
    + vm_compute. reflexivity.
    + vm_compute. reflexivity.
    + left. split; [vm_compute; reflexivity|]. by eexists.
Defined.

(** C8, on the code. Whenever the goroutine of [SendStream] runs, it
    takes the first pending answer of the server stream and no other,
    closes the channel and takes the stream out of the registry, also
    when that answer was received without error and delivered. On the
    small cluster the server answers twice on the stream to [a]: the
    goroutine delivers the first answer and ends; the second answer is
    never received, the channel is closed, no stream is registered under
    the client id and no goroutine is left. *)
Theorem receive_task_one_shot :
  (∀ (R : Type) (ops : HashRing R) sel i (peer : LocalPeer R) net,
      match run_task sel i peer net with
      | Some (exit, peer1, net1) =>
          ∃ t s ch r rest,
            tasks net !! i = Some t
            ∧ streams net !! task_stream t = Some s
            ∧ chans net !! task_chan t = Some ch
            ∧ cs_incoming s = r :: rest
            ∧ (∃ s1, streams net1 !! task_stream t = Some s1
                     ∧ cs_incoming s1 = rest)
            ∧ (∃ ch1, chans net1 !! task_chan t = Some ch1
                      ∧ ch_closed ch1 = true)
            ∧ grpcStreams peer1 !! task_clientId t = None
            ∧ tasks net1 = delete i (tasks net)
            ∧ (exit = ExitRecvError ↔ ∃ e, r = RecvErr e)
      | None =>
          ∀ t s ch, tasks net !! i = Some t →
                    streams net !! task_stream t = Some s →
                    chans net !! task_chan t = Some ch →
                    cs_incoming s = []
      end)
  ∧ fmap (M := option) cs_incoming (streams Scenario.net_s !! 0%nat)
    = Some [RecvOk Scenario.pong1; RecvOk Scenario.pong2]
  ∧ (r ← run_task Scenario.idle 0 Scenario.peer_s Scenario.net_s;
     Some (r.1.1, cs_incoming <$> streams r.2 !! 0%nat, chans r.2 !! 0%nat,
           grpcStreams r.1.2 !! "c1", tasks r.2))
    = Some (ExitDelivered, Some [RecvOk Scenario.pong2],
            Some (mkChan 16 [Scenario.pong1] [] true), None, []).
Proof.
  split_and!.
  - intros R ops sel i peer net. apply run_task_once.
  - vm_compute. reflexivity.
  - vm_compute. reflexivity.
Qed.

(* ================================================================== *)
(** * Further properties of the registry and the transport *)
(* ================================================================== *)

(** ** Reading what Sync stored *)

Section SyncReads.
Context {R : Type} `{HashRing R}.

Lemma Sync_lookup l (peer peer1 : LocalPeer R) σ eff id :
  Sync l peer σ = Some (peer1, eff) →
  nodes peer1 !! id = last_with_id σ id l.
Proof.
  intros (acc & Hacc & Hn & _)%Sync_inv.
  rewrite Hn, (sync_loop_newNodes _ _ _ _ id Hacc).
  destruct (last_with_id σ id l); [done|]. apply lookup_empty.
Qed.

(** X1. After [Sync] of a list of Metas, [Get] finds an id exactly when
    a Meta of the list carries it, and then returns a new struct with
    the fields of the last such Meta of the list; for any other id it
    returns nil and false and allocates nothing. *)
Theorem Sync_then_Get (l : list ptr) (peer : LocalPeer R) (σ : Store)
    (id : string) :
  all_valid σ l →
  ∃ peer1 eff,
    Sync l peer σ = Some (peer1, eff)
    ∧ match last_with_id σ id l with
      | Some p =>
          ∃ m q σ1,
            deref σ p = Some m ∧ Id m = id ∧ p ∈ l
            ∧ Get id peer1 σ = Some ((Some q, true), σ1)
            ∧ deref σ q = None ∧ deref σ1 q = Some m
      | None =>
          (id ∉ ids_of σ l) ∧ Get id peer1 σ = Some ((None, false), σ)
      end.
Proof.
  intros Hl.
  destruct (Sync_valid l peer σ Hl) as [[peer1 eff] HS].
  exists peer1, eff. split; [done|].
  unfold Get. rewrite (Sync_lookup _ _ _ _ _ id HS).
  destruct (last_with_id σ id l) as [p|] eqn:Hlast.
  - destruct (last_with_id_Some _ _ _ _ Hlast) as [Hin Hid].
    destruct (deref σ p) as [m|] eqn:Hm; [|done].
    injection Hid as Hid.
    exists m, (length (metas σ)), (alloc_meta m σ).2.
    split_and!; try done.
    + unfold Clone_ptr. rewrite Hm. done.
    + apply (alloc_meta_fresh m).
    + apply (deref_alloc_meta m).
  - split; [|done]. rewrite <- last_with_id_is_Some, Hlast.
    by intros [? ?].
Qed.

Lemma names_of_cons σ p l m :
  deref σ p = Some m → names_of σ (p :: l) = Name m :: names_of σ l.
Proof. intros Hm. unfold names_of. simpl. by rewrite Hm. Qed.

Lemma occurrences_cons name n l :
  occurrences name (n :: l)
  = ((if decide (n = name) then 1 else 0) + occurrences name l)%nat.
Proof.
  unfold occurrences. rewrite filter_cons.
  destruct (decide (n = name)); done.
Qed.

(** The count that the first loop of [Sync] keeps for a name grows by
    one with every Meta of that name. *)
Lemma sync_loop_counts σ l (acc acc1 : SyncAcc R) name :
  sync_loop σ l acc = Some acc1 →
  0 ≤ default 0 (newNodesByName acc !! name) →
  default 0 (newNodesByName acc !! name) + Z.of_nat (length l) ≤ max_int →
  default 0 (newNodesByName acc1 !! name)
  = default 0 (newNodesByName acc !! name)
    + Z.of_nat (occurrences name (names_of σ l)).
Proof.
  revert acc. induction l as [|p l IH]; intros acc Hloop; simpl in Hloop.
  - injection Hloop as <-. intros _ _. unfold occurrences. simpl. lia.
  - destruct (sync_step σ acc p) as [acc0|] eqn:Hstep; simpl in Hloop;
      [|done].
    apply sync_step_inv in Hstep as (m & Hm & _ & _ & Hb & _).
    cbn [length]. intros Hge Hle.
    rewrite (names_of_cons _ _ _ _ Hm), occurrences_cons.
    assert (default 0 (newNodesByName acc0 !! name)
            = default 0 (newNodesByName acc !! name)
              + (if decide (Name m = name) then 1 else 0)) as Hacc0.
    { rewrite Hb. destruct (decide (Name m = name)) as [->|Hne].
      - rewrite lookup_insert_eq. simpl. apply wrap_int_id.
        unfold min_int, max_int in *. lia.
      - rewrite lookup_insert_ne by done. lia. }
    rewrite (IH acc0 Hloop); rewrite Hacc0;
      destruct (decide (Name m = name)); lia.
Qed.

(** X2. After [Sync] of a list of at most [max_int] Metas,
    [SizeByName] of a name is the number of Metas of the list that carry
    the name (a Meta listed twice counts twice), and [Size] is the
    number of distinct ids of the list: the length of the list when no
    id occurs twice. *)
Theorem Sync_sizes (l : list ptr) (peer : LocalPeer R) (σ : Store) :
  all_valid σ l → Z.of_nat (length l) ≤ max_int →
  ∃ peer1 eff,
    Sync l peer σ = Some (peer1, eff)
    ∧ (∀ name, SizeByName name peer1
               = Z.of_nat (occurrences name (names_of σ l)))
    ∧ Size peer1 = Z.of_nat (size (list_to_set (ids_of σ l) : gset string))
    ∧ (NoDup (ids_of σ l) → Size peer1 = Z.of_nat (length l)).
Proof.
  intros Hl Hlen.
  destruct (Sync_valid l peer σ Hl) as [[peer1 eff] HS].
  exists peer1, eff. split; [done|].
  assert (Size peer1
          = Z.of_nat (size (list_to_set (ids_of σ l) : gset string)))
    as Hsize.
  { unfold Size. f_equal. rewrite <- size_dom. f_equal.
    apply set_eq. intros k.
    rewrite elem_of_dom, elem_of_list_to_set.
    apply (Sync_nodes _ _ _ _ _ k HS). }
  split_and!; [|done|].
  - intros name. destruct (Sync_inv _ _ _ _ _ HS) as (acc & Hacc & _ & Hb & _).
    unfold SizeByName. rewrite Hb.
    rewrite (sync_loop_counts _ _ _ _ name Hacc); simpl;
      rewrite ?lookup_empty; simpl; lia.
  - intros Hnd. rewrite Hsize. f_equal.
    rewrite size_list_to_set by done.
    unfold ids_of. clear -Hl. induction Hl as [|p l [m Hm] _ IH]; [done|].
    simpl. rewrite Hm. simpl. f_equal. exact IH.
Qed.

(** X3. The weight that [Sync] hands to the ring is at least one and at
    most [max_int], whatever the vars hold; it is one when the vars have
    no weight. *)
Theorem node_weight_bounds (σ : Store) (m : Meta) :
  1 ≤ node_weight σ m ≤ max_int
  ∧ (vars_lookup σ (Vars m) "weight" = None → node_weight σ m = 1)
  ∧ (∀ v, vars_lookup σ (Vars m) "weight" = Some v →
          node_weight σ m = Z.max 1 (Atoi v).1).
Proof.
  assert (∀ v, (Atoi v).1 ≤ max_int) as Hmax.
  { intros v. unfold Atoi.
    destruct (match v with
              | String "-"%char rest => Z.opp <$> parse_unsigned rest
              | String "+"%char rest => parse_unsigned rest
              | _ => parse_unsigned v
              end) as [z|]; simpl.
    - unfold clamp_int, max_int, min_int. lia.
    - unfold max_int. lia. }
  unfold node_weight. split; [|split].
  - destruct (vars_lookup σ (Vars m) "weight") as [v|].
    + case_bool_decide; [unfold max_int; lia|].
      specialize (Hmax v). lia.
    + unfold max_int. lia.
  - by intros ->.
  - intros v ->. case_bool_decide; lia.
Qed.
End SyncReads.

(** ** What a purge releases *)

Section PurgeEffects.
Context {R : Type} `{HashRing R}.

Lemma purge_closed k0 (t : Transport) k p :
  PoolClosed k p ∈ (purge k0 t).2
  ↔ PoolClosed k p ∈ t.2 ∨ (k = k0 ∧ t.1.1 !! k0 = Some p).
Proof.
  destruct t as [[pools cancels] eff]. unfold purge. simpl.
  destruct (pools !! k0) as [m|] eqn:Hp;
    destruct (cancels !! k0) as [c|] eqn:Hc; simpl;
    rewrite ?elem_of_app, ?list_elem_of_singleton; intuition (simplify_eq; eauto; congruence).
Qed.

Lemma purge_cancelled k0 (t : Transport) k c :
  CtxCancelled k c ∈ (purge k0 t).2
  ↔ CtxCancelled k c ∈ t.2 ∨ (k = k0 ∧ t.1.2 !! k0 = Some c).
Proof.
  destruct t as [[pools cancels] eff]. unfold purge. simpl.
  destruct (pools !! k0) as [m|] eqn:Hp;
    destruct (cancels !! k0) as [c0|] eqn:Hc; simpl;
    rewrite ?elem_of_app, ?list_elem_of_singleton; intuition (simplify_eq; eauto; congruence).
Qed.

Lemma sync_purge_closed nm keys (t : Transport) k p :
  PoolClosed k p ∈ (sync_purge nm keys t).2
  ↔ PoolClosed k p ∈ t.2
    ∨ (k ∈ keys ∧ default false (nm !! k) = false ∧ t.1.1 !! k = Some p).
Proof.
  revert t. induction keys as [|k0 keys IH]; intros t; simpl.
  - rewrite elem_of_nil. intuition (simplify_eq; eauto; congruence).
  - rewrite IH, elem_of_cons.
    destruct (default false (nm !! k0)) eqn:Hk0; simpl.
    + intuition (simplify_eq; eauto; congruence).
    + rewrite purge_closed, purge_pools.
      destruct (decide (k0 = k)) as [->|Hne]; intuition (simplify_eq; eauto; congruence).
Qed.

Lemma sync_purge_cancelled nm keys (t : Transport) k c :
  CtxCancelled k c ∈ (sync_purge nm keys t).2
  ↔ CtxCancelled k c ∈ t.2
    ∨ (k ∈ keys ∧ default false (nm !! k) = false ∧ t.1.2 !! k = Some c).
Proof.
  revert t. induction keys as [|k0 keys IH]; intros t; simpl.
  - rewrite elem_of_nil. intuition (simplify_eq; eauto; congruence).
  - rewrite IH, elem_of_cons.
    destruct (default false (nm !! k0)) eqn:Hk0; simpl.
    + intuition (simplify_eq; eauto; congruence).
    + rewrite purge_cancelled, purge_cancels.
      destruct (decide (k0 = k)) as [->|Hne]; intuition (simplify_eq; eauto; congruence).
Qed.

(** X4. [Sync] releases exactly what it removes: the channel pool and
    the stream context of an id are closed, cancelled and removed when
    the id was in the primary index and is not in the list; every other
    transport entry stays as it is, and so does the registry of client
    streams. *)
Theorem Sync_purges_exactly (l : list ptr) (peer : LocalPeer R) (σ : Store) :
  all_valid σ l →
  ∃ peer1 eff,
    Sync l peer σ = Some (peer1, eff)
    ∧ grpcStreams peer1 = grpcStreams peer
    ∧ ∀ k,
        let gone := is_Some (nodes peer !! k) ∧ k ∉ ids_of σ l in
        (gone → grpcPool peer1 !! k = None
                ∧ grpcStreamCancelFn peer1 !! k = None)
        ∧ (¬ gone → grpcPool peer1 !! k = grpcPool peer !! k
                    ∧ grpcStreamCancelFn peer1 !! k
                      = grpcStreamCancelFn peer !! k)
        ∧ (∀ p, PoolClosed k p ∈ eff ↔ gone ∧ grpcPool peer !! k = Some p)
        ∧ (∀ c, CtxCancelled k c ∈ eff
                ↔ gone ∧ grpcStreamCancelFn peer !! k = Some c).
Proof.
  intros Hl.
  destruct (Sync_valid l peer σ Hl) as [[peer1 eff] HS].
  exists peer1, eff. split; [done|].
  destruct (Sync_inv _ _ _ _ _ HS)
    as (acc & Hacc & Hn & _ & _ & Hs & _ & _ & Hp).
  split; [done|]. intros k. simpl.
  destruct (Sync_transport _ _ _ _ _ k HS) as [Hpool Hctx].
  assert (Hnm := sync_loop_nodeMap _ _ _ _ Hacc sync_init_nodeMap).
  assert (default false (nodeMap acc !! k) = false ↔ k ∉ ids_of σ l) as Hmap.
  { rewrite (nodeMap_true _ _ Hnm), <- Hn, (Sync_lookup _ _ _ _ _ k HS).
    rewrite <- last_with_id_is_Some. apply bool_decide_eq_false. }
  split_and!.
  - intros [Hin Hout]. rewrite Hpool, Hctx.
    rewrite (bool_decide_eq_true_2 _ Hin), (bool_decide_eq_false_2 _ Hout).
    done.
  - intros Hng. rewrite Hpool, Hctx.
    destruct (bool_decide (is_Some (nodes peer !! k))) eqn:Hin;
      destruct (bool_decide (k ∈ ids_of σ l)) eqn:Hout; simpl; try done.
    apply bool_decide_eq_true in Hin. apply bool_decide_eq_false in Hout.
    by destruct Hng.
  - intros p.
    change eff with (grpcPool peer1, grpcStreamCancelFn peer1, eff).2.
    rewrite Hp, sync_purge_closed, elem_of_keys, Hmap. simpl.
    rewrite elem_of_nil. intuition (simplify_eq; eauto; congruence).
  - intros c.
    change eff with (grpcPool peer1, grpcStreamCancelFn peer1, eff).2.
    rewrite Hp, sync_purge_cancelled, elem_of_keys, Hmap. simpl.
    rewrite elem_of_nil. intuition (simplify_eq; eauto; congruence).
Qed.

(** X5. [Delete] releases the transport entries of the id whether or
    not the id is in the primary index: its effects are the close of the
    pool of the id, when there is one, followed by the cancel of its
    stream context, when there is one; the entries of every other id and
    the registry of client streams stay as they are. *)
Theorem Delete_releases (id : string) (peer : LocalPeer R) (σ : Store) :
  (∀ p, nodes peer !! id = Some p → is_Some (deref σ p)) →
  ∃ peer1 eff,
    Delete id peer σ = Some (peer1, eff)
    ∧ eff = match grpcPool peer !! id with
            | Some p => [PoolClosed id p]
            | None => []
            end
            ++ match grpcStreamCancelFn peer !! id with
               | Some c => [CtxCancelled id c]
               | None => []
               end
    ∧ grpcPool peer1 = delete id (grpcPool peer)
    ∧ grpcStreamCancelFn peer1 = delete id (grpcStreamCancelFn peer)
    ∧ grpcStreams peer1 = grpcStreams peer.
Proof.
  intros Hv. destruct (Delete_valid id peer σ Hv) as [[peer1 eff] HD].
  exists peer1, eff. split; [done|].
  destruct (Delete_inv _ _ _ _ _ HD) as (Hp & Hs & _).
  unfold purge in Hp.
  destruct (grpcPool peer !! id) as [p|] eqn:Hpool;
    destruct (grpcStreamCancelFn peer !! id) as [c|] eqn:Hctx;
    injection Hp as -> -> ->; split_and!; try done;
    symmetry; by apply delete_id.
Qed.
End PurgeEffects.

(** ** The registry in every reachable state *)

Section Reachable.
Context {R : Type} `{HashRing R}.

Lemma Send_registry env node inp (peer peer1 : LocalPeer R) σ r :
  Send env node inp peer σ = Some (r, peer1) →
  nodes peer1 = nodes peer ∧ nodesByName peer1 = nodesByName peer
  ∧ rings peer1 = rings peer ∧ grpcStreams peer1 = grpcStreams peer.
Proof.
  unfold Send. destruct (deref σ node) as [m|]; simpl; [|done].
  destruct (makeGrpcPool env (Id m) (Addr m) peer) as [p peer0] eqn:Hmk.
  apply makeGrpcPool_inv in Hmk as (Hn & Hb & Hr & Hs & _).
  intros Hres. assert (peer1 = peer0) as ->; [|done].
  destruct p; [destruct (rpc_pool_Get env); [|destruct (rpc_Call env)]|];
    by injection Hres.
Qed.

Lemma SendStream_registry env c clientId node inp md
    (peer peer1 : LocalPeer R) σ net net1 r :
  SendStream env c clientId node inp md peer σ net = Some (r, peer1, net1) →
  nodes peer1 = nodes peer ∧ nodesByName peer1 = nodesByName peer
  ∧ rings peer1 = rings peer.
Proof.
  unfold SendStream. destruct (grpcStreams peer !! clientId) as [h|].
  { destruct (stream_Send h inp net); simpl; [|done]. by intros [= _ <- _]. }
  destruct (deref σ node) as [m|]; simpl; [|done].
  destruct (makeGrpcPool env (Id m) (Addr m) peer) as [p peer0] eqn:Hmk.
  apply makeGrpcPool_inv in Hmk as (Hn & Hb & Hr & _).
  destruct p as [p|e]; [|by intros [= _ <- _]].
  destruct (rpc_pool_Get env) as [e|]; [by intros [= _ <- _]|].
  destruct (grpcStreamCancelFn peer0 !! Id m) as [ctxS|];
    destruct (rpc_Stream env) as [answers|e1];
    try (case_bool_decide; [done|]); by intros [= _ <- _].
Qed.

Lemma registry_ok_same σ (peer peer1 : LocalPeer R) :
  nodes peer1 = nodes peer → nodesByName peer1 = nodesByName peer →
  rings peer1 = rings peer → registry_ok σ peer → registry_ok σ peer1.
Proof.
  intros Hn Hb Hr. unfold registry_ok, coherent. by rewrite Hn, Hb, Hr.
Qed.

Lemma Delete_coherent id (peer peer1 : LocalPeer R) σ eff :
  Delete id peer σ = Some (peer1, eff) →
  coherent σ peer →
  coherent σ peer1 ∧ nodes peer1 = delete id (nodes peer).
Proof.
  intros (_ & _ & _ & _ & Hreg)%Delete_inv Hco.
  assert (nodes peer1 = delete id (nodes peer)) as Hn.
  { destruct (nodes peer !! id) as [p|] eqn:Hid.
    - destruct Hreg as (m & Hm & Hn & _).
      destruct (Hco _ _ Hid) as (m' & Hm' & Hid').
      rewrite Hm in Hm'. injection Hm' as <-. by rewrite Hn, Hid'.
    - destruct Hreg as [Hn _]. rewrite Hn. symmetry. by apply delete_id. }
  split; [|done]. intros k p. rewrite Hn.
  intros [_ Hk]%lookup_delete_Some. by apply Hco.
Qed.

Lemma coherent_step op (s s1 : State R) :
  exec op s = Some s1 →
  coherent (st_store s) (st_peer s) → coherent (st_store s1) (st_peer s1).
Proof.
  intros Hex Hco. destruct s as [σ peer net effs].
  destruct op; simpl in *.
  - injection Hex as <-. simpl.
    eapply coherent_ext; [apply store_ext_alloc_meta|done].
  - injection Hex as <-. simpl.
    eapply coherent_ext; [apply store_ext_alloc_map|done].
  - destruct (Get id peer σ) as [[r σ1]|] eqn:Hg; simpl in Hex; [|done].
    injection Hex as <-. simpl.
    eapply coherent_ext; [by eapply Get_ext|done].
  - destruct (GetByName name peer σ) as [[r σ1]|] eqn:Hg;
      simpl in Hex; [|done].
    injection Hex as <-. simpl.
    eapply coherent_ext; [by eapply GetByName_ext|done].
  - destruct (All peer σ) as [[r σ1]|] eqn:Hg; simpl in Hex; [|done].
    injection Hex as <-. simpl.
    eapply coherent_ext; [by eapply All_loop_ext|done].
  - destruct (AllToMap peer σ) as [[r σ1]|] eqn:Hg; simpl in Hex; [|done].
    injection Hex as <-. simpl.
    eapply coherent_ext; [by eapply AllToMap_loop_ext|done].
  - destruct (Sync l peer σ) as [[peer1 eff]|] eqn:HS; simpl in Hex; [|done].
    injection Hex as <-. simpl. by eapply Sync_coherent.
  - destruct (Delete id peer σ) as [[peer1 eff]|] eqn:HD;
      simpl in Hex; [|done].
    injection Hex as <-. simpl. by eapply Delete_coherent.
  - destruct (Update id status peer σ) as [[peer1 σ1]|] eqn:HU;
      simpl in Hex; [|done].
    injection Hex as <-. simpl.
    destruct (Update_inv _ _ _ _ _ _ HU) as (Hext & _ & _ & _ & _ & _ & Hreg).
    destruct (nodes peer !! id) as [p|] eqn:Hid.
    + destruct Hreg as (m & q & Hm & Hq & Hn & Hq1).
      destruct (Hco _ _ Hid) as (m' & Hm' & Hid').
      rewrite Hm in Hm'. injection Hm' as <-.
      intros k p'. rewrite Hn. destruct (decide (k = id)) as [->|Hne].
      * rewrite lookup_insert_eq. intros [= <-]. by eexists.
      * rewrite lookup_insert_ne by done. intros Hk.
        destruct (Hco _ _ Hk) as (m1 & Hm1 & Hid1).
        exists m1. split; [by apply Hext|done].
    + eapply coherent_ext; [done|]. by eapply coherent_nodes.
  - injection Hex as <-. by intros k p.
  - destruct (Send env node inp peer σ) as [[r peer1]|] eqn:HS;
      simpl in Hex; [|done].
    injection Hex as <-. simpl.
    apply Send_registry in HS as (Hn & _). by eapply coherent_nodes.
  - destruct (SendStream env c clientId node inp md peer σ net)
      as [[[r peer1] net1]|] eqn:HS; simpl in Hex; [|done].
    injection Hex as <-. simpl.
    apply SendStream_registry in HS as (Hn & _). by eapply coherent_nodes.
  - destruct (run_task sel i peer net) as [[[ex peer1] net1]|] eqn:HT;
      simpl in Hex; [|done].
    injection Hex as <-. simpl.
    apply run_task_inv in HT as (Hn & _). by eapply coherent_nodes.
Qed.

Lemma reachable_coherent (s : State R) :
  reachable_by any_op s → coherent (st_store s) (st_peer s).
Proof.
  induction 1 as [c opts|s op s1 _ IH _ Hex].
  - by intros k p.
  - by eapply coherent_step.
Qed.

Lemma registry_ok_step op (s s1 : State R) :
  nodup_syncs op s → exec op s = Some s1 →
  registry_ok (st_store s) (st_peer s) →
  registry_ok (st_store s1) (st_peer s1).
Proof.
  intros Hop Hex Hok. destruct s as [σ peer net effs].
  destruct op; simpl in *.
  - injection Hex as <-. simpl.
    eapply registry_ok_ext; [apply store_ext_alloc_meta|done].
  - injection Hex as <-. simpl.
    eapply registry_ok_ext; [apply store_ext_alloc_map|done].
  - destruct (Get id peer σ) as [[r σ1]|] eqn:Hg; simpl in Hex; [|done].
    injection Hex as <-. simpl.
    eapply registry_ok_ext; [by eapply Get_ext|done].
  - destruct (GetByName name peer σ) as [[r σ1]|] eqn:Hg;
      simpl in Hex; [|done].
    injection Hex as <-. simpl.
    eapply registry_ok_ext; [by eapply GetByName_ext|done].
  - destruct (All peer σ) as [[r σ1]|] eqn:Hg; simpl in Hex; [|done].
    injection Hex as <-. simpl.
    eapply registry_ok_ext; [by eapply All_loop_ext|done].
  - destruct (AllToMap peer σ) as [[r σ1]|] eqn:Hg; simpl in Hex; [|done].
    injection Hex as <-. simpl.
    eapply registry_ok_ext; [by eapply AllToMap_loop_ext|done].
  - destruct (Sync l peer σ) as [[peer1 eff]|] eqn:HS; simpl in Hex; [|done].
    injection Hex as <-. simpl. destruct Hop as [Hlen Hnd].
    by eapply Sync_registry_ok.
  - destruct (Delete id peer σ) as [[peer1 eff]|] eqn:HD;
      simpl in Hex; [|done].
    injection Hex as <-. simpl. by eapply Delete_registry_ok.
  - destruct (Update id status peer σ) as [[peer1 σ1]|] eqn:HU;
      simpl in Hex; [|done].
    injection Hex as <-. simpl. by eapply Update_registry_ok.
  - injection Hex as <-. simpl. by apply registry_ok_empty.
  - destruct (Send env node inp peer σ) as [[r peer1]|] eqn:HS;
      simpl in Hex; [|done].
    injection Hex as <-. simpl.
    apply Send_registry in HS as (Hn & Hb & Hr & _).
    by eapply registry_ok_same.
  - destruct (SendStream env c clientId node inp md peer σ net)
      as [[[r peer1] net1]|] eqn:HS; simpl in Hex; [|done].
    injection Hex as <-. simpl.
    apply SendStream_registry in HS as (Hn & Hb & Hr).
    by eapply registry_ok_same.
  - destruct (run_task sel i peer net) as [[[ex peer1] net1]|] eqn:HT;
      simpl in Hex; [|done].
    injection Hex as <-. simpl.
    apply run_task_inv in HT as (Hn & Hb & Hr & _).
    by eapply registry_ok_same.
Qed.

Lemma reachable_nodup_registry_ok (s : State R) :
  reachable_by nodup_syncs s → registry_ok (st_store s) (st_peer s).
Proof.
  induction 1 as [c opts|s op s1 _ IH Hop Hex].
  - by apply registry_ok_empty.
  - by eapply registry_ok_step.
Qed.

Lemma nodup_syncsb_sound op (s : State R) :
  nodup_syncsb op s = true → nodup_syncs op s.
Proof.
  destruct op; simpl; try done.
  intros [Hlen Hnd]%andb_true_iff.
  apply bool_decide_eq_true in Hlen. by apply bool_decide_eq_true in Hnd.
Qed.

(** X6. In every state that calls of the peer reach, every key of the
    primary index is the id of the Meta stored under it, and every
    stored pointer leads to a Meta. *)
Theorem primary_index_keyed_by_id (s : State R) :
  reachable_by any_op s →
  ∀ k p, nodes (st_peer s) !! k = Some p →
         ∃ m, deref (st_store s) p = Some m ∧ Id m = k.
Proof. intros Hr. by apply reachable_coherent. Qed.

(** X7. In every reachable state, [Delete id] returns and takes exactly
    the entry of [id] out of the primary index: [Get id] then finds
    nothing, [Get] of any other id answers as before, and [Size] is one
    less when the id was there and the same when it was not. *)
Theorem Delete_then_Get (s : State R) (id : string) :
  reachable_by any_op s →
  ∃ peer1 eff,
    Delete id (st_peer s) (st_store s) = Some (peer1, eff)
    ∧ nodes peer1 = delete id (nodes (st_peer s))
    ∧ Get id peer1 (st_store s) = Some ((None, false), st_store s)
    ∧ (∀ id', id' ≠ id →
              Get id' peer1 (st_store s) = Get id' (st_peer s) (st_store s))
    ∧ Size peer1
      = Size (st_peer s)
        - match nodes (st_peer s) !! id with Some _ => 1 | None => 0 end.
Proof.
  intros Hco%reachable_coherent.
  destruct (Delete_valid id (st_peer s) (st_store s)) as [[peer1 eff] HD].
  { intros p Hp. destruct (Hco _ _ Hp) as (m & Hm & _). by eexists. }
  destruct (Delete_coherent _ _ _ _ _ HD Hco) as [_ Hn].
  exists peer1, eff. split_and!; try done.
  - unfold Get. by rewrite Hn, lookup_delete_eq.
  - intros id' Hne. unfold Get. by rewrite Hn, lookup_delete_ne.
  - unfold Size. rewrite Hn.
    destruct (nodes (st_peer s) !! id) eqn:Hid.
    + rewrite <- (insert_delete_id (nodes (st_peer s)) id p) at 2 by done.
      rewrite map_size_insert_None by apply lookup_delete_eq. lia.
    + rewrite delete_id by done. lia.
Qed.

(** X8. In every reachable state, [Update id status] returns. For an id
    of the primary index it stores a new struct with the fields of the
    old one and the new status, and leaves the old struct as it was, so
    that a holder of the old pointer does not see the change; the
    entries of the other ids, the name index, the rings and the
    transport are left alone. For an unknown id nothing changes. *)
Theorem Update_copies_on_write (s : State R) (id : string)
    (status : MetaStatus) :
  reachable_by any_op s →
  ∃ peer1 σ1,
    Update id status (st_peer s) (st_store s) = Some (peer1, σ1)
    ∧ store_ext (st_store s) σ1
    ∧ (∀ id', id' ≠ id → nodes peer1 !! id' = nodes (st_peer s) !! id')
    ∧ nodesByName peer1 = nodesByName (st_peer s)
    ∧ rings peer1 = rings (st_peer s)
    ∧ grpcPool peer1 = grpcPool (st_peer s)
    ∧ grpcStreams peer1 = grpcStreams (st_peer s)
    ∧ grpcStreamCancelFn peer1 = grpcStreamCancelFn (st_peer s)
    ∧ match nodes (st_peer s) !! id with
      | Some p =>
          ∃ m q,
            deref (st_store s) p = Some m
            ∧ nodes peer1 !! id = Some q ∧ q ≠ p
            ∧ deref σ1 q
              = Some (mkMeta (Id m) (Name m) (Addr m) (Type_ m) status
                             (Vars m))
            ∧ deref σ1 p = Some m
      | None => peer1 = st_peer s ∧ σ1 = st_store s
      end.
Proof.
  intros Hco%reachable_coherent.
  destruct (Update id status (st_peer s) (st_store s))
    as [[peer1 σ1]|] eqn:HU.
  - exists peer1, σ1. split; [done|].
    pose proof HU as HU'. unfold Update in HU'.
    destruct (Update_inv _ _ _ _ _ _ HU)
      as (Hext & Hb & Hr & Hp & Hs & Hc & Hreg).
    destruct (nodes (st_peer s) !! id) as [p|] eqn:Hid.
    + destruct Hreg as (m & q & Hm & Hq & Hn & Hq1).
      split_and!; try done.
      * intros id' Hne. by rewrite Hn, lookup_insert_ne.
      * exists m, q. split_and!; try done.
        -- by rewrite Hn, lookup_insert_eq.
        -- intros ->. congruence.
        -- by apply Hext.
    + injection HU' as <- <-. split_and!; try done.
  - exfalso. unfold Update in HU.
    destruct (nodes (st_peer s) !! id) as [p|] eqn:Hid; [|done].
    destruct (Hco _ _ Hid) as (m & Hm & _).
    pose proof (deref_alloc_meta m (st_store s)) as Hd.
    unfold Clone_ptr, Clone in HU. rewrite Hm in HU.
    unfold alloc_meta in HU, Hd. simpl in HU, Hd. by rewrite Hd in HU.
Qed.

(** X9. In every reachable state (the lists given to [Sync] being free
    of duplicate ids), [GetWithHashRing] finds nothing under a service
    name that has no node, and a pointer it returns is one the primary
    index holds, under the id of its Meta. *)
Theorem GetWithHashRing_registered (s : State R) (name k : string) :
  reachable_by nodup_syncs s →
  (SizeByName name (st_peer s) = 0 →
   GetWithHashRing name k (st_peer s) = (None, false))
  ∧ (∀ q found,
       GetWithHashRing name k (st_peer s) = (Some q, found) →
       found = true
       ∧ ∃ id m, nodes (st_peer s) !! id = Some q
                 ∧ deref (st_store s) q = Some m ∧ Id m = id).
Proof.
  intros (Hco & Hc & Hd & _)%reachable_nodup_registry_ok. split.
  - unfold SizeByName, GetWithHashRing. intros Hz.
    destruct (nodesByName (st_peer s) !! name) as [c|] eqn:Hn.
    + apply (counts_ok_pos _ _ _ _ Hc) in Hn. simpl in Hz. lia.
    + apply not_elem_of_dom in Hn. rewrite <- Hd in Hn.
      apply not_elem_of_dom in Hn. by rewrite Hn.
  - unfold GetWithHashRing. intros q found.
    destruct (rings (st_peer s) !! name) as [ring|]; [|done].
    destruct (GetNode ring k) as [id|]; [|done].
    destruct (nodes (st_peer s) !! id) as [node|] eqn:Hn; [|done].
    intros [= <- <-]. split; [done|].
    destruct (Hco _ _ Hn) as (m & Hm & Hid). by exists id, m.
Qed.
End Reachable.

(** ** The reads that copy *)

Section Copies.
Context {R : Type} `{HashRing R}.

Lemma Clone_ptr_total p σ :
  is_Some (deref σ p) → is_Some (Clone_ptr p σ).
Proof. unfold Clone_ptr. intros [n ->]. by eexists. Qed.

Lemma store_ext_fresh σ σ1 q :
  store_ext σ σ1 → deref σ1 q = None → deref σ q = None.
Proof.
  intros Hext Hq. destruct (deref σ q) as [m|] eqn:Hm; [|done].
  apply Hext in Hm. congruence.
Qed.

Lemma store_ext_same σ σ1 p :
  store_ext σ σ1 → is_Some (deref σ p) → deref σ1 p = deref σ p.
Proof. intros Hext [m Hm]. by rewrite Hm, (Hext _ _ Hm). Qed.

Lemma copy_of_later σ σ0 σ1 p q :
  store_ext σ σ0 → store_ext σ0 σ1 → is_Some (deref σ p) →
  copy_of σ0 σ1 p q → copy_of σ σ1 p q.
Proof.
  intros Hext Hext1 Hp [Hq Hq1]. split.
  - by eapply store_ext_fresh.
  - by rewrite Hq1, (store_ext_same σ σ0).
Qed.

Lemma copies_later σ σ0 σ1 (es : list (string * ptr)) qs :
  store_ext σ σ0 → store_ext σ0 σ1 →
  Forall (λ e, is_Some (deref σ e.2)) es →
  Forall2 (λ e q, copy_of σ0 σ1 e.2 q) es qs →
  Forall2 (λ e q, copy_of σ σ1 e.2 q) es qs.
Proof.
  intros Hext Hext1 Hv Hc. revert Hv.
  induction Hc as [|e q es qs He _ IH]; intros Hv; [constructor|].
  apply Forall_cons in Hv as [Hp Hv].
  constructor; [by eapply copy_of_later|by apply IH].
Qed.

Lemma copies_fresh σ σ1 (es : list (string * ptr)) qs q :
  Forall2 (λ e q, copy_of σ σ1 e.2 q) es qs →
  is_Some (deref σ q) → q ∉ qs.
Proof.
  intros Hc [m Hm] Hin. rewrite Forall2_lookup in Hc.
  apply list_elem_of_lookup in Hin as [j Hj].
  specialize (Hc j). rewrite Hj in Hc.
  inversion Hc as [e q' [Hq' _] He Hq''|]. congruence.
Qed.

Lemma All_loop_spec (entries : list (string * ptr)) :
  ∀ i acc σ,
    Forall (λ e, is_Some (deref σ e.2)) entries →
    (i + length entries ≤ length acc)%nat →
    ∃ qs σ1,
      All_loop entries i acc σ
      = Some (take i acc ++ (Some <$> qs) ++ drop (i + length entries) acc,
              σ1)
      ∧ store_ext σ σ1
      ∧ Forall2 (λ e q, copy_of σ σ1 e.2 q) entries qs
      ∧ NoDup qs.
Proof.
  induction entries as [|[k v] rest IH]; intros i acc σ Hv Hlen.
  - exists [], σ. simpl. rewrite Nat.add_0_r, take_drop.
    split_and!; [done|apply store_ext_refl|constructor|constructor].
  - apply Forall_cons in Hv as [Hv Hrest]. simpl in Hv, Hlen.
    destruct (Clone_ptr_total _ _ Hv) as [[q σ0] Hc]. simpl. rewrite Hc.
    simpl. rewrite bool_decide_eq_true_2 by lia.
    apply Clone_ptr_inv in Hc as (n & Hn & Hfresh & Hq & Hext & _).
    destruct (IH (S i) (<[i := Some q]> acc) σ0) as (qs & σ1 & -> & Hext1
      & Hcopies & Hnd).
    { eapply Forall_impl; [done|]. intros e He. simpl in *.
      by rewrite (store_ext_same σ σ0). }
    { rewrite length_insert. lia. }
    exists (q :: qs), σ1. split_and!.
    + f_equal. f_equal.
      rewrite (take_S_r _ _ (Some q))
        by (apply list_lookup_insert_eq; lia).
      rewrite take_insert_ge by lia. rewrite drop_insert_lt by lia.
      rewrite <- app_assoc. simpl.
      by replace (i + S (length rest))%nat with (S i + length rest)%nat
        by lia.
    + by eapply store_ext_trans.
    + constructor.
      * split; [done|]. simpl. by rewrite Hn, (Hext1 _ _ Hq).
      * by eapply copies_later.
    + constructor; [|done]. by eapply copies_fresh.
Qed.

Lemma GetByName_loop_spec name (entries : list (string * ptr)) :
  ∀ acc σ,
    Forall (λ e, is_Some (deref σ e.2)) entries →
    ∃ qs σ1,
      GetByName_loop name entries acc σ = Some (acc ++ qs, σ1)
      ∧ store_ext σ σ1
      ∧ Forall2 (λ e q, copy_of σ σ1 e.2 q)
                (filter (λ e, Name <$> deref σ e.2 = Some name) entries) qs
      ∧ NoDup qs.
Proof.
  induction entries as [|[k v] rest IH]; intros acc σ Hv.
  - exists [], σ. simpl. rewrite app_nil_r.
    split_and!; [done|apply store_ext_refl|constructor|constructor].
  - apply Forall_cons in Hv as [Hv Hrest]. simpl in Hv.
    destruct Hv as [m Hm]. cbn [GetByName_loop]. rewrite Hm. simpl.
    case_bool_decide as Hname.
    + destruct (Clone_ptr_total v σ) as [[q σ0] Hc]; [by eexists|].
      rewrite Hc. simpl.
      apply Clone_ptr_inv in Hc as (n & Hn & Hfresh & Hq & Hext & _).
      destruct (IH (acc ++ [q]) σ0) as (qs & σ1 & -> & Hext1 & Hcopies & Hnd).
      { eapply Forall_impl; [done|]. intros e He. simpl in *.
        by rewrite (store_ext_same σ σ0). }
      exists (q :: qs), σ1.
      assert (filter (λ e : string * ptr,
                        Name <$> deref σ0 e.2 = Some name) rest
              = filter (λ e, Name <$> deref σ e.2 = Some name) rest) as Hf.
      { clear -Hrest Hext. induction rest as [|e rest IH]; [done|].
        apply Forall_cons in Hrest as [He Hrest].
        rewrite !filter_cons, (store_ext_same σ σ0), IH by done. done. }
      rewrite Hf in Hcopies.
      split_and!.
      * by rewrite <- app_assoc.
      * by eapply store_ext_trans.
      * rewrite filter_cons_True
          by (simpl; rewrite Hm; simpl; by rewrite Hname).
        constructor.
        -- split; [done|]. simpl. by rewrite Hn, (Hext1 _ _ Hq).
        -- eapply copies_later; [done..| |done].
           apply Forall_forall. intros e [_ He]%list_elem_of_filter.
           rewrite Forall_forall in Hrest. by apply Hrest.
      * constructor; [|done]. by eapply copies_fresh.
    + destruct (IH acc σ Hrest) as (qs & σ1 & -> & Hext1 & Hcopies & Hnd).
      exists qs, σ1. split_and!; try done.
      rewrite filter_cons_False; [done|].
      simpl. rewrite Hm. simpl. congruence.
Qed.

Lemma count_name_length σ (ns : gmap string ptr) name :
  count_name (node_names σ ns) name
  = length (filter (λ e, Name <$> deref σ e.2 = Some name) (map_to_list ns)).
Proof.
  induction ns as [|k p ns Hk Hfirst IH] using map_first_key_ind.
  - unfold node_names.
    by rewrite omap_empty, count_name_empty, map_to_list_empty.
  - rewrite map_to_list_insert_first_key by done.
    assert (node_names σ ns !! k = None) as Hk'.
    { by rewrite node_names_lookup, Hk. }
    destruct (deref σ p) as [m|] eqn:Hm.
    + rewrite (node_names_insert _ _ _ _ _ Hm), count_name_insert by done.
      rewrite IH, filter_cons. simpl. rewrite Hm. simpl.
      destruct (decide (Name m = name)) as [->|Hne].
      * rewrite decide_True by done. simpl. lia.
      * rewrite decide_False by congruence. lia.
    + unfold node_names in *. rewrite omap_insert_None by (by rewrite Hm).
      rewrite delete_id by done. rewrite IH, filter_cons_False; [done|].
      simpl. by rewrite Hm.
Qed.

Lemma AllToMap_loop_spec (entries : list (string * ptr)) :
  ∀ acc σ,
    NoDup entries.*1 →
    Forall (λ e, is_Some (deref σ e.2)) entries →
    (∀ k q, acc !! k = Some q → is_Some (deref σ q)) →
    (∀ k k' q, acc !! k = Some q → acc !! k' = Some q → k = k') →
    ∃ r σ1,
      AllToMap_loop entries acc σ = Some (r, σ1)
      ∧ store_ext σ σ1
      ∧ (∀ k, k ∉ entries.*1 → r !! k = acc !! k)
      ∧ (∀ k p, (k, p) ∈ entries →
                ∃ q, r !! k = Some q ∧ copy_of σ σ1 p q)
      ∧ (∀ k q, r !! k = Some q → is_Some (deref σ1 q))
      ∧ (∀ k k' q, r !! k = Some q → r !! k' = Some q → k = k').
Proof.
  induction entries as [|[k v] rest IH]; intros acc σ Hnd Hv Halloc Hinj.
  - exists acc, σ. split_and!; try done; [apply store_ext_refl|].
    intros k p Hin. by apply elem_of_nil in Hin.
  - apply Forall_cons in Hv as [Hv Hrest]. simpl in Hv.
    apply NoDup_cons in Hnd as [Hk Hnd]. fold (fmap fst rest) in Hk, Hnd.
    destruct (Clone_ptr_total _ _ Hv) as [[q σ0] Hc]. simpl. rewrite Hc.
    simpl.
    apply Clone_ptr_inv in Hc as (n & Hn & Hfresh & Hq & Hext & _).
    destruct (IH (<[k := q]> acc) σ0) as (r & σ1 & -> & Hext1 & Hout & Hin
      & Halloc1 & Hinj1); [done| | | |].
    { eapply Forall_impl; [done|]. intros e He. simpl in *.
      by rewrite (store_ext_same σ σ0). }
    { intros k' q'. destruct (decide (k' = k)) as [->|Hne].
      - rewrite lookup_insert_eq. intros [= <-]. by eexists.
      - rewrite lookup_insert_ne by done. intros Hl.
        destruct (Halloc _ _ Hl) as [m Hm]. exists m. by apply Hext. }
    { intros k1 k2 q'.
      destruct (decide (k1 = k)) as [->|Hne1];
        destruct (decide (k2 = k)) as [->|Hne2]; [done|..].
      - rewrite lookup_insert_eq, lookup_insert_ne by done.
        intros [= <-] Hl. destruct (Halloc _ _ Hl) as [m Hm]. congruence.
      - rewrite lookup_insert_eq, lookup_insert_ne by done.
        intros Hl [= <-]. destruct (Halloc _ _ Hl) as [m Hm]. congruence.
      - rewrite !lookup_insert_ne by done. apply Hinj. }
    exists r, σ1. split_and!; try done.
    + by eapply store_ext_trans.
    + intros k' Hk'. apply not_elem_of_cons in Hk' as [Hne Hk'].
      rewrite Hout by done. by rewrite lookup_insert_ne.
    + intros k' p [[= -> ->]|Hin']%elem_of_cons.
      * exists q. rewrite Hout by done. rewrite lookup_insert_eq.
        split; [done|]. split; [done|]. by rewrite Hn, (Hext1 _ _ Hq).
      * destruct (Hin _ _ Hin') as (q' & Hr & Hcopy). exists q'.
        split; [done|]. eapply copy_of_later; [done..| |done].
        rewrite Forall_forall in Hrest. by apply (Hrest (k', p)).
Qed.

(** X10. In every reachable state, [All] returns (the index never goes
    out of range): the slice has [Size] entries, none of them nil, one
    for each node of the primary index in the order of the iteration,
    and each is a newly allocated copy of the stored Meta, no two the
    same pointer. *)
Theorem All_returns_copies (s : State R) :
  reachable_by any_op s →
  ∃ qs σ1,
    All (st_peer s) (st_store s) = Some (Some <$> qs, σ1)
    ∧ Z.of_nat (length qs) = Size (st_peer s)
    ∧ NoDup qs
    ∧ store_ext (st_store s) σ1
    ∧ Forall2 (λ e q, deref (st_store s) q = None
                      ∧ deref σ1 q = deref (st_store s) e.2)
              (map_to_list (nodes (st_peer s))) qs.
Proof.
  intros Hco%reachable_coherent.
  set (es := map_to_list (nodes (st_peer s))).
  assert (length es = size (nodes (st_peer s))) as Hlen.
  { apply length_map_to_list. }
  destruct (All_loop_spec es 0
              (replicate (Z.to_nat (Size (st_peer s))) None) (st_store s))
    as (qs & σ1 & HA & Hext & Hcopies & Hnd).
  { apply Forall_forall. intros [k p] Hin%elem_of_map_to_list.
    destruct (Hco _ _ Hin) as (m & Hm & _). by eexists. }
  { rewrite length_replicate. unfold Size. lia. }
  exists qs, σ1. split_and!; try done.
  - unfold All. fold es. rewrite HA. f_equal. f_equal.
    rewrite drop_ge, app_nil_r; [done|].
    rewrite length_replicate. unfold Size. lia.
  - apply Forall2_length in Hcopies. unfold Size. lia.
Qed.

(** X11. In every reachable state, [AllToMap] returns a map with the
    keys of the primary index; the pointer under a key is a newly
    allocated copy of the Meta stored under that key, and no two keys
    share a pointer. *)
Theorem AllToMap_returns_copies (s : State R) :
  reachable_by any_op s →
  ∃ r σ1,
    AllToMap (st_peer s) (st_store s) = Some (r, σ1)
    ∧ store_ext (st_store s) σ1
    ∧ dom r = dom (nodes (st_peer s))
    ∧ (∀ k p, nodes (st_peer s) !! k = Some p →
              ∃ q, r !! k = Some q
                   ∧ deref (st_store s) q = None
                   ∧ deref σ1 q = deref (st_store s) p)
    ∧ (∀ k k' q, r !! k = Some q → r !! k' = Some q → k = k').
Proof.
  intros Hco%reachable_coherent.
  destruct (AllToMap_loop_spec (map_to_list (nodes (st_peer s))) ∅
              (st_store s))
    as (r & σ1 & HA & Hext & Hout & Hin & _ & Hinj); [| |done|done|].
  { apply NoDup_fst_map_to_list. }
  { apply Forall_forall. intros [k p] Hin%elem_of_map_to_list.
    destruct (Hco _ _ Hin) as (m & Hm & _). by eexists. }
  exists r, σ1. split_and!; try done.
  - apply set_eq. intros k. rewrite !elem_of_dom.
    destruct (nodes (st_peer s) !! k) as [p|] eqn:Hk.
    + apply elem_of_map_to_list in Hk.
      destruct (Hin _ _ Hk) as (q & -> & _). split; by eauto.
    + rewrite Hout, lookup_empty; [done|].
      intros ((k' & p) & -> & Hin')%list_elem_of_fmap.
      apply elem_of_map_to_list in Hin'. simpl in Hk. congruence.
  - intros k p Hk%elem_of_map_to_list. by apply Hin.
Qed.

(** X12. In every reachable state (the lists given to [Sync] being free
    of duplicate ids), [GetByName] returns as many pointers as
    [SizeByName] says: one newly allocated copy for each node of the
    primary index that carries the name, in the order of the iteration,
    no two the same pointer. *)
Theorem GetByName_returns_copies (s : State R) (name : string) :
  reachable_by nodup_syncs s →
  ∃ qs σ1,
    GetByName name (st_peer s) (st_store s) = Some (qs, σ1)
    ∧ Z.of_nat (length qs) = SizeByName name (st_peer s)
    ∧ NoDup qs
    ∧ store_ext (st_store s) σ1
    ∧ Forall2 (λ e q, deref (st_store s) q = None
                      ∧ deref σ1 q = deref (st_store s) e.2)
              (filter (λ e, Name <$> deref (st_store s) e.2 = Some name)
                      (map_to_list (nodes (st_peer s)))) qs.
Proof.
  intros (Hco & Hc & _)%reachable_nodup_registry_ok.
  assert (SizeByName name (st_peer s)
          = Z.of_nat (length (filter
              (λ e, Name <$> deref (st_store s) e.2 = Some name)
              (map_to_list (nodes (st_peer s)))))) as Hsize.
  { rewrite <- count_name_length. unfold SizeByName. rewrite (Hc name).
    case_decide as Hz; simpl; [by rewrite Hz|done]. }
  unfold GetByName. case_bool_decide as Hlt.
  - exists [], (st_store s).
    assert (filter (λ e, Name <$> deref (st_store s) e.2 = Some name)
                   (map_to_list (nodes (st_peer s))) = []) as Hnil.
    { apply length_zero_iff_nil. lia. }
    rewrite Hnil.
    split_and!; [done|simpl; lia|constructor|apply store_ext_refl
                 |constructor].
  - destruct (GetByName_loop_spec name (map_to_list (nodes (st_peer s))) []
                (st_store s))
      as (qs & σ1 & HG & Hext & Hcopies & Hnd).
    { apply Forall_forall. intros [k p] Hin%elem_of_map_to_list.
      destruct (Hco _ _ Hin) as (m & Hm & _). by eexists. }
    exists qs, σ1. split_and!; try done.
    apply Forall2_length in Hcopies. lia.
Qed.
End Copies.

(** ** Pools, stream contexts and client streams along a run *)

Section Transport.
Context {R : Type} `{HashRing R}.

Lemma makeGrpcPool_keeps env id addr (peer peer1 : LocalPeer R) r k p :
  makeGrpcPool env id addr peer = (r, peer1) →
  grpcPool peer !! k = Some p → grpcPool peer1 !! k = Some p.
Proof.
  unfold makeGrpcPool. destruct (grpcPool peer !! id) as [p0|] eqn:Hid.
  { by intros [= _ <-]. }
  destruct (rpc_pool_New env); intros [= _ <-]; [done|]. simpl.
  intros Hk. rewrite lookup_insert_ne; [done|]. congruence.
Qed.

Lemma Send_keeps env node inp (peer peer1 : LocalPeer R) σ r :
  Send env node inp peer σ = Some (r, peer1) →
  (∀ k p, grpcPool peer !! k = Some p → grpcPool peer1 !! k = Some p)
  ∧ grpcStreamCancelFn peer1 = grpcStreamCancelFn peer.
Proof.
  unfold Send. destruct (deref σ node) as [m|]; simpl; [|done].
  destruct (makeGrpcPool env (Id m) (Addr m) peer) as [p peer0] eqn:Hmk.
  pose proof (λ k p, makeGrpcPool_keeps _ _ _ _ _ _ k p Hmk) as Hkeep.
  apply makeGrpcPool_inv in Hmk as (_ & _ & _ & _ & Hc & _).
  intros Hres. assert (peer1 = peer0) as ->; [|done].
  destruct p; [destruct (rpc_pool_Get env); [|destruct (rpc_Call env)]|];
    by injection Hres.
Qed.

Lemma SendStream_keeps env c clientId node inp md
    (peer peer1 : LocalPeer R) σ net net1 r :
  SendStream env c clientId node inp md peer σ net = Some (r, peer1, net1) →
  (∀ k p, grpcPool peer !! k = Some p → grpcPool peer1 !! k = Some p)
  ∧ (∀ k x, grpcStreamCancelFn peer !! k = Some x →
            grpcStreamCancelFn peer1 !! k = Some x).
Proof.
  unfold SendStream. destruct (grpcStreams peer !! clientId) as [h|].
  { destruct (stream_Send h inp net); simpl; [|done]. by intros [= _ <- _]. }
  destruct (deref σ node) as [m|]; simpl; [|done].
  destruct (makeGrpcPool env (Id m) (Addr m) peer) as [p peer0] eqn:Hmk.
  pose proof (λ k p, makeGrpcPool_keeps _ _ _ _ _ _ k p Hmk) as Hkeep.
  apply makeGrpcPool_inv in Hmk as (_ & _ & _ & _ & Hc & _).
  destruct p as [p|e]; [|intros [= _ <- _]; by rewrite Hc].
  destruct (rpc_pool_Get env) as [e|]; [intros [= _ <- _]; by rewrite Hc|].
  destruct (grpcStreamCancelFn peer0 !! Id m) as [ctxS|] eqn:Hctx;
    destruct (rpc_Stream env) as [answers|e1];
    try (case_bool_decide; [done|]); intros [= _ <- _]; simpl;
    (split; [done|]); rewrite <- Hc; try done;
    intros k x Hk; (rewrite lookup_insert_ne; [done|congruence]).
Qed.

(** X13. Whatever the call, a channel pool or a stream context that is
    stored under an id is afterwards either still stored under it,
    unchanged, or gone with its [Close] (its [cancel]) among the effects
    of the call; and the call closes no pool and cancels no context but
    one that was stored and is no longer. *)
Theorem transport_released_when_dropped (op : Op) (s s1 : State R)
    (id : string) :
  exec op s = Some s1 →
  (∀ p, grpcPool (st_peer s) !! id = Some p →
        grpcPool (st_peer s1) !! id = Some p
        ∨ (grpcPool (st_peer s1) !! id = None
           ∧ PoolClosed id p ∈ new_effects s s1))
  ∧ (∀ x, grpcStreamCancelFn (st_peer s) !! id = Some x →
          grpcStreamCancelFn (st_peer s1) !! id = Some x
          ∨ (grpcStreamCancelFn (st_peer s1) !! id = None
             ∧ CtxCancelled id x ∈ new_effects s s1))
  ∧ (∀ p, PoolClosed id p ∈ new_effects s s1 →
          grpcPool (st_peer s) !! id = Some p
          ∧ grpcPool (st_peer s1) !! id = None)
  ∧ (∀ x, CtxCancelled id x ∈ new_effects s s1 →
          grpcStreamCancelFn (st_peer s) !! id = Some x
          ∧ grpcStreamCancelFn (st_peer s1) !! id = None).
Proof.
  intros Hex. unfold new_effects.
  destruct s as [σ peer net effs]. destruct op; simpl in *.
  1-6: repeat match goal with
       | H : (?x ≫= _) = Some _ |- _ =>
           destruct x as [?r|]; simpl in H; [|done]
       end;
       injection Hex as <-; simpl; rewrite drop_all;
       split_and!; intros ?; rewrite ?elem_of_nil; by eauto.
  - destruct (Sync l peer σ) as [[peer1 eff]|] eqn:HS; simpl in Hex; [|done].
    injection Hex as <-. simpl. rewrite drop_app_length.
    destruct (Sync_inv _ _ _ _ _ HS) as (acc & _ & _ & _ & _ & _ & _ & _ & Hp).
    pose proof (sync_purge_pools (nodeMap acc) (map_to_list (nodes peer)).*1
                  (grpcPool peer, grpcStreamCancelFn peer, []) id) as Hpool.
    pose proof (sync_purge_cancels (nodeMap acc)
                  (map_to_list (nodes peer)).*1
                  (grpcPool peer, grpcStreamCancelFn peer, []) id) as Hctx.
    pose proof (λ p, sync_purge_closed (nodeMap acc)
                  (map_to_list (nodes peer)).*1
                  (grpcPool peer, grpcStreamCancelFn peer, []) id p) as Hcl.
    pose proof (λ x, sync_purge_cancelled (nodeMap acc)
                  (map_to_list (nodes peer)).*1
                  (grpcPool peer, grpcStreamCancelFn peer, []) id x) as Hca.
    rewrite <- Hp in Hpool, Hctx, Hcl, Hca. simpl in Hpool, Hctx, Hcl, Hca.
    rewrite Hpool, Hctx.
    destruct (bool_decide (id ∈ (map_to_list (nodes peer)).*1)) eqn:Hin;
      destruct (default false (nodeMap acc !! id)) eqn:Hnm; simpl.
    all: try apply bool_decide_eq_true in Hin.
    all: try apply bool_decide_eq_false in Hin.
    all: split_and!; intros y; rewrite ?Hcl, ?Hca, ?elem_of_nil;
      intuition (simplify_eq; eauto; congruence).
  - destruct (Delete id0 peer σ) as [[peer1 eff]|] eqn:HD;
      simpl in Hex; [|done].
    injection Hex as <-. simpl. rewrite drop_app_length.
    destruct (Delete_inv _ _ _ _ _ HD) as (Hp & _).
    pose proof (purge_pools id0 (grpcPool peer, grpcStreamCancelFn peer, [])
                  id) as Hpool.
    pose proof (purge_cancels id0
                  (grpcPool peer, grpcStreamCancelFn peer, []) id) as Hctx.
    pose proof (λ p, purge_closed id0
                  (grpcPool peer, grpcStreamCancelFn peer, []) id p) as Hcl.
    pose proof (λ x, purge_cancelled id0
                  (grpcPool peer, grpcStreamCancelFn peer, []) id x) as Hca.
    rewrite <- Hp in Hpool, Hctx, Hcl, Hca. simpl in Hpool, Hctx, Hcl, Hca.
    rewrite Hpool, Hctx.
    destruct (decide (id0 = id)) as [->|Hne].
    all: split_and!; intros y; rewrite ?Hcl, ?Hca, ?elem_of_nil;
      intuition (simplify_eq; eauto; congruence).
  - destruct (Update id0 status peer σ) as [[peer1 σ1]|] eqn:HU;
      simpl in Hex; [|done].
    injection Hex as <-. simpl. rewrite drop_all.
    destruct (Update_inv _ _ _ _ _ _ HU) as (_ & _ & _ & -> & _ & -> & _).
    split_and!; intros ?; rewrite ?elem_of_nil; by eauto.
  - injection Hex as <-. simpl. rewrite drop_app_length, !lookup_empty.
    assert (∀ p, PoolClosed id p
                 ∈ (uncurry PoolClosed <$> map_to_list (grpcPool peer))
                   ++ (uncurry CtxCancelled
                         <$> map_to_list (grpcStreamCancelFn peer))
                 ↔ grpcPool peer !! id = Some p) as Hcl.
    { intros p. rewrite elem_of_app, !list_elem_of_fmap. split.
      - intros [([k y] & Heq & Hin)|([k y] & Heq & _)]; [|done].
        simpl in Heq. injection Heq as <- <-.
        by apply elem_of_map_to_list.
      - intros Hp. left. exists (id, p). split; [done|].
        by apply elem_of_map_to_list. }
    assert (∀ x, CtxCancelled id x
                 ∈ (uncurry PoolClosed <$> map_to_list (grpcPool peer))
                   ++ (uncurry CtxCancelled
                         <$> map_to_list (grpcStreamCancelFn peer))
                 ↔ grpcStreamCancelFn peer !! id = Some x) as Hca.
    { intros x. rewrite elem_of_app, !list_elem_of_fmap. split.
      - intros [([k y] & Heq & _)|([k y] & Heq & Hin)]; [done|].
        simpl in Heq. injection Heq as <- <-.
        by apply elem_of_map_to_list.
      - intros Hp. right. exists (id, x). split; [done|].
        by apply elem_of_map_to_list. }
    split_and!; intros y; rewrite ?Hcl, ?Hca; by eauto.
  - destruct (Send env node inp peer σ) as [[r peer1]|] eqn:HS;
      simpl in Hex; [|done].
    injection Hex as <-. simpl. rewrite drop_all.
    apply Send_keeps in HS as [Hk ->].
    split_and!; intros ?; rewrite ?elem_of_nil; by eauto.
  - destruct (SendStream env c clientId node inp md peer σ net)
      as [[[r peer1] net1]|] eqn:HS; simpl in Hex; [|done].
    injection Hex as <-. simpl. rewrite drop_all.
    apply SendStream_keeps in HS as [Hk Hc].
    split_and!; intros ?; rewrite ?elem_of_nil; by eauto.
  - destruct (run_task sel i peer net) as [[[ex peer1] net1]|] eqn:HT;
      simpl in Hex; [|done].
    injection Hex as <-. simpl. rewrite drop_all.
    apply run_task_inv in HT as (_ & _ & _ & -> & ->).
    split_and!; intros ?; rewrite ?elem_of_nil; by eauto.
Qed.

Lemma run_task_shape sel i (peer peer1 : LocalPeer R) net net1 ex :
  run_task sel i peer net = Some (ex, peer1, net1) →
  ∃ t s ch s2 ch1,
    tasks net !! i = Some t
    ∧ streams net !! task_stream t = Some s
    ∧ chans net !! task_chan t = Some ch
    ∧ streams net1 = <[task_stream t := s2]> (streams net)
    ∧ chans net1 = <[task_chan t := ch1]> (chans net)
    ∧ tasks net1 = delete i (tasks net)
    ∧ grpcStreams peer1 = delete (task_clientId t) (grpcStreams peer)
    ∧ ch_cap ch1 = ch_cap ch ∧ ch_closed ch1 = true
    ∧ ((ch_buf ch1 = ch_buf ch ∧ ch_taken ch1 = ch_taken ch)
       ∨ (∃ out, ch_buf ch1 = ch_buf ch ++ [out]
                 ∧ ch_taken ch1 = ch_taken ch
                 ∧ Z.of_nat (length (ch_buf ch)) < ch_cap ch)
       ∨ (∃ out, ch_buf ch1 = ch_buf ch
                 ∧ ch_taken ch1 = ch_taken ch ++ [out])).
Proof.
  unfold run_task.
  destruct (tasks net !! i) as [t|] eqn:Ht; simpl; [|done].
  destruct (streams net !! task_stream t) as [s|] eqn:Hs; simpl; [|done].
  destruct (chans net !! task_chan t) as [ch|] eqn:Hch; simpl; [|done].
  destruct (cs_incoming s) as [|r rest]; [done|].
  destruct r as [out|e].
  - destruct (task_select sel out ch _) as [[ex0 ch1] s2] eqn:Hsel.
    intros [= <- <- <-]. exists t, s, ch. eexists _, _.
    split_and!; try done; simpl.
    + unfold task_select in Hsel.
      destruct (sel_receiver sel) eqn:Hrecv; simpl in Hsel;
        [destruct (sel_ctx_done sel); [destruct (sel_pick_done sel)|];
         by injection Hsel as _ <- _|].
      case_bool_decide; destruct (sel_ctx_done sel);
        try destruct (sel_pick_done sel); by injection Hsel as _ <- _.
    + unfold task_select in Hsel.
      destruct (sel_receiver sel) eqn:Hrecv; simpl in Hsel;
        [destruct (sel_ctx_done sel); [destruct (sel_pick_done sel)|];
         injection Hsel as _ <- _; simpl;
         first [ by left | right; right; by eexists ]|].
      case_bool_decide; destruct (sel_ctx_done sel);
        try destruct (sel_pick_done sel); injection Hsel as _ <- _; simpl;
        first [ by left | right; left; by eexists ].
  - intros [= <- <- <-]. exists t, s, ch. eexists _, _.
    split_and!; try done. by left.
Qed.

Lemma run_task_net sel i (peer peer1 : LocalPeer R) net net1 ex :
  run_task sel i peer net = Some (ex, peer1, net1) →
  net_ok net → client_streams_ok peer net →
  net_ok net1 ∧ client_streams_ok peer1 net1.
Proof.
  intros (t & s & ch & s2 & ch1 & Ht & Hs & Hch & Hs1 & Hc1 & Ht1 & Hg
          & Hcap & Hclosed & Hbuf)%run_task_shape (Hchans & Htasks & Hnd) Hcs.
  assert (∀ h, is_Some (streams net !! h) → is_Some (streams net1 !! h))
    as Hkeep.
  { intros h. rewrite Hs1, !lookup_lt_is_Some. by rewrite length_insert. }
  split; [split_and!|].
  - rewrite Hc1. apply Forall_insert; [done|].
    rewrite Forall_forall in Hchans.
    destruct (Hchans ch) as [Hpos Hlen].
    { by eapply list_elem_of_lookup_2. }
    unfold chan_ok. rewrite Hcap. split; [done|].
    destruct Hbuf as [[-> _]|[(out & -> & _ & Hlt)|(out & -> & _)]];
      [done| |done].
    rewrite length_app. simpl. lia.
  - rewrite Ht1. rewrite delete_take_drop.
    rewrite <- (take_drop_middle _ _ _ Ht) in Htasks, Hnd.
    rewrite fmap_app, fmap_cons in Hnd.
    apply NoDup_app in Hnd as (_ & Hfront & Hback).
    apply NoDup_cons in Hback as [Hback _].
    apply Forall_app in Htasks as [Hpre Hpost].
    apply Forall_cons in Hpost as [_ Hpost].
    assert (∀ t', task_ok net t' → task_chan t' ≠ task_chan t →
                  task_ok net1 t') as Hok.
    { intros t' (s' & ch' & Hs' & Hch' & Hopen) Hne.
      destruct (Hkeep (task_stream t')) as [s1' Hs1']; [by eexists|].
      exists s1', ch'. split_and!; try done.
      rewrite Hc1. by rewrite list_lookup_insert_ne. }
    apply Forall_app. split.
    + apply Forall_forall. intros t' Hin. apply Hok.
      * rewrite Forall_forall in Hpre. by apply Hpre.
      * intros Heq. apply (Hfront (task_chan t')).
        -- apply list_elem_of_fmap. by exists t'.
        -- rewrite Heq. apply elem_of_cons. by left.
    + apply Forall_forall. intros t' Hin. apply Hok.
      * rewrite Forall_forall in Hpost. by apply Hpost.
      * intros Heq. apply Hback. rewrite <- Heq.
        apply list_elem_of_fmap. by exists t'.
  - rewrite Ht1, list_fmap_delete.
    eapply sublist_NoDup; [exact Hnd|]. apply sublist_delete.
  - intros clientId h. rewrite Hg.
    intros [_ Hl]%lookup_delete_Some. apply Hkeep. by eapply Hcs.
Qed.

Lemma SendStream_net env c clientId node inp md (peer peer1 : LocalPeer R)
    σ net net1 r :
  SendStream env c clientId node inp md peer σ net = Some (r, peer1, net1) →
  net_ok net → client_streams_ok peer net →
  net_ok net1 ∧ client_streams_ok peer1 net1.
Proof.
  intros HS (Hchans & Htasks & Hnd) Hcs. unfold SendStream in HS.
  destruct (grpcStreams peer !! clientId) as [h|] eqn:Hh.
  { destruct (Hcs _ _ Hh) as [s Hs].
    destruct (stream_Send_inv h inp net s Hs)
      as (net0 & HS0 & Hl & Hother & Hc & Ht).
    rewrite HS0 in HS. simpl in HS. injection HS as _ <- <-.
    assert (∀ h', is_Some (streams net !! h') →
                  is_Some (streams net0 !! h')) as Hkeep.
    { intros h' Hsome. destruct (decide (h' = h)) as [->|Hne].
      - by rewrite Hl.
      - by rewrite Hother. }
    split; [split_and!|].
    - by rewrite Hc.
    - rewrite Ht. eapply Forall_impl; [done|].
      intros t (s' & ch' & Hs' & Hch' & Hopen).
      destruct (Hkeep (task_stream t)) as [s1' Hs1']; [by eexists|].
      exists s1', ch'. by rewrite Hc.
    - by rewrite Ht.
    - intros cid h' Hl'. apply Hkeep. by eapply Hcs. }
  destruct (deref σ node) as [m|]; simpl in HS; [|done].
  destruct (makeGrpcPool env (Id m) (Addr m) peer) as [p peer0] eqn:Hmk.
  apply makeGrpcPool_inv in Hmk as (_ & _ & _ & Hg & _).
  assert (client_streams_ok peer0 net) as Hcs0.
  { intros cid h. rewrite Hg. apply Hcs. }
  destruct p as [p|e]; [|by injection HS as _ <- <-].
  destruct (rpc_pool_Get env) as [e|]; [by injection HS as _ <- <-|].
  destruct (rpc_Stream env) as [answers|e1].
  2: { destruct (grpcStreamCancelFn peer0 !! Id m);
         by injection HS as _ <- <-. }
  assert (¬ MessageQueueSize (options peer0) < 0
          ∧ ∃ c1,
            grpcStreams peer1 = <[clientId := length (streams net)]>
                                  (grpcStreams peer0)
            ∧ net1 = mkNet
                (streams net ++ [mkClientStream c1 [inp] answers false])
                (chans net
                 ++ [mkChan (MessageQueueSize (options peer0)) [] [] false])
                (tasks net
                 ++ [mkTask clientId (length (streams net))
                            (length (chans net))])
                (warnings net)) as (Hneg & c1 & Hg1 & ->).
  { destruct (grpcStreamCancelFn peer0 !! Id m); simpl in HS;
      case_bool_decide; try done; injection HS as _ <- <-;
      (split; [done|]); by eexists. }
  split; [split_and!|]; simpl.
  - apply Forall_app. split; [done|]. apply Forall_singleton.
    unfold chan_ok. simpl. lia.
  - apply Forall_app. split.
    + eapply Forall_impl; [done|].
      intros t (s' & ch' & Hs' & Hch' & Hopen). exists s', ch'. simpl.
      split_and!; [by apply lookup_app_l_Some|by apply lookup_app_l_Some
                   |done].
    + apply Forall_singleton. eexists _, _. simpl. split_and!.
      * rewrite lookup_app_r by lia. by rewrite Nat.sub_diag.
      * rewrite lookup_app_r by lia. by rewrite Nat.sub_diag.
      * done.
  - rewrite fmap_app. apply NoDup_app. split_and!; [done| |].
    + intros ch (t & -> & Hin)%list_elem_of_fmap.
      rewrite Forall_forall in Htasks.
      destruct (Htasks t Hin) as (s' & ch' & _ & Hch' & _).
      apply lookup_lt_Some in Hch'. simpl.
      rewrite list_elem_of_singleton. lia.
    + simpl. apply NoDup_singleton.
  - intros cid h. rewrite Hg1. destruct (decide (cid = clientId)) as [->|Hne].
    + rewrite lookup_insert_eq. intros [= <-]. simpl.
      rewrite lookup_app_r by lia. rewrite Nat.sub_diag. by eexists.
    + rewrite lookup_insert_ne by done. intros Hl. simpl.
      destruct (Hcs0 _ _ Hl) as [s' Hs']. exists s'.
      by apply lookup_app_l_Some.
Qed.

Lemma net_step op (s s1 : State R) :
  exec op s = Some s1 →
  net_ok (st_net s) ∧ client_streams_ok (st_peer s) (st_net s) →
  net_ok (st_net s1) ∧ client_streams_ok (st_peer s1) (st_net s1).
Proof.
  intros Hex [Hnet Hcs]. destruct s as [σ peer net effs].
  destruct op; simpl in *.
  1-6: repeat match goal with
       | H : (?x ≫= _) = Some _ |- _ =>
           destruct x as [?r|]; simpl in H; [|done]
       end;
       by injection Hex as <-.
  - destruct (Sync l peer σ) as [[peer1 eff]|] eqn:HS; simpl in Hex; [|done].
    injection Hex as <-. simpl. split; [done|].
    destruct (Sync_inv _ _ _ _ _ HS) as (acc & _ & _ & _ & _ & Hg & _).
    intros cid h. rewrite Hg. apply Hcs.
  - destruct (Delete id peer σ) as [[peer1 eff]|] eqn:HD;
      simpl in Hex; [|done].
    injection Hex as <-. simpl. split; [done|].
    destruct (Delete_inv _ _ _ _ _ HD) as (_ & Hg & _).
    intros cid h. rewrite Hg. apply Hcs.
  - destruct (Update id status peer σ) as [[peer1 σ1]|] eqn:HU;
      simpl in Hex; [|done].
    injection Hex as <-. simpl. split; [done|].
    destruct (Update_inv _ _ _ _ _ _ HU) as (_ & _ & _ & _ & Hg & _).
    intros cid h. rewrite Hg. apply Hcs.
  - by injection Hex as <-.
  - destruct (Send env node inp peer σ) as [[r peer1]|] eqn:HS;
      simpl in Hex; [|done].
    injection Hex as <-. simpl. split; [done|].
    apply Send_registry in HS as (_ & _ & _ & Hg).
    intros cid h. rewrite Hg. apply Hcs.
  - destruct (SendStream env c clientId node inp md peer σ net)
      as [[[r peer1] net1]|] eqn:HS; simpl in Hex; [|done].
    injection Hex as <-. simpl. by eapply SendStream_net.
  - destruct (run_task sel i peer net) as [[[ex peer1] net1]|] eqn:HT;
      simpl in Hex; [|done].
    injection Hex as <-. simpl. by eapply run_task_net.
Qed.

Lemma reachable_net_ok (s : State R) :
  reachable_by any_op s →
  net_ok (st_net s) ∧ client_streams_ok (st_peer s) (st_net s).
Proof.
  induction 1 as [c opts|s op s1 _ IH _ Hex].
  - split; [split_and!; simpl; constructor|]. intros cid h. simpl.
    by rewrite lookup_empty.
  - by eapply net_step.
Qed.

(** X14. In every state that calls of the peer reach: the buffer of
    every channel is within its capacity; every goroutine that has not
    run yet holds a stream of the process and a channel that is still
    open, and no two of them hold the same channel, so that neither the
    offer [ch <- out] nor the deferred [close(ch)] meets a closed
    channel; and every registered client stream is a stream of the
    process. *)
Theorem goroutine_channels_open (s : State R) :
  reachable_by any_op s →
  net_ok (st_net s) ∧ client_streams_ok (st_peer s) (st_net s).
Proof. apply reachable_net_ok. Qed.

(** X15. [Sync], [Delete], [Update] and [Reset] leave the registered
    client streams alone, whatever they remove: when a stream is
    registered under [clientId] in a reachable state, then after any of
    the four calls the next [SendStream] under [clientId] is handed to
    that same stream, without a look at the node it is given, and
    creates nothing. *)
Theorem client_streams_outlive_registry (s s1 : State R) (op : Op)
    (clientId : string) (h : nat) env c node inp md :
  reachable_by any_op s →
  grpcStreams (st_peer s) !! clientId = Some h →
  registry_op op s →
  exec op s = Some s1 →
  ∃ s0 net1,
    streams (st_net s) !! h = Some s0
    ∧ SendStream env c clientId node inp md (st_peer s1) (st_store s1)
                 (st_net s1)
      = Some (mkSendStreamResult false None (rpc_Send env), st_peer s1, net1)
    ∧ streams net1 !! h
      = Some (mkClientStream (cs_ctx s0) (cs_sent s0 ++ [inp])
                             (cs_incoming s0) (cs_closeSend s0))
    ∧ chans net1 = chans (st_net s) ∧ tasks net1 = tasks (st_net s).
Proof.
  intros [_ Hcs]%reachable_net_ok Hh Hop Hex.
  destruct (Hcs _ _ Hh) as [s0 Hs0].
  assert (grpcStreams (st_peer s1) = grpcStreams (st_peer s)
          ∧ st_net s1 = st_net s) as [Hg Hnet].
  { destruct s as [σ peer net effs]. destruct op; simpl in *; try done.
    - by injection Hex as <-.
    - by injection Hex as <-.
    - destruct (Sync l peer σ) as [[peer1 eff]|] eqn:HS;
        simpl in Hex; [|done].
      injection Hex as <-. simpl.
      by destruct (Sync_inv _ _ _ _ _ HS) as (acc & _ & _ & _ & _ & Hg & _).
    - destruct (Delete id peer σ) as [[peer1 eff]|] eqn:HD;
        simpl in Hex; [|done].
      injection Hex as <-. simpl.
      by destruct (Delete_inv _ _ _ _ _ HD) as (_ & Hg & _).
    - destruct (Update id status peer σ) as [[peer1 σ1]|] eqn:HU;
        simpl in Hex; [|done].
      injection Hex as <-. simpl.
      by destruct (Update_inv _ _ _ _ _ _ HU) as (_ & _ & _ & _ & Hg & _).
    - by injection Hex as <-. }
  rewrite <- Hnet in Hs0.
  destruct (stream_Send_inv h inp (st_net s1) s0 Hs0)
    as (net1 & HS & Hl & _ & Hc & Ht).
  exists s0, net1. rewrite <- Hnet. split_and!; try done.
  unfold SendStream. rewrite Hg, Hh, HS. done.
Qed.




(** X21. A new stream runs under the stream context of its node, not
    under the context of the call: when no stream is registered under
    the client id and the pool and the connection are obtained,
    [SendStream] keeps the context stored for the id of the node, or
    stores one derived from the context of the call when there is none,
    and the stream it opens has that stored context, with the metadata
    added. The pool and the context stay stored when the server stream
    cannot be opened. *)
Theorem SendStream_shares_context env (c : Context) (clientId : string)
    (node : ptr) (inp : Envelope) (md : MD) (peer : LocalPeer R)
    (σ : Store) (net : Net) (m : Meta) :
  grpcStreams peer !! clientId = None →
  deref σ node = Some m →
  (grpcPool peer !! Id m = None → rpc_pool_New env = None) →
  rpc_pool_Get env = None →
  0 ≤ MessageQueueSize (options peer) →
  let x := default (mkStreamContext (WithCancel c))
                   (grpcStreamCancelFn peer !! Id m) in
  ∃ r peer1 net1,
    SendStream env c clientId node inp md peer σ net = Some (r, peer1, net1)
    ∧ grpcStreamCancelFn peer1 = <[Id m := x]> (grpcStreamCancelFn peer)
    ∧ is_Some (grpcPool peer1 !! Id m)
    ∧ match rpc_Stream env with
      | inl answers =>
          sr_created r = true
          ∧ ∃ h, grpcStreams peer1 !! clientId = Some h
                 ∧ streams net1 !! h
                   = Some (mkClientStream (NewOutgoingContext (sc_ctx x) md)
                                          [inp] answers false)
      | inr e =>
          r = mkSendStreamResult false None (Some e)
          ∧ net1 = net ∧ grpcStreams peer1 = grpcStreams peer
      end.
Proof.
  intros Hcid Hm Hnew Hget Hq. cbv zeta. unfold SendStream.
  rewrite Hcid, Hm. simpl.
  destruct (makeGrpcPool env (Id m) (Addr m) peer) as [p peer0] eqn:Hmk.
  assert (∃ p0, p = inl p0 ∧ grpcPool peer0 !! Id m = Some p0
                ∧ grpcStreamCancelFn peer0 = grpcStreamCancelFn peer
                ∧ grpcStreams peer0 = grpcStreams peer
                ∧ options peer0 = options peer)
    as (p0 & -> & Hp0 & Hc0 & Hs0 & Ho0).
  { unfold makeGrpcPool in Hmk.
    destruct (grpcPool peer !! Id m) as [p1|] eqn:Hp1.
    - injection Hmk as <- <-. by exists p1.
    - rewrite (Hnew eq_refl) in Hmk. injection Hmk as <- <-.
      eexists. split_and!; try done. simpl. by rewrite lookup_insert_eq. }
  rewrite Hget, Hc0, Ho0.
  rewrite bool_decide_eq_false_2 by lia.
  destruct (grpcStreamCancelFn peer !! Id m) as [x|] eqn:Hx; simpl;
    destruct (rpc_Stream env) as [answers|e]; simpl;
    eexists _, _, _; (split; [reflexivity|]); simpl;
    rewrite ?Hc0, ?lookup_insert_eq;
    split_and!; try done;
    try (symmetry; by apply insert_id);
    try (by eexists);
    eexists; (split; [reflexivity|]);
    rewrite lookup_app_r by lia; by rewrite Nat.sub_diag.
Qed.
End Transport.

(** ** Reset, the order of a list, and the Metas a caller holds *)

Section Composition.
Context {R : Type} `{HashRing R}.

Lemma last_with_id_unique σ id l p :
  NoDup (ids_of σ l) → p ∈ l → Id <$> deref σ p = Some id →
  last_with_id σ id l = Some p.
Proof.
  induction l as [|p0 l IH]; intros Hnd Hin Hid.
  { by apply elem_of_nil in Hin. }
  unfold ids_of in Hnd. simpl in Hnd. fold (ids_of σ l) in Hnd. simpl.
  apply elem_of_cons in Hin as [->|Hin].
  - rewrite Hid in Hnd. simpl in Hnd. apply NoDup_cons in Hnd as [Hout _].
    destruct (last_with_id σ id l) as [q|] eqn:Hlast.
    + exfalso. apply Hout. apply last_with_id_is_Some. by eexists.
    + by rewrite bool_decide_eq_true_2.
  - assert (NoDup (ids_of σ l)) as Hnd'.
    { destruct (Id <$> deref σ p0); simpl in Hnd; [|done].
      by apply NoDup_cons in Hnd as [_ ?]. }
    by rewrite (IH Hnd' Hin Hid).
Qed.

Lemma ids_of_Permutation σ l l' : l ≡ₚ l' → ids_of σ l ≡ₚ ids_of σ l'.
Proof.
  unfold ids_of. induction 1 as [|p l1 l2 _ IH|p q l1|l1 l2 l3 _ IH1 _ IH2];
    simpl.
  - done.
  - destruct (Id <$> deref σ p); simpl; [by constructor|done].
  - destruct (Id <$> deref σ p); destruct (Id <$> deref σ q); simpl;
      try done. apply perm_swap.
  - by etrans.
Qed.

Lemma last_with_id_Permutation σ id l l' :
  NoDup (ids_of σ l) → l ≡ₚ l' →
  last_with_id σ id l = last_with_id σ id l'.
Proof.
  intros Hnd Hperm.
  assert (NoDup (ids_of σ l')) as Hnd'.
  { by rewrite <- (ids_of_Permutation σ _ _ Hperm). }
  destruct (last_with_id σ id l) as [p|] eqn:Hl.
  - apply last_with_id_Some in Hl as [Hin Hid]. symmetry.
    apply last_with_id_unique; [done| |done]. by rewrite <- Hperm.
  - destruct (last_with_id σ id l') as [p|] eqn:Hl'; [|done].
    apply last_with_id_Some in Hl' as [Hin Hid].
    rewrite <- Hperm in Hin.
    by rewrite (last_with_id_unique _ _ _ _ Hnd Hin Hid) in Hl.
Qed.

Lemma counts_ok_unique names (byName byName' : gmap string Z) :
  counts_ok names byName → counts_ok names byName' → byName = byName'.
Proof. intros Hc Hc'. apply map_eq. intros n. by rewrite (Hc n), (Hc' n). Qed.

(** X16. [Reset] leaves an empty registry: whatever the state before,
    [Size] and every [SizeByName] are zero afterwards and [Get],
    [GetByName], [All] and [GetWithHashRing] find nothing. Every pool
    that was stored is closed and every stream context cancelled, each
    exactly once, and nothing else is; the registered client streams are
    left as they are. *)
Theorem Reset_empties (peer : LocalPeer R) (σ : Store) :
  let peer1 := (Reset peer).1 in
  let eff := (Reset peer).2 in
  Size peer1 = 0
  ∧ (∀ name, SizeByName name peer1 = 0)
  ∧ (∀ id, Get id peer1 σ = Some ((None, false), σ))
  ∧ (∀ name, GetByName name peer1 σ = Some ([], σ))
  ∧ All peer1 σ = Some ([], σ)
  ∧ AllToMap peer1 σ = Some (∅, σ)
  ∧ (∀ name k, GetWithHashRing name k peer1 = (None, false))
  ∧ grpcPool peer1 = ∅ ∧ grpcStreamCancelFn peer1 = ∅
  ∧ grpcStreams peer1 = grpcStreams peer
  ∧ (∀ k p, PoolClosed k p ∈ eff ↔ grpcPool peer !! k = Some p)
  ∧ (∀ k x, CtxCancelled k x ∈ eff ↔ grpcStreamCancelFn peer !! k = Some x)
  ∧ NoDup eff.
Proof.
  cbv zeta. unfold Reset. simpl. split_and!; try done.
  - intros p k. rewrite elem_of_app, !list_elem_of_fmap. split.
    + intros [([k' y] & Heq & Hin)|([k' y] & Heq & _)]; [|done].
      simpl in Heq. injection Heq as <- <-. by apply elem_of_map_to_list.
    + intros Hp. left. exists (p, k). split; [done|].
      by apply elem_of_map_to_list.
  - intros k x. rewrite elem_of_app, !list_elem_of_fmap. split.
    + intros [([k' y] & Heq & _)|([k' y] & Heq & Hin)]; [done|].
      simpl in Heq. injection Heq as <- <-. by apply elem_of_map_to_list.
    + intros Hp. right. exists (k, x). split; [done|].
      by apply elem_of_map_to_list.
  - apply NoDup_app. split_and!.
    + apply NoDup_fmap_2; [|apply NoDup_map_to_list].
      intros [k1 p1] [k2 p2] Heq. simpl in Heq. by injection Heq as -> ->.
    + intros e ([k1 p1] & -> & _)%list_elem_of_fmap
               ([k2 p2] & Heq & _)%list_elem_of_fmap. done.
    + apply NoDup_fmap_2; [|apply NoDup_map_to_list].
      intros [k1 p1] [k2 p2] Heq. simpl in Heq. by injection Heq as -> ->.
Qed.

(** X17. The order of the list does not matter to [Sync] when no two of
    its Metas share an id: from the same state, [Sync] of a list and of
    any reordering of it leave the same primary index, the same name
    index, the same set of names with a ring, and the same channel
    pools and stream contexts. *)
Theorem Sync_order_irrelevant (l l' : list ptr) (peer : LocalPeer R)
    (σ : Store) :
  all_valid σ l → NoDup (ids_of σ l) → Z.of_nat (length l) ≤ max_int →
  l ≡ₚ l' →
  ∃ peer1 eff1 peer2 eff2,
    Sync l peer σ = Some (peer1, eff1)
    ∧ Sync l' peer σ = Some (peer2, eff2)
    ∧ nodes peer1 = nodes peer2
    ∧ nodesByName peer1 = nodesByName peer2
    ∧ dom (rings peer1) = dom (rings peer2)
    ∧ grpcPool peer1 = grpcPool peer2
    ∧ grpcStreamCancelFn peer1 = grpcStreamCancelFn peer2.
Proof.
  intros Hl Hnd Hlen Hperm.
  assert (all_valid σ l') as Hl'.
  { unfold all_valid. by rewrite <- Hperm. }
  assert (NoDup (ids_of σ l')) as Hnd'.
  { by rewrite <- (ids_of_Permutation σ _ _ Hperm). }
  assert (Z.of_nat (length l') ≤ max_int) as Hlen'.
  { by rewrite <- Hperm. }
  destruct (Sync_valid l peer σ Hl) as [[peer1 eff1] HS1].
  destruct (Sync_valid l' peer σ Hl') as [[peer2 eff2] HS2].
  exists peer1, eff1, peer2, eff2.
  assert (nodes peer1 = nodes peer2) as Hn.
  { apply map_eq. intros id.
    rewrite (Sync_lookup _ _ _ _ _ id HS1), (Sync_lookup _ _ _ _ _ id HS2).
    by apply last_with_id_Permutation. }
  destruct (Sync_registry_ok _ _ _ _ _ HS1 Hnd Hlen) as (_ & Hc1 & Hd1 & _).
  destruct (Sync_registry_ok _ _ _ _ _ HS2 Hnd' Hlen') as (_ & Hc2 & Hd2 & _).
  rewrite <- Hn in Hc2.
  pose proof (counts_ok_unique _ _ _ Hc1 Hc2) as Hb.
  split_and!; try done.
  - by rewrite Hd1, Hd2, Hb.
  - apply map_eq. intros k.
    destruct (Sync_transport _ _ _ _ _ k HS1) as [-> _].
    destruct (Sync_transport _ _ _ _ _ k HS2) as [-> _].
    by rewrite (bool_decide_ext _ _
                  (elem_of_Permutation_proper _ _ _
                     (ids_of_Permutation σ _ _ Hperm))).
  - apply map_eq. intros k.
    destruct (Sync_transport _ _ _ _ _ k HS1) as [_ ->].
    destruct (Sync_transport _ _ _ _ _ k HS2) as [_ ->].
    by rewrite (bool_decide_ext _ _
                  (elem_of_Permutation_proper _ _ _
                     (ids_of_Permutation σ _ _ Hperm))).
Qed.

(** X18. What a caller does to the struct it got from [Get] reaches the
    registry through the vars map only: a write to the status of the
    returned Meta leaves what the registry shows of the node as it was,
    while a write to an entry of its vars changes the vars the registry
    shows of the node in the same way. *)
Theorem Get_copy_shares_vars (id : string) (peer : LocalPeer R)
    (σ σ1 : Store) (q : ptr) (found : bool) :
  Get id peer σ = Some ((Some q, found), σ1) →
  stored_view σ1 peer id = stored_view σ peer id
  ∧ (∀ status, ∃ σ2,
       set_Status q status σ1 = Some σ2
       ∧ stored_view σ2 peer id = stored_view σ peer id)
  ∧ (∀ k v σ2,
       set_Var q k v σ1 = Some σ2 →
       ∃ m vm,
         stored_view σ peer id = Some (m, Some vm)
         ∧ stored_view σ2 peer id = Some (m, Some (<[k := v]> vm))).
Proof.
  intros (p & n & Hp & Hn & Hfresh & Hq & Hv & Hext)%Get_returns_clone.
  assert (p ≠ q) as Hne by congruence.
  assert (stored_view σ1 peer id = stored_view σ peer id) as Hsame.
  { unfold stored_view, view. rewrite Hp. simpl.
    by rewrite (Hext _ _ Hn), Hn, Hv. }
  split; [done|]. split.
  - intros status. unfold set_Status. rewrite Hq. simpl. eexists.
    split; [done|]. rewrite <- Hsame.
    unfold stored_view, view. rewrite Hp. simpl.
    unfold deref, store_meta. simpl.
    by rewrite list_lookup_insert_ne.
  - intros k v σ2. unfold set_Var, vars_store. rewrite Hq. simpl.
    destruct (Vars n) as [r|] eqn:Hr; simpl; [|done].
    destruct (varmaps σ1 !! r) as [vm|] eqn:Hvm; simpl; [|done].
    intros [= <-]. exists n, vm.
    unfold stored_view, view. rewrite Hp. simpl.
    rewrite Hn. simpl. rewrite Hr. simpl. rewrite <- Hv, Hvm.
    split; [done|].
    unfold deref. simpl. fold (deref σ1 p). rewrite (Hext _ _ Hn). simpl.
    rewrite Hr. simpl.
    rewrite list_lookup_insert_eq; [done|]. by eapply lookup_lt_Some.
Qed.
End Composition.

(** ** A Meta from the configuration *)

(** X19. [NewNodeMetaFromConfig] writes the domain of the configuration
    into the map it is given, under the key "domain", and the Meta it
    returns holds that very map: the caller's map has the entry
    afterwards (an earlier entry of that key is replaced, every other
    entry is kept), no other map and no Meta of the store is touched,
    and the address of the Meta is the chosen host and the port of the
    configuration joined by a colon. *)
Theorem NewNodeMetaFromConfig_writes_domain (env : NetEnv)
    (id name : string) (t : NodeType) (r : mapref) (c : Config)
    (σ : Store) (vm : gmap string string) (a : string) :
  varmaps σ !! r = Some vm →
  config_addr env c = Some a →
  ∃ p σ1,
    NewNodeMetaFromConfig env id name t (Some r) c σ = Some (p, σ1)
    ∧ deref σ p = None
    ∧ deref σ1 p
      = Some (mkMeta id name (host_port a (cfg_Port c)) t
                     META_STATUS_WAIT_READY (Some r))
    ∧ varmaps σ1 !! r = Some (<["domain" := cfg_Domain c]> vm)
    ∧ vars_lookup σ1 (Some r) "domain" = Some (cfg_Domain c)
    ∧ (∀ k, k ≠ "domain" →
            vars_lookup σ1 (Some r) k = vars_lookup σ (Some r) k)
    ∧ (∀ r', r' ≠ r → varmaps σ1 !! r' = varmaps σ !! r')
    ∧ store_ext σ σ1.
Proof.
  intros Hvm Ha. unfold NewNodeMetaFromConfig, vars_store.
  rewrite Ha. simpl. rewrite Hvm. simpl.
  remember (mkStore (metas σ)
              (<[r := <["domain" := cfg_Domain c]> vm]> (varmaps σ)))
    as σ0 eqn:Hσ0.
  assert (varmaps σ0 !! r = Some (<["domain" := cfg_Domain c]> vm)) as Hr.
  { rewrite Hσ0. simpl. apply list_lookup_insert_eq.
    by eapply lookup_lt_Some. }
  assert (store_ext σ σ0) as Hext.
  { intros p m. by rewrite Hσ0. }
  set (M := mkMeta id name (host_port a (cfg_Port c)) t
                   META_STATUS_WAIT_READY (Some r)).
  exists (alloc_meta M σ0).1, (alloc_meta M σ0).2.
  split; [reflexivity|]. split_and!.
  - pose proof (alloc_meta_fresh M σ0) as Hf. by rewrite Hσ0 in Hf |- *.
  - apply (deref_alloc_meta M σ0).
  - by rewrite varmaps_alloc_meta.
  - unfold vars_lookup. simpl. rewrite Hr. simpl.
    by rewrite lookup_insert_eq.
  - intros k Hk. unfold vars_lookup. simpl. rewrite Hr. simpl.
    by rewrite lookup_insert_ne.
  - intros r' Hne. rewrite varmaps_alloc_meta, Hσ0. simpl.
    by rewrite list_lookup_insert_ne.
  - intros p m Hm. apply (deref_alloc_meta_old M σ0). by apply Hext.
Qed.

(** ** The further properties on the small cluster *)

Lemma reachable_any_after ops :
  run_allowedb any_opb ops Scenario.start = true →
  reachable_by any_op (Scenario.after ops).
Proof.
  intros Hrun. apply reachable_after.
  by apply (run_allowedb_sound _ any_opb); [apply any_opb_sound|].
Qed.

Lemma reachable_nodup_after ops :
  run_allowedb nodup_syncsb ops Scenario.start = true →
  reachable_by nodup_syncs (Scenario.after ops).
Proof.
  intros Hrun. apply reachable_after.
  by apply (run_allowedb_sound _ nodup_syncsb); [apply nodup_syncsb_sound|].
Qed.

(** X1 on the small cluster: [a] and [b] are given to [Sync], [a] is
    read. *)
Lemma Sync_then_Get_witness :
  let σ := st_store (Scenario.after Scenario.build) in
  let peer := st_peer (Scenario.after Scenario.build) in
  let l := [0; 1]%nat in
  all_valid σ l
  ∧ ∃ peer1 eff,
      Sync l peer σ = Some (peer1, eff)
      ∧ match last_with_id σ "a" l with
        | Some p =>
            ∃ m q σ1,
              deref σ p = Some m ∧ Id m = "a" ∧ p ∈ l
              ∧ Get "a" peer1 σ = Some ((Some q, true), σ1)
              ∧ deref σ q = None ∧ deref σ1 q = Some m
        | None =>
            ("a" ∉ ids_of σ l) ∧ Get "a" peer1 σ = Some ((None, false), σ)
        end.
Proof.
  cbv zeta.
  assert (all_valid (st_store (Scenario.after Scenario.build)) [0; 1]%nat)
    as Hv.
  { repeat constructor; vm_compute; by eexists. }
  split; [exact Hv|].
  exact (Sync_then_Get [0; 1]%nat
           (st_peer (Scenario.after Scenario.build))
           (st_store (Scenario.after Scenario.build)) "a" Hv).
Defined.

(** X2 on the small cluster. *)
Lemma Sync_sizes_witness :
  let σ := st_store (Scenario.after Scenario.build) in
  let peer := st_peer (Scenario.after Scenario.build) in
  let l := [0; 1]%nat in
  all_valid σ l
  ∧ Z.of_nat (length l) ≤ max_int
  ∧ ∃ peer1 eff,
      Sync l peer σ = Some (peer1, eff)
      ∧ (∀ name, SizeByName name peer1
                 = Z.of_nat (occurrences name (names_of σ l)))
      ∧ Size peer1 = Z.of_nat (size (list_to_set (ids_of σ l) : gset string))
      ∧ (NoDup (ids_of σ l) → Size peer1 = Z.of_nat (length l)).
Proof.
  cbv zeta.
  assert (all_valid (st_store (Scenario.after Scenario.build)) [0; 1]%nat)
    as Hv.
  { repeat constructor; vm_compute; by eexists. }
  assert (Z.of_nat (length [0; 1]%nat) ≤ max_int) as Hlen.
  { vm_compute. discriminate. }
  split; [exact Hv|]. split; [exact Hlen|].
  exact (Sync_sizes [0; 1]%nat
           (st_peer (Scenario.after Scenario.build))
           (st_store (Scenario.after Scenario.build)) Hv Hlen).
Defined.

(** X4 on the small cluster: a stream is open to [a]; [Sync] of [b]
    alone removes [a]. *)
Lemma Sync_purges_exactly_witness :
  let peer := Scenario.peer_s in
  let σ := Scenario.store_s in
  let l := [1]%nat in
  all_valid σ l
  ∧ ∃ peer1 eff,
      Sync l peer σ = Some (peer1, eff)
      ∧ grpcStreams peer1 = grpcStreams peer
      ∧ ∀ k,
          let gone := is_Some (nodes peer !! k) ∧ k ∉ ids_of σ l in
          (gone → grpcPool peer1 !! k = None
                  ∧ grpcStreamCancelFn peer1 !! k = None)
          ∧ (¬ gone → grpcPool peer1 !! k = grpcPool peer !! k
                      ∧ grpcStreamCancelFn peer1 !! k
                        = grpcStreamCancelFn peer !! k)
          ∧ (∀ p, PoolClosed k p ∈ eff ↔ gone ∧ grpcPool peer !! k = Some p)
          ∧ (∀ c, CtxCancelled k c ∈ eff
                  ↔ gone ∧ grpcStreamCancelFn peer !! k = Some c).
Proof.
  cbv zeta.
  assert (all_valid Scenario.store_s [1]%nat) as Hv.
  { repeat constructor. vm_compute. by eexists. }
  split; [exact Hv|].
  exact (Sync_purges_exactly [1]%nat Scenario.peer_s Scenario.store_s Hv).
Defined.

(** X5 on the small cluster: [a], to which a stream is open, is
    deleted. *)
Lemma Delete_releases_witness :
  let peer := Scenario.peer_s in
  let σ := Scenario.store_s in
  (∀ p, nodes peer !! "a" = Some p → is_Some (deref σ p))
  ∧ ∃ peer1 eff,
      Delete "a" peer σ = Some (peer1, eff)
      ∧ eff = match grpcPool peer !! "a" with
              | Some p => [PoolClosed "a" p]
              | None => []
              end
              ++ match grpcStreamCancelFn peer !! "a" with
                 | Some c => [CtxCancelled "a" c]
                 | None => []
                 end
      ∧ grpcPool peer1 = delete "a" (grpcPool peer)
      ∧ grpcStreamCancelFn peer1 = delete "a" (grpcStreamCancelFn peer)
      ∧ grpcStreams peer1 = grpcStreams peer.
Proof.
  cbv zeta.
  assert (∀ p, nodes Scenario.peer_s !! "a" = Some p →
               is_Some (deref Scenario.store_s p)) as Hv.
  { intros p Hp. vm_compute in Hp. injection Hp as <-.
    vm_compute. by eexists. }
  split; [exact Hv|].
  exact (Delete_releases "a" Scenario.peer_s Scenario.store_s Hv).
Defined.

(** X6 on the small cluster. *)
Lemma primary_index_keyed_by_id_witness :
  let s := Scenario.after Scenario.streaming in
  reachable_by any_op s
  ∧ ∀ k p, nodes (st_peer s) !! k = Some p →
           ∃ m, deref (st_store s) p = Some m ∧ Id m = k.
Proof.
  cbv zeta.
  assert (reachable_by any_op (Scenario.after Scenario.streaming)) as Hreach.
  { apply reachable_any_after. vm_compute. reflexivity. }
  split; [exact Hreach|].
  exact (primary_index_keyed_by_id _ Hreach).
Defined.

(** X7 on the small cluster: [a] is deleted and read. *)
Lemma Delete_then_Get_witness :
  let s := Scenario.after Scenario.registered in
  reachable_by any_op s
  ∧ ∃ peer1 eff,
      Delete "a" (st_peer s) (st_store s) = Some (peer1, eff)
      ∧ nodes peer1 = delete "a" (nodes (st_peer s))
      ∧ Get "a" peer1 (st_store s) = Some ((None, false), st_store s)
      ∧ (∀ id', id' ≠ "a" →
                Get id' peer1 (st_store s) = Get id' (st_peer s) (st_store s))
      ∧ Size peer1
        = Size (st_peer s)
          - match nodes (st_peer s) !! "a" with Some _ => 1 | None => 0 end.
Proof.
  cbv zeta.
  assert (reachable_by any_op (Scenario.after Scenario.registered))
    as Hreach.
  { apply reachable_any_after. vm_compute. reflexivity. }
  split; [exact Hreach|].
  exact (Delete_then_Get _ "a" Hreach).
Defined.

(** X8 on the small cluster: [a] is marked as stopped. *)
Lemma Update_copies_on_write_witness :
  let s := Scenario.after Scenario.registered in
  reachable_by any_op s
  ∧ ∃ peer1 σ1,
      Update "a" META_STATUS_STOPED (st_peer s) (st_store s)
      = Some (peer1, σ1)
      ∧ store_ext (st_store s) σ1
      ∧ (∀ id', id' ≠ "a" → nodes peer1 !! id' = nodes (st_peer s) !! id')
      ∧ nodesByName peer1 = nodesByName (st_peer s)
      ∧ rings peer1 = rings (st_peer s)
      ∧ grpcPool peer1 = grpcPool (st_peer s)
      ∧ grpcStreams peer1 = grpcStreams (st_peer s)
      ∧ grpcStreamCancelFn peer1 = grpcStreamCancelFn (st_peer s)
      ∧ match nodes (st_peer s) !! "a" with
        | Some p =>
            ∃ m q,
              deref (st_store s) p = Some m
              ∧ nodes peer1 !! "a" = Some q ∧ q ≠ p
              ∧ deref σ1 q
                = Some (mkMeta (Id m) (Name m) (Addr m) (Type_ m)
                               META_STATUS_STOPED (Vars m))
              ∧ deref σ1 p = Some m
        | None => peer1 = st_peer s ∧ σ1 = st_store s
        end.
Proof.
  cbv zeta.
  assert (reachable_by any_op (Scenario.after Scenario.registered))
    as Hreach.
  { apply reachable_any_after. vm_compute. reflexivity. }
  split; [exact Hreach|].
  exact (Update_copies_on_write _ "a" META_STATUS_STOPED Hreach).
Defined.

(** X9 on the small cluster: no node carries the name [other]. *)
Lemma GetWithHashRing_registered_witness :
  let s := Scenario.after Scenario.registered in
  reachable_by nodup_syncs s
  ∧ SizeByName "other" (st_peer s) = 0
  ∧ (SizeByName "other" (st_peer s) = 0 →
     GetWithHashRing "other" "k" (st_peer s) = (None, false))
  ∧ (∀ q found,
       GetWithHashRing "other" "k" (st_peer s) = (Some q, found) →
       found = true
       ∧ ∃ id m, nodes (st_peer s) !! id = Some q
                 ∧ deref (st_store s) q = Some m ∧ Id m = id).
Proof.
  cbv zeta.
  assert (reachable_by nodup_syncs (Scenario.after Scenario.registered))
    as Hreach.
  { apply reachable_nodup_after. vm_compute. reflexivity. }
  split; [exact Hreach|]. split; [vm_compute; reflexivity|].
  exact (GetWithHashRing_registered _ "other" "k" Hreach).
Defined.

(** X10 on the small cluster. *)
Lemma All_returns_copies_witness :
  let s := Scenario.after Scenario.registered in
  reachable_by any_op s
  ∧ ∃ qs σ1,
      All (st_peer s) (st_store s) = Some (Some <$> qs, σ1)
      ∧ Z.of_nat (length qs) = Size (st_peer s)
      ∧ NoDup qs
      ∧ store_ext (st_store s) σ1
      ∧ Forall2 (λ e q, deref (st_store s) q = None
                        ∧ deref σ1 q = deref (st_store s) e.2)
                (map_to_list (nodes (st_peer s))) qs.
Proof.
  cbv zeta.
  assert (reachable_by any_op (Scenario.after Scenario.registered))
    as Hreach.
  { apply reachable_any_after. vm_compute. reflexivity. }
  split; [exact Hreach|].
  exact (All_returns_copies _ Hreach).
Defined.

(** X11 on the small cluster. *)
Lemma AllToMap_returns_copies_witness :
  let s := Scenario.after Scenario.registered in
  reachable_by any_op s
  ∧ ∃ r σ1,
      AllToMap (st_peer s) (st_store s) = Some (r, σ1)
      ∧ store_ext (st_store s) σ1
      ∧ dom r = dom (nodes (st_peer s))
      ∧ (∀ k p, nodes (st_peer s) !! k = Some p →
                ∃ q, r !! k = Some q
                     ∧ deref (st_store s) q = None
                     ∧ deref σ1 q = deref (st_store s) p)
      ∧ (∀ k k' q, r !! k = Some q → r !! k' = Some q → k = k').
Proof.
  cbv zeta.
  assert (reachable_by any_op (Scenario.after Scenario.registered))
    as Hreach.
  { apply reachable_any_after. vm_compute. reflexivity. }
  split; [exact Hreach|].
  exact (AllToMap_returns_copies _ Hreach).
Defined.

(** X12 on the small cluster: both nodes carry the name [svc]. *)
Lemma GetByName_returns_copies_witness :
  let s := Scenario.after Scenario.registered in
  reachable_by nodup_syncs s
  ∧ SizeByName "svc" (st_peer s) = 2
  ∧ ∃ qs σ1,
      GetByName "svc" (st_peer s) (st_store s) = Some (qs, σ1)
      ∧ Z.of_nat (length qs) = SizeByName "svc" (st_peer s)
      ∧ NoDup qs
      ∧ store_ext (st_store s) σ1
      ∧ Forall2 (λ e q, deref (st_store s) q = None
                        ∧ deref σ1 q = deref (st_store s) e.2)
                (filter (λ e, Name <$> deref (st_store s) e.2 = Some "svc")
                        (map_to_list (nodes (st_peer s)))) qs.
Proof.
  cbv zeta.
  assert (reachable_by nodup_syncs (Scenario.after Scenario.registered))
    as Hreach.
  { apply reachable_nodup_after. vm_compute. reflexivity. }
  split; [exact Hreach|]. split; [vm_compute; reflexivity|].
  exact (GetByName_returns_copies _ "svc" Hreach).
Defined.

(** X13 on the small cluster: a stream is open to [a], and [a] is
    deleted. *)
Lemma transport_released_when_dropped_witness :
  let s := Scenario.after Scenario.streaming in
  let s1 := Scenario.after (Scenario.streaming ++ [OpDelete "a"]) in
  exec (OpDelete "a") s = Some s1
  ∧ is_Some (grpcPool (st_peer s) !! "a")
  ∧ (∀ p, grpcPool (st_peer s) !! "a" = Some p →
          grpcPool (st_peer s1) !! "a" = Some p
          ∨ (grpcPool (st_peer s1) !! "a" = None
             ∧ PoolClosed "a" p ∈ new_effects s s1))
  ∧ (∀ x, grpcStreamCancelFn (st_peer s) !! "a" = Some x →
          grpcStreamCancelFn (st_peer s1) !! "a" = Some x
          ∨ (grpcStreamCancelFn (st_peer s1) !! "a" = None
             ∧ CtxCancelled "a" x ∈ new_effects s s1))
  ∧ (∀ p, PoolClosed "a" p ∈ new_effects s s1 →
          grpcPool (st_peer s) !! "a" = Some p
          ∧ grpcPool (st_peer s1) !! "a" = None)
  ∧ (∀ x, CtxCancelled "a" x ∈ new_effects s s1 →
          grpcStreamCancelFn (st_peer s) !! "a" = Some x
          ∧ grpcStreamCancelFn (st_peer s1) !! "a" = None).
Proof.
  cbv zeta.
  assert (exec (OpDelete "a") (Scenario.after Scenario.streaming)
          = Some (Scenario.after (Scenario.streaming ++ [OpDelete "a"])))
    as Hex.
  { vm_compute. reflexivity. }
  split; [exact Hex|]. split; [vm_compute; by eexists|].
  exact (transport_released_when_dropped _ _ _ "a" Hex).
Defined.

(** X14 on the small cluster: a stream is open to [a] and its goroutine
    has run. *)
Lemma goroutine_channels_open_witness :
  let s := Scenario.after
             (Scenario.streaming ++ [OpTask Scenario.idle 0%nat]) in
  reachable_by any_op s
  ∧ net_ok (st_net s) ∧ client_streams_ok (st_peer s) (st_net s).
Proof.
  cbv zeta.
  assert (reachable_by any_op
            (Scenario.after
               (Scenario.streaming ++ [OpTask Scenario.idle 0%nat])))
    as Hreach.
  { apply reachable_any_after. vm_compute. reflexivity. }
  split; [exact Hreach|].
  exact (goroutine_channels_open _ Hreach).
Defined.

(** X15 on the small cluster: a stream is open to [a] under the client
    id [c1]; after [Reset] a [SendStream] under [c1], with a pointer that
    leads nowhere for its node, is handed to that stream. *)
Lemma client_streams_outlive_registry_witness :
  let s := Scenario.after Scenario.streaming in
  let s1 := Scenario.after (Scenario.streaming ++ [OpReset]) in
  reachable_by any_op s
  ∧ grpcStreams (st_peer s) !! "c1" = Some 0%nat
  ∧ registry_op OpReset s
  ∧ exec OpReset s = Some s1
  ∧ deref (st_store s1) 7%nat = None
  ∧ ∃ s0 net1,
      streams (st_net s) !! 0%nat = Some s0
      ∧ SendStream Scenario.net_up (CallerCtx 2) "c1" 7%nat Scenario.ping ∅
                   (st_peer s1) (st_store s1) (st_net s1)
        = Some (mkSendStreamResult false None (rpc_Send Scenario.net_up),
                st_peer s1, net1)
      ∧ streams net1 !! 0%nat
        = Some (mkClientStream (cs_ctx s0) (cs_sent s0 ++ [Scenario.ping])
                               (cs_incoming s0) (cs_closeSend s0))
      ∧ chans net1 = chans (st_net s) ∧ tasks net1 = tasks (st_net s).
Proof.
  cbv zeta.
  assert (reachable_by any_op (Scenario.after Scenario.streaming)) as Hreach.
  { apply reachable_any_after. vm_compute. reflexivity. }
  assert (grpcStreams (st_peer (Scenario.after Scenario.streaming)) !! "c1"
          = Some 0%nat) as Hh.
  { vm_compute. reflexivity. }
  assert (registry_op OpReset (Scenario.after Scenario.streaming)) as Hop.
  { exact I. }
  assert (exec OpReset (Scenario.after Scenario.streaming)
          = Some (Scenario.after (Scenario.streaming ++ [OpReset]))) as Hex.
  { vm_compute. reflexivity. }
  split; [exact Hreach|]. split; [exact Hh|]. split; [exact Hop|].
  split; [exact Hex|]. split; [vm_compute; reflexivity|].
  exact (client_streams_outlive_registry _ _ OpReset "c1" 0%nat
           Scenario.net_up (CallerCtx 2) 7%nat Scenario.ping ∅
           Hreach Hh Hop Hex).
Defined.

(** X17 on the small cluster: [a] and [b] in both orders. *)
Lemma Sync_order_irrelevant_witness :
  let σ := st_store (Scenario.after Scenario.build) in
  let peer := st_peer (Scenario.after Scenario.build) in
  let l := [0; 1]%nat in
  let l' := [1; 0]%nat in
  all_valid σ l ∧ NoDup (ids_of σ l) ∧ Z.of_nat (length l) ≤ max_int
  ∧ l ≡ₚ l'
  ∧ ∃ peer1 eff1 peer2 eff2,
      Sync l peer σ = Some (peer1, eff1)
      ∧ Sync l' peer σ = Some (peer2, eff2)
      ∧ nodes peer1 = nodes peer2
      ∧ nodesByName peer1 = nodesByName peer2
      ∧ dom (rings peer1) = dom (rings peer2)
      ∧ grpcPool peer1 = grpcPool peer2
      ∧ grpcStreamCancelFn peer1 = grpcStreamCancelFn peer2.
Proof.
  cbv zeta.
  assert (all_valid (st_store (Scenario.after Scenario.build)) [0; 1]%nat)
    as Hv.
  { repeat constructor; vm_compute; by eexists. }
  assert (NoDup (ids_of (st_store (Scenario.after Scenario.build))
                        [0; 1]%nat)) as Hnd.
  { by_evaluation. }
  assert (Z.of_nat (length [0; 1]%nat) ≤ max_int) as Hlen.
  { vm_compute. discriminate. }
  assert ([0; 1]%nat ≡ₚ [1; 0]%nat) as Hperm.
  { apply perm_swap. }
  split; [exact Hv|]. split; [exact Hnd|]. split; [exact Hlen|].
  split; [exact Hperm|].
  exact (Sync_order_irrelevant [0; 1]%nat [1; 0]%nat
           (st_peer (Scenario.after Scenario.build))
           (st_store (Scenario.after Scenario.build)) Hv Hnd Hlen Hperm).
Defined.

(** X18 on the small cluster: [a], which has a vars map, is read. *)
Lemma Get_copy_shares_vars_witness :
  let peer := Scenario.peer_r in
  let σ := Scenario.store_r in
  let σ1 := st_store (Scenario.after (Scenario.registered ++ [OpGet "a"])) in
  Get "a" peer σ = Some ((Some 3%nat, true), σ1)
  ∧ stored_view σ1 peer "a" = stored_view σ peer "a"
  ∧ (∀ status, ∃ σ2,
       set_Status 3%nat status σ1 = Some σ2
       ∧ stored_view σ2 peer "a" = stored_view σ peer "a")
  ∧ (∀ k v σ2,
       set_Var 3%nat k v σ1 = Some σ2 →
       ∃ m vm,
         stored_view σ peer "a" = Some (m, Some vm)
         ∧ stored_view σ2 peer "a" = Some (m, Some (<[k := v]> vm))).
Proof.
  cbv zeta.
  assert (Get "a" Scenario.peer_r Scenario.store_r
          = Some ((Some 3%nat, true),
                  st_store (Scenario.after
                              (Scenario.registered ++ [OpGet "a"]))))
    as Hg.
  { vm_compute. reflexivity. }
  split; [exact Hg|].
  exact (Get_copy_shares_vars "a" Scenario.peer_r Scenario.store_r _
           3%nat true Hg).
Defined.

(** X19 on a store with one map, which has a domain already. *)
Lemma NewNodeMetaFromConfig_writes_domain_witness :
  let env := mkNetEnv (λ a, Some a) (Some "10.0.0.5") in
  let c := mkConfig "127.0.0.1" 7350 "example.org" in
  let vm : gmap string string := {[ "domain" := "old"; "zone" := "z1" ]} in
  let σ := (alloc_map vm empty_store).2 in
  varmaps σ !! 0%nat = Some vm
  ∧ config_addr env c = Some "127.0.0.1"
  ∧ ∃ p σ1,
      NewNodeMetaFromConfig env "n1" "nakama" NODE_TYPE_NAKAMA (Some 0%nat)
                            c σ
      = Some (p, σ1)
      ∧ deref σ p = None
      ∧ deref σ1 p
        = Some (mkMeta "n1" "nakama" (host_port "127.0.0.1" (cfg_Port c))
                       NODE_TYPE_NAKAMA META_STATUS_WAIT_READY (Some 0%nat))
      ∧ varmaps σ1 !! 0%nat = Some (<["domain" := cfg_Domain c]> vm)
      ∧ vars_lookup σ1 (Some 0%nat) "domain" = Some (cfg_Domain c)
      ∧ (∀ k, k ≠ "domain" →
              vars_lookup σ1 (Some 0%nat) k = vars_lookup σ (Some 0%nat) k)
      ∧ (∀ r', r' ≠ 0%nat → varmaps σ1 !! r' = varmaps σ !! r')
      ∧ store_ext σ σ1.
Proof.
  cbv zeta.
  assert (varmaps (alloc_map ({[ "domain" := "old"; "zone" := "z1" ]}
                               : gmap string string) empty_store).2
            !! 0%nat
          = Some ({[ "domain" := "old"; "zone" := "z1" ]}
                    : gmap string string)) as Hvm.
  { reflexivity. }
  assert (config_addr (mkNetEnv (λ a, Some a) (Some "10.0.0.5"))
                      (mkConfig "127.0.0.1" 7350 "example.org")
          = Some "127.0.0.1") as Ha.
  { vm_compute. reflexivity. }
  split; [exact Hvm|]. split; [exact Ha|].
  exact (NewNodeMetaFromConfig_writes_domain
           (mkNetEnv (λ a, Some a) (Some "10.0.0.5"))
           "n1" "nakama" NODE_TYPE_NAKAMA 0%nat
           (mkConfig "127.0.0.1" 7350 "example.org") _ _ "127.0.0.1"
           Hvm Ha).
Defined.


(** X21 on the small cluster: the first stream to [a]. *)
Lemma SendStream_shares_context_witness :
  let peer := Scenario.peer_r in
  let σ := Scenario.store_r in
  let env := Scenario.net_up in
  let c := CallerCtx 1 in
  let m := Scenario.meta_a in
  grpcStreams peer !! "c1" = None
  ∧ deref σ 0%nat = Some m
  ∧ (grpcPool peer !! Id m = None → rpc_pool_New env = None)
  ∧ rpc_pool_Get env = None
  ∧ 0 ≤ MessageQueueSize (options peer)
  ∧ let x := default (mkStreamContext (WithCancel c))
                     (grpcStreamCancelFn peer !! Id m) in
    ∃ r peer1 net1,
      SendStream env c "c1" 0%nat Scenario.ping ∅ peer σ empty_net
      = Some (r, peer1, net1)
      ∧ grpcStreamCancelFn peer1 = <[Id m := x]> (grpcStreamCancelFn peer)
      ∧ is_Some (grpcPool peer1 !! Id m)
      ∧ match rpc_Stream env with
        | inl answers =>
            sr_created r = true
            ∧ ∃ h, grpcStreams peer1 !! "c1" = Some h
                   ∧ streams net1 !! h
                     = Some (mkClientStream
                               (NewOutgoingContext (sc_ctx x) ∅)
                               [Scenario.ping] answers false)
        | inr e =>
            r = mkSendStreamResult false None (Some e)
            ∧ net1 = empty_net ∧ grpcStreams peer1 = grpcStreams peer
        end.
Proof.
  cbv zeta.
  assert (grpcStreams Scenario.peer_r !! "c1" = None) as Hcid.
  { vm_compute. reflexivity. }
  assert (deref Scenario.store_r 0%nat = Some Scenario.meta_a) as Hm.
  { vm_compute. reflexivity. }
  assert (grpcPool Scenario.peer_r !! Id Scenario.meta_a = None →
          rpc_pool_New Scenario.net_up = None) as Hnew.
  { intros _. reflexivity. }
  assert (rpc_pool_Get Scenario.net_up = None) as Hget.
  { reflexivity. }
  assert (0 ≤ MessageQueueSize (options Scenario.peer_r)) as Hq.
  { vm_compute. discriminate. }
  split; [exact Hcid|]. split; [exact Hm|]. split; [exact Hnew|].
  split; [exact Hget|]. split; [exact Hq|].
  exact (SendStream_shares_context Scenario.net_up (CallerCtx 1) "c1" 0%nat
           Scenario.ping ∅ Scenario.peer_r Scenario.store_r empty_net
           Scenario.meta_a Hcid Hm Hnew Hget Hq).
Defined.
